(** * CookieTTS: the FESV_AE loss collation and the WaveGlow coupling networks

    A shallow embedding of
    - [CookieTTS/_2_ttm/ExpFESV_AE/loss_function.py] (class [FESV_AELoss]) and
    - [CookieTTS/_4_mtw/waveglow/glow_ax.py] (function
      [fused_add_tanh_sigmoid_multiply], classes [WN] and [WN_2d]),
    followed by the properties of the design document that concern them.

    Python's numbers are IEEE binary64 numbers (primitive floats).  The
    values of the loss tensors are held as such numbers, their arithmetic
    is that of the tensors' dtype, a parameter, and the tensors are
    objects of a heap, since [forward] writes to them; the tensors of the
    coupling networks hold real numbers. *)

From Stdlib Require Import Floats.
From Stdlib Require Import Reals Lra.
From stdpp Require Import base option list strings gmap.

(** * Python run-time errors *)

Inductive exn :=
  | AssertionError
  | AttributeError
  | IndexError
  | KeyError
  | NotImplementedError
  | RuntimeError
  | TypeError
  | UnboundLocalError
  | ValueError.

(** A computation that raises or returns. *)
Definition except (A : Type) : Type := exn + A.

Definition raise {A} (e : exn) : except A := inl e.

#[global] Instance except_ret : MRet except := λ A a, inr a.
#[global] Instance except_bind : MBind except := λ A B k m,
  match m with
  | inl e => inl e
  | inr a => k a
  end.
#[global] Instance except_fmap : FMap except := λ A B f m,
  match m with
  | inl e => inl e
  | inr a => inr (f a)
  end.

(** [seq[i]] on a Python list. *)
Definition py_index {A} (l : list A) (i : nat) : except A :=
  match l !! i with
  | Some a => mret a
  | None => raise IndexError
  end.

(** [assert c]. *)
Definition py_assert (c : bool) : except unit :=
  if c then mret tt else raise AssertionError.

(** * Loops and broadcasting in the error monad *)

Fixpoint zipM {A B C} (f : A → B → except C) (a : list A) (b : list B)
    : except (list C) :=
  match a, b with
  | x :: a, y :: b => z ← f x y; zs ← zipM f a b; mret (z :: zs)
  | _, _ => mret []
  end.

Fixpoint forM {A B} (f : A → except B) (a : list A) : except (list B) :=
  match a with
  | [] => mret []
  | x :: a => y ← f x; ys ← forM f a; mret (y :: ys)
  end.

(** One axis of PyTorch's broadcasting: the extents agree, or one is 1. *)
Definition broadcast {A B C} (f : A → B → except C) (a : list A) (b : list B)
    : except (list C) :=
  if decide (length a = length b) then zipM f a b
  else match a, b with
       | [x], _ => forM (f x) b
       | _, [y] => forM (λ x, f x y) a
       | _, _ => raise RuntimeError
       end.

(** * Ordered dictionaries

    A Python [dict] keeps its keys in insertion order, and
    [colate_losses] adds up the components in that order. *)

Module Dict.
Abbreviation t V := (list (string * V)).

Section dict.
Context {V : Type}.

Fixpoint get (k : string) (d : t V) : option V :=
  match d with
  | [] => None
  | (k', v) :: d' => if decide (k' = k) then Some v else get k d'
  end.

(** [d[k] = v]: an existing key keeps its position. *)
Fixpoint set (k : string) (v : V) (d : t V) : t V :=
  match d with
  | [] => [(k, v)]
  | (k', v') :: d' =>
      if decide (k' = k) then (k, v) :: d' else (k', v') :: set k v d'
  end.

Definition keys (d : t V) : list string := d.*1.
End dict.
End Dict.

(** * [loss_function.py] *)

Module Loss.
Open Scope float_scope.

(** An instance of [FESV_AELoss]: [__init__] stores [rank]; any
    [<name>_weight] attribute set on the instance afterwards is in
    [attrs]. *)
Record FESV_AELoss := {
  rank : Z;
  attrs : gmap string float;
}.

(** The name [f'{k}_weight']. *)
Definition weight_key (k : string) : string := k +:+ "_weight".

(** The running state of the loop of [colate_losses]: the local [loss]
    ([None] until a first term is added) and the lines printed. *)
Record colate_state := {
  cs_loss : option float;
  cs_out : list string;
}.

(** One iteration of [for k, v in loss_dict.items()]. *)
Definition colate_iter (self : FESV_AELoss) (loss_scalars : gmap string float)
    (st : colate_state) (kv : string * float) : colate_state :=
  let '(k, v) := kv in
  let loss_scale := loss_scalars !! weight_key k in
  let loss_scale :=
    match loss_scale with
    | None => attrs self !! weight_key k
    | Some _ => loss_scale
    end in
  let '(loss_scale, out) :=
    match loss_scale with
    | None => (1.0, cs_out st ++ [k +:+ " is missing loss weight"])
    | Some w => (w, cs_out st)
    end in
  let loss :=
    if 0.0 <? loss_scale then
      match cs_loss st with
      | Some loss => Some (loss + v * loss_scale)
      | None => Some (v * loss_scale)
      end
    else cs_loss st in
  (* [if False and self.rank == 0: print(...)] never prints *)
  let out := if false && bool_decide (rank self = 0%Z) then out ++ [k] else out in
  {| cs_loss := loss; cs_out := out |}.

(** [colate_losses(self, loss_dict, loss_scalars, loss=None)]: the returned
    mapping (the dictionary passed in, with key ['loss'] set) and the
    lines printed.  The local [loss] may still be [None] at the end. *)
Definition colate_losses (self : FESV_AELoss) (loss_dict : Dict.t float)
    (loss_scalars : gmap string float) (loss : option float)
    : Dict.t (option float) * list string :=
  let st := foldl (colate_iter self loss_scalars)
                  {| cs_loss := loss; cs_out := [] |} loss_dict in
  (Dict.set "loss" (cs_loss st) (fmap (M:=list) (λ kv, (kv.1, Some kv.2)) loss_dict),
   cs_out st).

(** ** The weighting policy in the words of the design document *)

(** The weight of component [k]: the per-call override, else the
    attribute of the instance, else [1.0]. *)
Definition resolved_weight (self : FESV_AELoss)
    (loss_scalars : gmap string float) (k : string) : float :=
  match loss_scalars !! weight_key k with
  | Some w => w
  | None => default 1.0 (attrs self !! weight_key k)
  end.

(** A component whose weight is found in neither place is warned about. *)
Definition weight_missing (self : FESV_AELoss)
    (loss_scalars : gmap string float) (k : string) : bool :=
  bool_decide (loss_scalars !! weight_key k = None ∧
               attrs self !! weight_key k = None).

(** The sum of a list of terms, added left to right; an empty list has
    no sum. *)
Definition sum_terms (ts : list float) : option float :=
  match ts with
  | [] => None
  | t :: ts => Some (foldl PrimFloat.add t ts)
  end.

(** The terms [weight * value] of the components of strictly positive
    weight, in the order of the dictionary. *)
Definition positive_terms (self : FESV_AELoss)
    (loss_scalars : gmap string float) (loss_dict : Dict.t float)
    : list float :=
  fmap (M:=list) (λ kv, kv.2 * resolved_weight self loss_scalars kv.1) $
  filter (λ kv, (0.0 <? resolved_weight self loss_scalars kv.1) = true) loss_dict.

(** ** Tensors of [forward]

    A float tensor [[B, n_mel, T]] is the list of its [B] utterances, an
    utterance the list of its [n_mel] channels, a channel the list of its
    [T] frames.  A tensor is an object: [pred] and [gt] refer to it by its
    location in the heap, and [masked_fill_] writes to that location. *)

Abbreviation tensor := (list (list (list float))).
Abbreviation mask3 := (list (list (list bool))).

Abbreviation loc := positive.
Abbreviation heap := (gmap loc tensor).

(** [x] is a tensor of shape [[B, C, T]]. *)
Definition has_shape {A} (B C T : nat) (x : list (list (list A))) : Prop :=
  length x = B ∧ Forall (λ s, length s = C ∧ Forall (λ r, length r = T) s) x.

(** The value at [[i, c, t]]. *)
Definition get3 {A} (x : list (list (list A))) (i c t : nat) : option A :=
  s ← x !! i; r ← s !! c; r !! t.

(** [x.shape] *)
Definition shape {A} (x : list (list (list A))) : nat * nat * nat :=
  match x with
  | [] => (0, 0, 0)%nat
  | [] :: _ => (length x, 0, 0)%nat
  | (r :: s) :: _ => (length x, S (length s), length r)
  end.

(** A computation on the heap that raises or returns; what it has
    written before it raises stays written. *)
Definition run (A : Type) : Type := heap → except A * heap.

#[global] Instance run_ret : MRet run := λ A a h, (inr a, h).
#[global] Instance run_bind : MBind run := λ A B k m h,
  match m h with
  | (inl e, h') => (inl e, h')
  | (inr a, h') => k a h'
  end.

Definition lift {A} (m : except A) : run A := λ h, (m, h).
Definition load (l : loc) : run tensor := λ h, (inr (h !!! l), h).
Definition store (l : loc) (x : tensor) : run unit :=
  λ h, (inr tt, <[l := x]> h).

(** One axis of a mask broadcast to the extent of the tensor it is
    applied to. *)
Definition fill_axis {A M} (f : A → M → except A) (x : list A) (m : list M)
    : except (list A) :=
  if decide (length m = length x) then zipM f x m
  else match m with
       | [m1] => forM (λ a, f a m1) x
       | _ => raise RuntimeError
       end.

(** [x.masked_fill(mask, value)] *)
Definition masked_fill (x : tensor) (mask : mask3) (value : float)
    : except tensor :=
  fill_axis (fill_axis (fill_axis
    (λ a (b : bool), mret (if b then value else a)))) x mask.

(** [x.masked_fill_(mask, value)], on the tensor at [l]. *)
Definition masked_fill_ (l : loc) (mask : mask3) (value : float) : run unit :=
  x ← load l;
  x ← lift (masked_fill x mask value);
  store l x.

(** [~mask] *)
Definition invert (mask : mask3) : mask3 :=
  fmap (M:=list) (fmap (M:=list) (fmap (M:=list) negb)) mask.

(** [torch.masked_select(x, mask)]: the selected values, in row-major
    order. *)
Definition masked_select (x : tensor) (mask : mask3) : except (list float) :=
  sel ← broadcast (broadcast (broadcast
           (λ a (b : bool), mret (if b then [a] else [])))) x mask;
  mret (concat (concat (concat sel))).

(** [x.transpose(1, 2)] *)
Definition transpose12 {A} (x : list (list (list A))) : list (list (list A)) :=
  (λ s, match s with
        | [] => []
        | r :: _ => (λ t, omap (λ r', r' !! t) s) <$> seq 0 (length r)
        end) <$> x.

(** ** The arithmetic of the tensors

    The tensors that [forward] is given have the floating-point dtype of
    the caller's model ([torch.float32] unless it was changed), their
    arithmetic rounds to that dtype, and a reduction adds in the order
    PyTorch chooses.  A value of a tensor is held as the binary64 number
    it is equal to (every [float32] and [float16] value is one, and
    [.item()] returns that number); the operations of the dtype are
    parameters of the model:
    - [t_add a b], [t_sub a b], [t_mul a b] and [t_abs a] are [a + b],
      [a - b], [a * b] and [abs(a)] on values of tensors;
    - [t_scale v w] is [v * w] for a value [v] of a tensor and a Python
      number [w];
    - [t_mean x] is [x.mean()] over the values of [x] in storage order. *)
Class Dtype := {
  t_add : float → float → float;
  t_sub : float → float → float;
  t_mul : float → float → float;
  t_scale : float → float → float;
  t_abs : float → float;
  t_mean : list float → float;
}.

Section arithmetic.
Context {dtype : Dtype}.

(** [colate_losses] on the components that [forward] passes it, which
    are tensors of rank 0: [v*loss_scale] and [loss + v*loss_scale] are
    then operations of their dtype.  The weights stay Python numbers. *)
Definition colate_iter_tensor (self : FESV_AELoss)
    (loss_scalars : gmap string float)
    (st : colate_state) (kv : string * float) : colate_state :=
  let '(k, v) := kv in
  let loss_scale := loss_scalars !! weight_key k in
  let loss_scale :=
    match loss_scale with
    | None => attrs self !! weight_key k
    | Some _ => loss_scale
    end in
  let '(loss_scale, out) :=
    match loss_scale with
    | None => (1.0, cs_out st ++ [k +:+ " is missing loss weight"])
    | Some w => (w, cs_out st)
    end in
  let loss :=
    if 0.0 <? loss_scale then
      match cs_loss st with
      | Some loss => Some (t_add loss (t_scale v loss_scale))
      | None => Some (t_scale v loss_scale)
      end
    else cs_loss st in
  (* [if False and self.rank == 0: print(...)] never prints *)
  let out := if false && bool_decide (rank self = 0%Z) then out ++ [k] else out in
  {| cs_loss := loss; cs_out := out |}.

Definition colate_losses_tensor (self : FESV_AELoss) (loss_dict : Dict.t float)
    (loss_scalars : gmap string float) (loss : option float)
    : Dict.t (option float) * list string :=
  let st := foldl (colate_iter_tensor self loss_scalars)
                  {| cs_loss := loss; cs_out := [] |} loss_dict in
  (Dict.set "loss" (cs_loss st) (fmap (M:=list) (λ kv, (kv.1, Some kv.2)) loss_dict),
   cs_out st).

(** [nn.MSELoss(reduction='none')] and [nn.L1Loss(reduction='none')] *)
Definition squared_error (a b : list float) : except (list float) :=
  broadcast (λ u v, mret (t_mul (t_sub u v) (t_sub u v))) a b.
Definition absolute_error (a b : tensor) : except tensor :=
  broadcast (broadcast (broadcast (λ u v, mret (t_abs (t_sub u v))))) a b.

(** [(x * x.mean(dim=1, keepdim=True)).mean()] *)
Definition mean_frame_scaled (x : list (list float)) : float :=
  t_mean (concat ((λ row, (λ v, t_mul v (t_mean row)) <$> row) <$> x)).

End arithmetic.

(** [x.split(sizes)] on a tensor of rank 1. *)
Fixpoint chunks {A} (x : list A) (sizes : list nat) : list (list A) :=
  match sizes with
  | [] => []
  | n :: sizes => take n x :: chunks (drop n x) sizes
  end.
Definition split {A} (x : list A) (sizes : list nat) : except (list (list A)) :=
  if decide (sum_list sizes = length x) then mret (chunks x sizes)
  else raise RuntimeError.

(** [x.view(rows, cols)] on a tensor of rank 1. *)
Definition view {A} (x : list A) (rows cols : nat) : except (list (list A)) :=
  if decide (length x = rows * cols)%nat
  then mret ((λ r, take cols (drop (r * cols)%nat x)) <$> seq 0 rows)
  else raise RuntimeError.

(** Modelled from the spec: [get_mask_from_lengths], of
    [CookieTTS.utils.model.utils], is not among the sources.  It is the
    length mask [[B, max(lengths)]] that tells the frames of each utterance
    from its padded time-steps: true at the frames [t < lengths[i]]. *)
Definition get_mask_from_lengths (lengths : list nat) : list (list bool) :=
  let max_len := foldr Nat.max 0%nat lengths in
  (λ len, (λ t, bool_decide (t < len)%nat) <$> seq 0 max_len) <$> lengths.

(** What masking by the lengths leaves of a tensor: the frames of each
    utterance, and [0.0] at its padded time-steps. *)
Definition masked (lengths : list nat) (x : tensor) : tensor :=
  zip_with (λ s len,
              (λ r, zip_with (λ v t, if bool_decide (t < len)%nat then v else 0)
                             r (seq 0 (length r))) <$> s)
           x lengths.

(** ** [forward] *)

(** What [forward] reads of [pred] and of [gt]. *)
Record predictions := {
  pred_mel_postnet : loc;
  pred_mel : loc;
}.
Record ground_truth := {
  gt_mel : loc;
  mel_lengths : list nat;
  audiopath : list string;
  speaker_id_ext : list Z;
}.

(** A value of the per-file diagnostics. *)
Inductive scalar :=
  | Int (z : Z)
  | Float (f : float).

(** [for i in range(B)]: the first entry of each [audiopath];
    [clock i] is what [time.time()] returns in round [i]. *)
Fixpoint new_file_losses (clock : nat → float) (gt : ground_truth)
    (idx : list nat) (file_losses : Dict.t (Dict.t scalar))
    : except (Dict.t (Dict.t scalar)) :=
  match idx with
  | [] => mret file_losses
  | i :: idx =>
      let current_time := clock i in
      path ← py_index (audiopath gt) i;
      file_losses ←
        (if Dict.get path file_losses is None then
           speaker ← py_index (speaker_id_ext gt) i;
           path ← py_index (audiopath gt) i;
           mret (Dict.set path [("speaker_id_ext", Int speaker);
                                ("time", Float current_time)] file_losses)
         else mret file_losses);
      new_file_losses clock gt idx file_losses
  end.

Section forward.
Context {dtype : Dtype}.

(** [for i in range(B)]: the [spec_MSE] of each file. *)
Fixpoint set_file_losses (gt : ground_truth) (losses : list (list float))
    (idx : list nat) (file_losses : Dict.t (Dict.t scalar))
    : except (Dict.t (Dict.t scalar)) :=
  match idx with
  | [] => mret file_losses
  | i :: idx =>
      path ← py_index (audiopath gt) i;
      loss ← py_index losses i;
      entry ← (if Dict.get path file_losses is Some entry then mret entry
               else raise KeyError);
      set_file_losses gt losses idx
        (Dict.set path (Dict.set "spec_MSE" (Float (t_mean loss)) entry)
                  file_losses)
  end.

(** What [forward] computes once the predictions are masked. *)
Definition losses_of_masked (self : FESV_AELoss) (pred : predictions)
    (gt : ground_truth) (loss_scalars : gmap string float)
    (B n_mel : nat) (mask : mask3) (file_losses : Dict.t (Dict.t scalar))
    : run (Dict.t (option float) * list string * Dict.t (Dict.t scalar)) :=
  (* spectrogram / decoder loss *)
  pred_mel_t ← load (pred_mel pred);
  gt_mel_t ← load (gt_mel gt);
  pred_mel_selected ← lift (masked_select pred_mel_t mask);
  gt_mel_selected ← lift (masked_select gt_mel_t mask);
  spec_SE ← lift (squared_error pred_mel_selected gt_mel_selected);
  let loss_dict := Dict.set "spec_MSE" (t_mean spec_SE) [] in
  losses ← lift (split spec_SE ((λ x, x * n_mel)%nat <$> mel_lengths gt));
  file_losses ← lift (set_file_losses gt losses (seq 0 B) file_losses);
  (* postnet *)
  pred_mel_postnet_t ← load (pred_mel_postnet pred);
  pred_mel_postnet_selected ← lift (masked_select pred_mel_postnet_t mask);
  postnet_SE ← lift (squared_error pred_mel_postnet_selected gt_mel_selected);
  let loss_dict := Dict.set "postnet_MSE" (t_mean postnet_SE) loss_dict in
  (* squared by frame, mean postnet *)
  let mask := fmap (M:=list) (fmap (M:=list) (take 1)) (transpose12 mask) in
  spec_AE ← lift (absolute_error pred_mel_t gt_mel_t);
  spec_AE ← lift (masked_select (transpose12 spec_AE) mask);
  spec_AE ← lift (view spec_AE (sum_list (mel_lengths gt)) n_mel);
  let loss_dict := Dict.set "spec_MFSE" (mean_frame_scaled spec_AE) loss_dict in
  post_AE ← lift (absolute_error pred_mel_postnet_t gt_mel_t);
  post_AE ← lift (masked_select (transpose12 post_AE) mask);
  post_AE ← lift (view post_AE (sum_list (mel_lengths gt)) n_mel);
  let loss_dict :=
    Dict.set "postnet_MFSE" (mean_frame_scaled post_AE) loss_dict in
  let '(loss_dict, printed) :=
    colate_losses_tensor self loss_dict loss_scalars None in
  mret (loss_dict, printed, file_losses).

(** [forward(self, model, pred, gt, loss_scalars)]: the returned
    [loss_dict] and [file_losses], and the lines printed. *)
Definition forward (self : FESV_AELoss) (clock : nat → float)
    (pred : predictions) (gt : ground_truth)
    (loss_scalars : gmap string float)
    : run (Dict.t (option float) * list string * Dict.t (Dict.t scalar)) :=
  gt_mel_t ← load (gt_mel gt);
  let '(B, n_mel, mel_T) := shape gt_mel_t in
  file_losses ← lift (new_file_losses clock gt (seq 0 B) []);
  let mask := get_mask_from_lengths (mel_lengths gt) in
  let mask := (λ row, replicate n_mel row) <$> mask in
  _ ← masked_fill_ (pred_mel_postnet pred) (invert mask) 0;
  _ ← masked_fill_ (pred_mel pred) (invert mask) 0;
  losses_of_masked self pred gt loss_scalars B n_mel mask file_losses.

End forward.

End Loss.

(** ** A small batch

    Two utterances of two channels, padded to three frames; the second
    has one frame.  The predictions and the ground truth are three
    tensors of the heap. *)

Module LossExample.
Import Loss.

Definition example_heap : heap :=
  <[1%positive := [[[1; 2; 3]; [4; 5; 6]]; [[7; 8; 9]; [10; 11; 12]]]]>
  (<[2%positive := [[[1; 1; 1]; [1; 1; 1]]; [[2; 2; 2]; [2; 2; 2]]]]>
  (<[3%positive := [[[0; 0; 0]; [0; 0; 0]]; [[1; 1; 1]; [1; 1; 1]]]]> ∅)).

Definition example_pred : predictions :=
  {| pred_mel_postnet := 1%positive; pred_mel := 2%positive |}.

Definition example_gt : ground_truth :=
  {| gt_mel := 3%positive;
     mel_lengths := [3; 1]%nat;
     audiopath := ["a.wav"; "b.wav"];
     speaker_id_ext := [5; 6]%Z |}.

(** The same batch with the path of the second utterance missing. *)
Definition example_gt_short : ground_truth :=
  {| gt_mel := 3%positive;
     mel_lengths := [3; 1]%nat;
     audiopath := ["a.wav"];
     speaker_id_ext := [5; 6]%Z |}.

Definition example_loss : FESV_AELoss := {| rank := 0; attrs := ∅ |}.

(** An arithmetic for the examples: tensors of dtype [float64], with a
    [mean] that adds from left to right. *)
Definition float_of_nat (n : nat) : float :=
  PrimFloat.of_uint63 (Uint63.of_Z (Z.of_nat n)).

Definition example_dtype : Dtype := {|
  t_add := PrimFloat.add;
  t_sub := PrimFloat.sub;
  t_mul := PrimFloat.mul;
  t_scale := PrimFloat.mul;
  t_abs := PrimFloat.abs;
  t_mean := λ x, (foldl PrimFloat.add 0 x / float_of_nat (length x))%float;
|}.

End LossExample.
(** * Rank-3 tensors of [glow_ax.py]

    A tensor [[B, C, T]] is the list of its [B] samples, a sample the list
    of its [C] channels, a channel the list of its [T] values.  The values
    are real numbers: rounding is not modelled. *)

Module Tensor.

Abbreviation tensor1 := (list R).
Abbreviation tensor2 := (list (list R)).
Abbreviation tensor3 := (list (list (list R))).

(** [x] is a tensor of shape [[B, C, T]]. *)
Definition has_shape2 (C T : nat) (x : tensor2) : Prop :=
  length x = C ∧ Forall (λ r, length r = T) x.
Definition has_shape (B C T : nat) (x : tensor3) : Prop :=
  length x = B ∧ Forall (has_shape2 C T) x.

(** [x.size(2)] *)
Definition size2 (x : tensor3) : nat :=
  match x with
  | (r :: _) :: _ => length r
  | _ => 0
  end.

Definition zeros (B C T : nat) : tensor3 :=
  replicate B (replicate C (replicate T 0%R)).

Definition sum_list (l : list R) : R := foldr Rplus 0%R l.

(** The value at [[i, c, t]]. *)
Definition get3 (x : tensor3) (i c t : nat) : option R :=
  s ← x !! i; r ← s !! c; r !! t.

(** Every value of the tensor satisfies [P]. *)
Definition all3 (P : R → Prop) (x : tensor3) : Prop :=
  Forall (Forall (Forall P)) x.

(** ** Element-wise operations *)

Definition map3 (f : R → R) (x : tensor3) : tensor3 :=
  fmap (M:=list) (fmap (M:=list) (fmap (M:=list) f)) x.

(** Two tensors of one shape combined position by position. *)
Definition combine (f : R → R → R) (a b : tensor3) : tensor3 :=
  zip_with (zip_with (zip_with f)) a b.

(** [a + b], [a * b], ... on rank-3 tensors. *)
Definition pointwise (f : R → R → R) : tensor3 → tensor3 → except tensor3 :=
  broadcast (broadcast (broadcast (λ x y, mret (f x y)))).

Definition sigmoid (x : R) : R := (1 / (1 + exp (- x)))%R.

(** [x[:, a:b, :]] and [x[:, a:, :]] *)
Definition narrow (a b : nat) (x : tensor3) : tensor3 :=
  (λ s, take (b - a) (drop a s)) <$> x.
Definition narrow_from (a : nat) (x : tensor3) : tensor3 :=
  (λ s, drop a s) <$> x.

(** ** [nn.Conv1d] *)

(** The padding modes that the source names (['zeros'], ['replicate']). *)
Inductive padding_mode := PadZeros | PadReplicate.

(** A convolution with its weights as they stand ([weight_norm] only
    changes the way [weight] is stored): [weight] has shape
    [[out_channels, in_channels/groups, kernel_size]], [bias] has
    [out_channels] entries; the stride is 1. *)
Record Conv1d := {
  in_channels : nat;
  out_channels : nat;
  kernel_size : nat;
  dilation : nat;
  padding : nat;
  pad_mode : padding_mode;
  groups : nat;
  weight : tensor3;
  bias : tensor1;
}.

(** [nn.Conv1d(in_channels, out_channels, kernel_size, dilation=...,
    padding=..., padding_mode=..., groups=...)] with the parameters [w]
    and [b]. *)
Definition new_conv1d (in_channels out_channels kernel_size dilation padding : nat)
    (mode : padding_mode) (groups : nat) (w : nat → nat → nat → R)
    (b : nat → R) : except Conv1d :=
  if decide (groups = 0 ∨ in_channels `mod` groups ≠ 0 ∨
             out_channels `mod` groups ≠ 0)
  then raise ValueError else
  mret {| in_channels := in_channels;
          out_channels := out_channels;
          kernel_size := kernel_size;
          dilation := dilation;
          padding := padding;
          pad_mode := mode;
          groups := groups;
          weight :=
            (λ o, (λ c, (λ k, w o c k) <$> seq 0 kernel_size) <$>
                  seq 0 (in_channels `div` groups)) <$> seq 0 out_channels;
          bias := b <$> seq 0 out_channels |}.

(** [padding] values on either side of a channel. *)
Definition pad_channel (mode : padding_mode) (p : nat) (r : tensor1)
    : except tensor1 :=
  match mode with
  | PadZeros => mret (replicate p 0%R ++ r ++ replicate p 0%R)
  | PadReplicate =>
      match r with
      | [] => raise RuntimeError
      | x :: _ => mret (replicate p x ++ r ++ replicate p (List.last r x))
      end
  end.

(** The value of output channel [o] at time [t]: the bias plus the
    products of the kernel of [o] with the input channels of its group,
    read at [t], [t + dilation], ... *)
Definition conv1d_at (m : Conv1d) (xp : tensor2) (o : nat) (w_o : tensor2)
    (t : nat) : R :=
  let c0 := (o `div` (out_channels m `div` groups m))
            * (in_channels m `div` groups m) in
  (nth o (bias m) 0 +
   sum_list (imap (λ c w_c,
     sum_list (imap (λ k w, w * nth (t + k * dilation m) (nth (c0 + c) xp []) 0)
                 w_c)) w_o))%R.

Definition conv1d_sample (m : Conv1d) (x : tensor2) : except tensor2 :=
  if decide (kernel_size m = 0 ∨ dilation m = 0) then raise RuntimeError else
  if decide (length x ≠ in_channels m) then raise RuntimeError else
  xp ← forM (pad_channel (pad_mode m) (padding m)) x;
  let L := match xp with r :: _ => length r | [] => 0 end in
  let span := dilation m * (kernel_size m - 1) + 1 in
  if decide (L < span) then raise RuntimeError else
  mret (imap (λ o w_o, conv1d_at m xp o w_o <$> seq 0 (L - span + 1))
             (weight m)).

(** [m(x)] *)
Definition conv1d (m : Conv1d) (x : tensor3) : except tensor3 :=
  forM (conv1d_sample m) x.

(** [torch.nn.Sequential(m1, m2, ...)], and a single module as the
    sequence of one. *)
Fixpoint sequential (ms : list Conv1d) (x : tensor3) : except tensor3 :=
  match ms with
  | [] => mret x
  | m :: ms => y ← conv1d m x; sequential ms y
  end.

(** ** [nn.Embedding] *)

(** [table[ids]]: a row of the table for every id. *)
Definition embedding (table : tensor2) (ids : list nat) : except tensor2 :=
  forM (py_index table) ids.

(** ** [F.interpolate] on the last axis *)

(** Position [t] of a channel resampled from length [L] to length [size];
    [linear] is with [align_corners=True], as the source asks. *)
Definition interpolate_at (mode : string) (size : nat) (r : tensor1) (t : nat)
    : except R :=
  let L := length r in
  if decide (mode = "nearest") then
    mret (nth (((t * L) `div` size) `min` (L - 1)) r 0%R)
  else if decide (mode = "nearest-exact") then
    mret (nth ((((2 * t + 1) * L) `div` (2 * size)) `min` (L - 1)) r 0%R)
  else if decide (mode = "linear") then
    let i0 := (t * (L - 1)) `div` (size - 1) in
    let i1 := S i0 `min` (L - 1) in
    let lam := (INR ((t * (L - 1)) `mod` (size - 1)) / INR (size - 1))%R in
    mret ((1 - lam) * nth i0 r 0 + lam * nth i1 r 0)%R
  else if decide (mode = "area") then
    let lo := (t * L) `div` size in
    let hi := ((S t) * L + size - 1) `div` size in
    mret (sum_list (take (hi - lo) (drop lo r)) / INR (hi - lo))%R
  else raise NotImplementedError.

Definition interpolate_channel (mode : string) (size : nat) (r : tensor1)
    : except tensor1 :=
  if decide (length r = 0 ∨ size = 0) then raise RuntimeError
  else forM (interpolate_at mode size r) (seq 0 size).

(** [F.interpolate(x, size=size, mode=mode, align_corners=...)] *)
Definition interpolate (mode : string) (size : nat) (x : tensor3)
    : except tensor3 :=
  forM (forM (interpolate_channel mode size)) x.

End Tensor.
(** * [glow_ax.py]: the gate and the non-causal coupling network [WN] *)

(** [fused_add_tanh_sigmoid_multiply(input_a, input_b, n_channels)] *)
Definition fused_add_tanh_sigmoid_multiply (input_a input_b : Tensor.tensor3)
    (n_channels : nat) : except Tensor.tensor3 :=
  in_act ← Tensor.pointwise Rplus input_a input_b;
  let t_act := Tensor.map3 tanh (Tensor.narrow 0 n_channels in_act) in
  let s_act := Tensor.map3 Tensor.sigmoid (Tensor.narrow_from n_channels in_act) in
  acts ← Tensor.pointwise Rmult t_act s_act;
  mret acts.

Module WN.
Import Tensor.

(** An instance of the class, as [__init__] leaves it.  An optional
    attribute ([speaker_embed], [cond_activation_func]) is absent when
    [__init__] did not set it. *)
Record instance := {
  n_layers : nat;
  n_channels : nat;
  speaker_embed_dim : nat;
  merge_res_skip : bool;
  upsample_first : bool;
  upsample_mode : string;
  in_layers : list (list Conv1d);
  res_skip_layers : list Conv1d;
  start : Conv1d;
  end_ : Conv1d;
  speaker_embed : option tensor2;
  cond_out_activation_func : bool;
  cond_layers : list Conv1d;
  cond_activation_func : option (R → R);
}.

(** The arguments of [__init__]. *)
Record config := {
  cfg_n_in_channels : nat;
  cfg_cond_in_channels : nat;
  cfg_cond_layers : nat;
  cfg_cond_hidden_channels : nat;
  cfg_cond_kernel_size : nat;
  cfg_cond_padding_mode : padding_mode;
  cfg_seperable_conv : bool;
  cfg_merge_res_skip : bool;
  cfg_upsample_mode : string;
  cfg_n_layers : nat;
  cfg_n_channels : nat;
  cfg_speaker_embed_dim : nat;
  cfg_rezero : bool;
  cfg_cond_activation_func : string;
  cfg_negative_slope : option R;
  cfg_kernel_size : option nat;
  cfg_kernel_size_w : option nat;
  (** [None], an [int] used for every layer, or a list *)
  cfg_n_layers_dilations_w : option (nat + list nat);
  cfg_res_skip : bool;
  cfg_cond_out_activation_func : bool;
  cfg_upsample_first : bool;
}.

(** The values PyTorch draws for the new parameters, by index. *)
Record initial_weights := {
  w_start : nat → nat → nat → R;
  b_start : nat → R;
  w_speaker_embed : nat → nat → R;
  w_cond : nat → nat → nat → nat → R;
  b_cond : nat → nat → R;
  w_in : nat → nat → nat → nat → R;
  b_in : nat → nat → R;
  w_pointwise : nat → nat → nat → nat → R;
  b_pointwise : nat → nat → R;
  w_res_skip : nat → nat → nat → nat → R;
  b_res_skip : nat → nat → R;
}.

(** [s.lower()] *)
Definition lower_ascii (a : Ascii.ascii) : Ascii.ascii :=
  let n := Ascii.nat_of_ascii a in
  if bool_decide (65 ≤ n ≤ 90) then Ascii.ascii_of_nat (n + 32) else a.
Fixpoint lower (s : string) : string :=
  match s with
  | EmptyString => EmptyString
  | String a s => String (lower_ascii a) (lower s)
  end.

Definition relu (x : R) : R := Rmax 0 x.
Definition leaky_relu (negative_slope x : R) : R :=
  if Rle_dec 0 x then x else (negative_slope * x)%R.

(** The choice of [self.cond_activation_func]; the names ['lrelu'] and
    ['relu'] select what the source selects for them. *)
Definition init_cond_activation_func (name : string)
    (negative_slope : option R) : except (option (R → R)) :=
  let name := lower name in
  if decide (name = "none") then mret None
  else if decide (name = "lrelu") then mret (Some relu)
  else if decide (name = "relu") then
    match negative_slope with
    | Some s =>
        if Req_dec_T s 0 then raise AssertionError
        else mret (Some (leaky_relu s))
    | None => raise AssertionError
    end
  else if decide (name = "tanh") then mret (Some tanh)
  else if decide (name = "sigmoid") then mret (Some sigmoid)
  else raise NotImplementedError.

(** The conditioning stack: [cond_layers] convolutions from
    [cond_in_channels] through [cond_hidden_channels] to
    [2*n_channels*n_layers] channels. *)
Fixpoint init_cond_convs (cfg : config) (w : initial_weights)
    (cond_kernel_size cond_pad : nat) (i : nat) (dims : list (nat * nat))
    : except (list Conv1d) :=
  match dims with
  | [] => mret []
  | (indim, outim) :: dims =>
      cond_layer ← new_conv1d indim outim cond_kernel_size 1 cond_pad
                     (cfg_cond_padding_mode cfg) 1 (w_cond w i) (b_cond w i);
      cond_layers ← init_cond_convs cfg w cond_kernel_size cond_pad (S i) dims;
      mret (cond_layer :: cond_layers)
  end.

Definition init_cond_layers (cfg : config) (w : initial_weights)
    : except (list Conv1d) :=
  let cond_in_channels := cfg_cond_in_channels cfg + cfg_speaker_embed_dim cfg in
  let cond_kernel_size := 2 * cfg_cond_kernel_size cfg - 1 in
  let cond_pad := (cond_kernel_size - 1) `div` 2 in
  let cond_output_channels := 2 * cfg_n_channels cfg * cfg_n_layers cfg in
  let dimensions :=
    [cond_in_channels] ++
    replicate (cfg_cond_layers cfg - 1) (cfg_cond_hidden_channels cfg) ++
    [cond_output_channels] in
  let in_dims := take (length dimensions - 1) dimensions in
  let out_dims := drop 1 dimensions in
  init_cond_convs cfg w cond_kernel_size cond_pad 0 (zip in_dims out_dims).

(** The dilation of layer [i]. *)
Definition init_dilation (cfg : config) (i : nat) : except nat :=
  match cfg_n_layers_dilations_w cfg with
  | None => mret (2 ^ i)
  | Some (inl d) => mret d
  | Some (inr l) => py_index l i
  end.

(** One round of the loop [for i in range(n_layers)] of [__init__]:
    [in_layers[i]] (one convolution, or a depthwise one followed by a
    pointwise one) and, when [res_skip] is set, [res_skip_layers[i]]. *)
Definition init_layer (cfg : config) (w : initial_weights) (kernel_size : nat)
    (i : nat) : except (list Conv1d * list Conv1d) :=
  dilation ← init_dilation cfg i;
  let n_channels := cfg_n_channels cfg in
  let padding := (kernel_size * dilation - dilation) `div` 2 in
  in_layer ←
    (if negb (cfg_seperable_conv cfg) || bool_decide (kernel_size = 1) then
       in_layer ← new_conv1d n_channels (2 * n_channels) kernel_size dilation
                    padding (cfg_cond_padding_mode cfg) 1 (w_in w i) (b_in w i);
       mret [in_layer]
     else
       depthwise ← new_conv1d n_channels n_channels kernel_size dilation
                     padding (cfg_cond_padding_mode cfg) n_channels
                     (w_in w i) (b_in w i);
       pointwise ← new_conv1d n_channels (2 * n_channels) 1 dilation 0
                     PadZeros 1 (w_pointwise w i) (b_pointwise w i);
       mret [depthwise; pointwise]);
  let res_skip_channels :=
    if bool_decide (i + 1 < cfg_n_layers cfg) && negb (cfg_merge_res_skip cfg)
    then 2 * n_channels else n_channels in
  res_skip_layer ←
    (if cfg_res_skip cfg then
       res_skip_layer ← new_conv1d n_channels res_skip_channels 1 1 0
                          PadZeros 1 (w_res_skip w i) (b_res_skip w i);
       mret [res_skip_layer]
     else mret []);
  mret (in_layer, res_skip_layer).

Fixpoint init_layers (cfg : config) (w : initial_weights) (kernel_size : nat)
    (layers : list nat) : except (list (list Conv1d) * list Conv1d) :=
  match layers with
  | [] => mret ([], [])
  | i :: layers =>
      '(in_layer, res_skip_layer) ← init_layer cfg w kernel_size i;
      '(in_layers, res_skip_layers) ← init_layers cfg w kernel_size layers;
      mret (in_layer :: in_layers, res_skip_layer ++ res_skip_layers)
  end.

(** The rows of the speaker embedding table. *)
Definition max_speakers : nat := 512.

(** [WN.__init__], with the parameters of the [end] convolution given:
    [init] below is the constructor, [train] what weight updates may make
    of its result. *)
Definition build (cfg : config) (w : initial_weights)
    (w_end : nat → nat → nat → R) (b_end : nat → R) : except instance :=
  kernel_size ←
    match cfg_kernel_size_w cfg with
    | Some (S k) => mret (S k)
    | _ => match cfg_kernel_size cfg with
           | Some k => mret k
           | None => raise TypeError
           end
    end;
  _ ← py_assert (bool_decide (kernel_size `mod` 2 = 1));
  _ ← py_assert (bool_decide (cfg_n_channels cfg `mod` 2 = 0));
  _ ← py_assert (cfg_res_skip cfg || cfg_merge_res_skip cfg
                 || bool_decide (cfg_n_layers cfg = 1));
  _ ← py_assert (negb (cfg_rezero cfg));
  start ← new_conv1d (cfg_n_in_channels cfg) (cfg_n_channels cfg) 1 1 0
            PadZeros 1 (w_start w) (b_start w);
  end_ ← new_conv1d (cfg_n_channels cfg) (2 * cfg_n_in_channels cfg) 1 1 0
           PadZeros 1 w_end b_end;
  let speaker_embed :=
    if bool_decide (cfg_speaker_embed_dim cfg ≠ 0)
    then Some ((λ i, w_speaker_embed w i <$> seq 0 (cfg_speaker_embed_dim cfg))
               <$> seq 0 max_speakers)
    else None in
  '(cond_layers, cond_activation_func) ←
    (if bool_decide (cfg_cond_layers cfg ≠ 0) then
       cond_layers ← init_cond_layers cfg w;
       f ← init_cond_activation_func (cfg_cond_activation_func cfg)
              (cfg_negative_slope cfg);
       mret (cond_layers, f)
     else mret ([], None));
  '(in_layers, res_skip_layers) ←
    init_layers cfg w kernel_size (seq 0 (cfg_n_layers cfg));
  mret {|
    n_layers := cfg_n_layers cfg;
    n_channels := cfg_n_channels cfg;
    speaker_embed_dim := cfg_speaker_embed_dim cfg;
    merge_res_skip := cfg_merge_res_skip cfg;
    upsample_first := cfg_upsample_first cfg;
    upsample_mode := cfg_upsample_mode cfg;
    in_layers := in_layers;
    res_skip_layers := res_skip_layers;
    start := start;
    end_ := end_;
    speaker_embed := speaker_embed;
    cond_out_activation_func := cfg_cond_out_activation_func cfg;
    cond_layers := cond_layers;
    cond_activation_func := cond_activation_func;
  |}.

(** [WN.__init__]: [end = nn.Conv1d(n_channels, 2*n_in_channels, 1)] is
    followed by [end.weight.data.zero_()] and [end.bias.data.zero_()]. *)
Definition init (cfg : config) (w : initial_weights) : except instance :=
  build cfg w (λ _ _ _, 0%R) (λ _, 0%R).

(** The instance after weight updates that gave [end] the parameters
    [w_end] and [b_end], and the other modules those of [w]. *)
Definition train (cfg : config) (w : initial_weights)
    (w_end : nat → nat → nat → R) (b_end : nat → R) : except instance :=
  build cfg w w_end b_end.

(** ** [forward] *)

(** [_upsample_mels(cond, audio_size)] *)
Definition _upsample_mels (self : instance) (cond : tensor3) (audio : tensor3)
    : except tensor3 :=
  interpolate (upsample_mode self) (size2 audio) cond.

(** The speaker embeddings, repeated along the time axis and appended to
    the channels of [spect]. *)
Definition add_speaker_embeddings (self : instance) (spect : tensor3)
    (speaker_id : option (list nat)) : except tensor3 :=
  match speaker_id with
  | Some ids =>
      if bool_decide (speaker_embed_dim self ≠ 0) then
        table ← (if speaker_embed self is Some t then mret t
                 else raise AttributeError);
        speaker_embeddings ← embedding table ids;
        let speaker_embeddings :=
          fmap (M:=list) (fmap (M:=list) (replicate (size2 spect)))
               speaker_embeddings in
        if decide (length spect = length speaker_embeddings)
        then mret (zip_with app spect speaker_embeddings)
        else raise RuntimeError
      else mret spect
  | None => mret spect
  end.

(** [for i, layer in enumerate(self.cond_layers)] *)
Fixpoint apply_cond_layers (self : instance) (i : nat) (layers : list Conv1d)
    (spect : tensor3) : except tensor3 :=
  match layers with
  | [] => mret spect
  | layer :: layers =>
      spect ← conv1d layer spect;
      let spect :=
        match cond_activation_func self with
        | Some f =>
            if cond_out_activation_func self
               || bool_decide (i ≠ length (cond_layers self) - 1)
            then map3 f spect else spect
        | None => spect
        end in
      apply_cond_layers self (S i) layers spect
  end.

(** The local variables of the loop over the layers; [output] is unbound
    until layer 0 has run. *)
Record locals := {
  l_audio : tensor3;
  l_output : option tensor3;
}.

(** The body of [for i in range(self.n_layers)]. *)
Definition layer (self : instance) (spect : tensor3) (i : nat) (st : locals)
    : except locals :=
  let n := n_channels self in
  let spec := narrow (i * 2 * n) ((i + 1) * 2 * n) spect in
  in_layer ← py_index (in_layers self) i;
  acts ← sequential in_layer (l_audio st);
  acts ← fused_add_tanh_sigmoid_multiply acts spec n;
  res_skip_acts ←
    (if bool_decide (res_skip_layers self ≠ [])
     then (res_skip_layer ← py_index (res_skip_layers self) i;
           conv1d res_skip_layer acts)
     else mret acts);
  if bool_decide (i = 0) then
    if negb (merge_res_skip self) && bool_decide (i + 1 < n_layers self) then
      audio ← pointwise Rplus (l_audio st) (narrow 0 n res_skip_acts);
      mret {| l_audio := audio;
              l_output := Some (narrow_from n res_skip_acts) |}
    else mret {| l_audio := l_audio st; l_output := Some res_skip_acts |}
  else
    output ← (if l_output st is Some o then mret o
              else raise UnboundLocalError);
    if negb (merge_res_skip self) && bool_decide (i + 1 < n_layers self) then
      audio ← pointwise Rplus (l_audio st) (narrow 0 n res_skip_acts);
      output ← pointwise Rplus output (narrow_from n res_skip_acts);
      mret {| l_audio := audio; l_output := Some output |}
    else
      output ← pointwise Rplus output res_skip_acts;
      mret {| l_audio := l_audio st; l_output := Some output |}.

Fixpoint layers (self : instance) (spect : tensor3) (idx : list nat)
    (st : locals) : except locals :=
  match idx with
  | [] => mret st
  | i :: idx => st ← layer self spect i st; layers self spect idx st
  end.

(** [x.chunk(2, 1)] for a tensor of at least two channels. *)
Definition chunk2 (x : tensor3) : tensor3 * tensor3 :=
  let size := match x with s :: _ => (length s + 1) `div` 2 | [] => 0 end in
  (narrow 0 size x, narrow_from size x).

(** [forward(self, audio, spect, speaker_id=None)] *)
Definition forward (self : instance) (audio spect : tensor3)
    (speaker_id : option (list nat)) : except (tensor3 * tensor3) :=
  audio ← conv1d (start self) audio;
  spect ← add_speaker_embeddings self spect speaker_id;
  spect ← apply_cond_layers self 0 (cond_layers self) spect;
  spect ← (if negb (upsample_first self) then
             spect ← _upsample_mels self spect audio;
             _ ← py_assert (bool_decide (size2 audio = size2 spect));
             mret spect
           else mret spect);
  st ← layers self spect (seq 0 (n_layers self))
         {| l_audio := audio; l_output := None |};
  output ← (if l_output st is Some o then mret o
            else raise UnboundLocalError);
  out ← conv1d (end_ self) output;
  mret (chunk2 out).

End WN.
(** * [glow_ax.py]: the causal coupling network [WN_2d]

    [WN_2d.forward] works on rank-4 tensors [[B, C, H, W]] whose dim 2 (the
    "group" axis, of extent [H]) is the causal one.  Every operation of
    [forward] other than the convolutions of [in_layers] acts on each index
    of dim 2 separately, and the queues are cut and joined along dim 2.  A
    rank-4 tensor is therefore held as the list of its [H] slices along
    dim 2; a slice is a block [[B, C, W]].

    The arithmetic inside a slice is PyTorch's and is a parameter
    ([Torch]).  A module of the network is the function it computes:
    - a [(1,1)] convolution ([start], [end], [res_skip_layers[i]]) maps
      each slice by itself;
    - [in_layers[i]], a convolution of kernel height [kernel_size_h],
      height dilation [h_dilate[i]] and no height padding (followed by a
      [(1,1)] convolution when separable), maps the [kernel_size_h] input
      slices under its taps to one output slice.
    All slices of one call share the extent [[B, n_channels, W]];
    mismatches of extent inside a slice are not modelled. *)

Module WN_2d.

Class Torch (Sl Cond Spk : Type) := {
  (** the all-zero slice of the extent of the call *)
  s_zero : Sl;
  s_add : Sl → Sl → Sl;
  s_mul : Sl → Sl → Sl;
  s_tanh : Sl → Sl;
  s_sigmoid : Sl → Sl;
  (** [x[:, a:b]] and [x[:, a:]] on a slice *)
  s_narrow : nat → nat → Sl → Sl;
  s_narrow_from : nat → Sl → Sl;
  (** [x[:, a:b]] on a rank-3 conditioning tensor *)
  c_narrow : nat → nat → Cond → Cond;
  (** [torch.cat([spect, emb.unsqueeze(-1).repeat(1, 1, spect.shape[2])], dim=1)] *)
  c_cat_embeddings : Cond → Cond → Cond;
  (** [F.interpolate(cond, size=audio_size[3], mode=...)] followed by
      [unsqueeze(2)]: the one slice of a tensor of height 1, as wide as
      the audio *)
  c_interpolate : string → Cond → Sl;
  (** [a + c] for a rank-4 [a] and a rank-3 [c] (broadcast from the
      right, so not slice by slice) *)
  add_rank3 : list Sl → Cond → except (list Sl);
}.

Section model.
Context {Sl Cond Spk : Type} `{!Torch Sl Cond Spk}.

(** A tensor that [forward] holds in [spect] or [spec]: rank 4 once
    [unsqueeze(2)] was applied, rank 3 before. *)
Inductive tensor_val :=
  | Rank4 (slices : list Sl)
  | Rank3 (c : Cond).

(** A module of [in_layers]: its kernel height and height dilation, and
    the function from the slices under its taps to the output slice. *)
Record Conv2d := {
  conv_kernel_size_h : nat;
  conv_dilation_h : nat;
  conv_kernel : list Sl → Sl;
}.

(** An instance of the class, as [__init__] leaves it. *)
Record instance := {
  n_layers : nat;
  n_channels : nat;
  kernel_size_h : nat;
  speaker_embed_dim : nat;
  merge_res_skip : bool;
  upsample_first : bool;
  upsample_mode : string;
  in_layers : list Conv2d;
  res_skip_layers : list (Sl → Sl);
  start : Sl → Sl;
  end_ : Sl → Sl;
  speaker_embed : Spk → Cond;
  cond_layers : list (Cond → Cond);
  cond_activation_func : option (Cond → Cond);
  h_dilate : list nat;
  padding_h : list nat;
}.

(** The arguments of [__init__] that decide the fields above, and the
    modules it creates (their weights are PyTorch's initial ones, or those
    loaded later). *)
Record config := {
  cfg_n_layers : nat;
  cfg_n_channels : nat;
  cfg_kernel_size_w : nat;
  cfg_kernel_size_h : nat;
  cfg_speaker_embed_dim : nat;
  cfg_rezero : bool;
  cfg_merge_res_skip : bool;
  cfg_res_skip : bool;
  cfg_upsample_first : bool;
  cfg_upsample_mode : string;
  (** an [int], used for every layer, or a list *)
  cfg_n_layers_dilations_h : nat + list nat;
  new_start : Sl → Sl;
  new_end : Sl → Sl;
  new_speaker_embed : Spk → Cond;
  new_cond_layers : list (Cond → Cond);
  new_cond_activation_func : option (Cond → Cond);
  new_in_layer : nat → list Sl → Sl;
  new_res_skip_layer : nat → Sl → Sl;
}.

(** The loop [for i in range(n_layers)] of [__init__]: it appends
    [(kernel_size_h-1)*dilation_h] to [padding_h] and a convolution of
    kernel height [kernel_size_h] and height dilation [dilation_h] to
    [in_layers]. *)
Fixpoint init_layers (cfg : config) (n_layers_dilations_h : list nat)
    (layers : list nat) : except (list nat * list Conv2d) :=
  match layers with
  | [] => mret ([], [])
  | i :: layers =>
      dilation_h ← py_index n_layers_dilations_h i;
      let padding := (cfg_kernel_size_h cfg - 1) * dilation_h in
      let in_layer := {| conv_kernel_size_h := cfg_kernel_size_h cfg;
                         conv_dilation_h := dilation_h;
                         conv_kernel := new_in_layer cfg i |} in
      '(padding_h, in_layers) ← init_layers cfg n_layers_dilations_h layers;
      mret (padding :: padding_h, in_layer :: in_layers)
  end.

(** [WN_2d.__init__].  The conditioning stack is taken as built. *)
Definition init (cfg : config) : except instance :=
  _ ← py_assert (bool_decide (cfg_kernel_size_w cfg `mod` 2 = 1));
  _ ← py_assert (bool_decide (cfg_n_channels cfg `mod` 2 = 0));
  _ ← py_assert (cfg_res_skip cfg || cfg_merge_res_skip cfg);
  _ ← py_assert (negb (cfg_rezero cfg));
  let n_layers_dilations_h :=
    match cfg_n_layers_dilations_h cfg with
    | inl d => replicate (cfg_n_layers cfg) d
    | inr l => l
    end in
  '(padding_h, in_layers) ←
    init_layers cfg n_layers_dilations_h (seq 0 (cfg_n_layers cfg));
  mret {|
    n_layers := cfg_n_layers cfg;
    n_channels := cfg_n_channels cfg;
    kernel_size_h := cfg_kernel_size_h cfg;
    speaker_embed_dim := cfg_speaker_embed_dim cfg;
    merge_res_skip := cfg_merge_res_skip cfg;
    upsample_first := cfg_upsample_first cfg;
    upsample_mode := cfg_upsample_mode cfg;
    in_layers := in_layers;
    res_skip_layers :=
      if cfg_res_skip cfg
      then new_res_skip_layer cfg <$> seq 0 (cfg_n_layers cfg) else [];
    start := new_start cfg;
    end_ := new_end cfg;
    speaker_embed := new_speaker_embed cfg;
    cond_layers := new_cond_layers cfg;
    cond_activation_func := new_cond_activation_func cfg;
    h_dilate := n_layers_dilations_h;
    padding_h := padding_h;
  |}.

(** ** Tensor operations along dim 2 *)

(** [a + b] (and [a * b]) of two rank-4 tensors: along dim 2 the extents
    are equal, or one of them is 1. *)
Definition broadcast2 (f : Sl → Sl → Sl) (a b : list Sl) : except (list Sl) :=
  if decide (length a = length b) then mret (zip_with f a b)
  else match a, b with
       | [x], _ => mret (f x <$> b)
       | _, [y] => mret ((λ x, f x y) <$> a)
       | _, _ => raise RuntimeError
       end.

(** [a += b]: [b] is broadcast to the extent of [a], which stays. *)
Definition iadd (a b : list Sl) : except (list Sl) :=
  if decide (length b = length a) then mret (zip_with s_add a b)
  else match b with
       | [y] => mret ((λ x, s_add x y) <$> a)
       | _ => raise RuntimeError
       end.

(** [x[:, :, -n:]] *)
Definition last_slices (n : nat) (x : list Sl) : list Sl :=
  drop (length x - n) x.

(** The slices under the taps of a kernel of height [k] and dilation [d]
    placed at the top of [x]. *)
Definition taps (k d : nat) (x : list Sl) : list Sl :=
  omap (λ j, x !! (j * d)) (seq 0 k).

(** A convolution along dim 2 without padding: one output slice for each
    position of the kernel that fits. *)
Definition conv_h (m : Conv2d) (x : list Sl) : except (list Sl) :=
  let k := conv_kernel_size_h m in
  let d := conv_dilation_h m in
  let span := (k - 1) * d + 1 in
  if decide (length x < span) then raise RuntimeError
  else mret ((λ h, conv_kernel m (taps k d (drop h x))) <$>
             seq 0 (length x - span + 1)).

(** [x[:, a:b]] where [x] is [spect]. *)
Definition narrow_val (a b : nat) (x : tensor_val) : tensor_val :=
  match x with
  | Rank4 slices => Rank4 (s_narrow a b <$> slices)
  | Rank3 c => Rank3 (c_narrow a b c)
  end.

(** [fused_add_tanh_sigmoid_multiply(input_a, input_b, n_channels)] on a
    rank-4 [input_a]. *)
Definition fused_add_tanh_sigmoid_multiply (input_a : list Sl)
    (input_b : tensor_val) (n_channels : nat) : except (list Sl) :=
  in_act ← match input_b with
           | Rank4 b => broadcast2 s_add input_a b
           | Rank3 c => add_rank3 input_a c
           end;
  let t_act := (λ x, s_tanh (s_narrow 0 n_channels x)) <$> in_act in
  let s_act := (λ x, s_sigmoid (s_narrow_from n_channels x)) <$> in_act in
  let acts := zip_with s_mul t_act s_act in
  mret acts.

(** ** [forward] *)

Definition queues (A : Type) := option (list (option A)).

(** [(spect_queues is None) or any([x is None for x in spect_queues])] *)
Definition process_spectrograms (spect_queues : queues tensor_val) : bool :=
  match spect_queues with
  | None => true
  | Some l => existsb (λ x, if x is None then true else false) l
  end.

(** What [forward] returns: the bare tensor, or a Python list that starts
    with it and goes on with the queues that were passed. *)
Inductive result :=
  | Tensor (func_out : list Sl)
  | List (func_out : list Sl) (audio_queues : list (option (list Sl)))
         (spect_queues : queues tensor_val).

(** The local variables that the loop over the layers reads and writes;
    [spec] is unbound until first assigned. *)
Record locals := {
  l_audio : list Sl;
  l_output : list Sl;
  l_spec : option tensor_val;
  l_audio_queues : queues (list Sl);
  l_spect_queues : queues tensor_val;
}.

(** The first block of [forward]: speaker embedding, conditioning stack,
    upsampling.  The assertion that ends it compares the width asked of
    [F.interpolate] with the width obtained. *)
Definition cond_stack (self : instance) (spect : Cond)
    (speaker_id : option Spk) : tensor_val :=
  let spect :=
    match speaker_id with
    | Some id =>
        if bool_decide (speaker_embed_dim self ≠ 0)
        then c_cat_embeddings spect (speaker_embed self id) else spect
    | None => spect
    end in
  let spect :=
    foldl (λ spect layer,
             let spect := layer spect in
             match cond_activation_func self with
             | Some f => f spect
             | None => spect
             end) spect (cond_layers self) in
  if negb (upsample_first self)
  then Rank4 [c_interpolate (upsample_mode self) spect]
  else Rank3 spect.

(** The choice of [spec] at layer [i]. *)
Definition select_spec (self : instance) (spect : tensor_val) (i : nat)
    (st : locals) : except locals :=
  if process_spectrograms (l_spect_queues st) then
    let spec := narrow_val (i * 2 * n_channels self)
                  ((i + 1) * 2 * n_channels self) spect in
    mret {| l_audio := l_audio st; l_output := l_output st; l_spec := Some spec;
            l_audio_queues := l_audio_queues st; l_spect_queues := l_spect_queues st |}
  else
    let sq := default [] (l_spect_queues st) in
    q ← py_index sq i;
    match q with
    | None =>
        (* [spect_queues[i] = spec] *)
        match l_spec st with
        | None => raise UnboundLocalError
        | Some spec =>
            mret {| l_audio := l_audio st; l_output := l_output st; l_spec := Some spec;
                    l_audio_queues := l_audio_queues st;
                    l_spect_queues := Some (<[i := Some spec]> sq) |}
        end
    | Some spec =>
        mret {| l_audio := l_audio st; l_output := l_output st; l_spec := Some spec;
                l_audio_queues := l_audio_queues st;
                l_spect_queues := l_spect_queues st |}
    end.

(** The input [audio_cpad] of the convolution of layer [i], and the
    queues after it was formed. *)
Definition causal_input (self : instance) (i : nat) (st : locals)
    : except (list Sl * queues (list Sl)) :=
  padding ← py_index (padding_h self) i;
  match l_audio_queues st with
  | None => mret (replicate padding s_zero ++ l_audio st, None)
  | Some aq =>
      q ← py_index aq i;
      let q := match q with
               | None => replicate padding s_zero
               | Some q => q
               end in
      let audio_cpad := last_slices (padding + 1) (q ++ l_audio st) in
      _ ← py_assert (bool_decide (length audio_cpad = padding + 1));
      mret (audio_cpad, Some (<[i := Some audio_cpad]> aq))
  end.

(** The body of [for i in range(self.n_layers)]. *)
Definition layer (self : instance) (spect : tensor_val) (i : nat)
    (st : locals) : except locals :=
  st ← select_spec self spect i st;
  '(audio_cpad, aq) ← causal_input self i st;
  in_layer ← py_index (in_layers self) i;
  acts ← conv_h in_layer audio_cpad;
  spec_i ← (if l_spec st is Some s then mret s else raise UnboundLocalError);
  acts ← fused_add_tanh_sigmoid_multiply acts spec_i (n_channels self);
  res_skip_acts ←
    (if bool_decide (res_skip_layers self ≠ [])
     then (res_skip_layer ← py_index (res_skip_layers self) i;
           mret (res_skip_layer <$> acts))
     else mret acts);
  let n := n_channels self in
  '(audio', output') ←
    (if bool_decide (i = 0) then
       if negb (merge_res_skip self) && bool_decide (i + 1 < n_layers self) then
         audio' ← iadd (l_audio st) (s_narrow 0 n <$> res_skip_acts);
         mret (audio', s_narrow_from n <$> res_skip_acts)
       else mret (l_audio st, res_skip_acts)
     else
       if negb (merge_res_skip self) && bool_decide (i + 1 < n_layers self) then
         audio' ← iadd (l_audio st) (s_narrow 0 n <$> res_skip_acts);
         output' ← iadd (l_output st) (s_narrow_from n <$> res_skip_acts);
         mret (audio', output')
       else
         output' ← iadd (l_output st) res_skip_acts;
         mret (l_audio st, output'));
  mret {| l_audio := audio'; l_output := output'; l_spec := l_spec st;
          l_audio_queues := aq; l_spect_queues := l_spect_queues st |}.

Fixpoint layers (self : instance) (spect : tensor_val) (idx : list nat)
    (st : locals) : except locals :=
  match idx with
  | [] => mret st
  | i :: idx => st ← layer self spect i st; layers self spect idx st
  end.

(** [forward(self, audio, spect, speaker_id=None, audio_queues=None,
    spect_queues=None)], with [audio] given by its slices along the causal
    axis. *)
Definition forward (self : instance) (audio : list Sl) (spect : Cond)
    (speaker_id : option Spk) (audio_queues : queues (list Sl))
    (spect_queues : queues tensor_val) : except result :=
  let audio := start self <$> audio in
  let output :=
    if merge_res_skip self then audio else (λ _, s_zero) <$> audio in
  let spect :=
    if process_spectrograms spect_queues
    then cond_stack self spect speaker_id else Rank3 spect in
  st ← layers self spect (seq 0 (n_layers self))
         {| l_audio := audio; l_output := output; l_spec := None;
            l_audio_queues := audio_queues; l_spect_queues := spect_queues |};
  let func_out := end_ self <$> l_output st in
  match l_audio_queues st, l_spect_queues st with
  | Some aq, sq => mret (List func_out aq sq)
  | None, Some _ => raise AttributeError
  | None, None => mret (Tensor func_out)
  end.

(** ** Streaming inference

    One slice of the causal axis per call; the queues returned by a call
    are passed to the next. *)
Fixpoint stream (self : instance) (spect : Cond) (speaker_id : option Spk)
    (audio_queues : list (option (list Sl)))
    (spect_queues : queues tensor_val) (steps : list Sl)
    : except (list (list Sl) * list (option (list Sl))) :=
  match steps with
  | [] => mret ([], audio_queues)
  | x :: steps =>
      r ← forward self [x] spect speaker_id (Some audio_queues) spect_queues;
      match r with
      | Tensor _ => raise ValueError
      | List func_out audio_queues spect_queues =>
          '(outs, audio_queues) ←
            stream self spect speaker_id audio_queues spect_queues steps;
          mret (func_out :: outs, audio_queues)
      end
  end.

End model.

Arguments Conv2d : clear implicits.
Arguments tensor_val : clear implicits.
Arguments instance : clear implicits.
Arguments config : clear implicits.
Arguments result : clear implicits.
Arguments locals : clear implicits.

End WN_2d.
(** ** Slices of real numbers

    The slices [[B, C, W]] of a call, with the arithmetic of [Tensor] made
    total (slices of one extent are combined position by position). *)

Module RealSlices.
Import Tensor.

Definition interpolate_to (W : nat) (mode : string) (cond : tensor3) : tensor3 :=
  match interpolate mode W cond with
  | inr x => x
  | inl _ => cond
  end.

(** [x.transpose(0, 1)] on a rank-3 tensor. *)
Definition transpose01 (x : tensor3) : tensor3 :=
  match x with
  | [] => []
  | s :: _ => (λ j, omap (λ s', s' !! j) x) <$> seq 0 (length s)
  end.

(** [a + c] for a rank-4 [a], held by its slices along dim 2, and a
    rank-3 [c].  Broadcasting aligns the shapes from the right: dim 0 of
    [c] meets the channels of [a], dim 1 of [c] meets dim 2 of [a] and
    dim 2 of [c] meets the width; the sum has the batch of [a]. *)
Definition add_rank3 (a : list tensor3) (c : tensor3) : except (list tensor3) :=
  broadcast
    (λ a_h c_h,
       forM (λ a_hb,
               broadcast (broadcast (λ x y, mret (x + y)%R)) a_hb c_h)
            a_h)
    a (transpose01 c).

#[export] Instance torch (B C W : nat)
    : WN_2d.Torch tensor3 tensor3 (list nat) := {|
  WN_2d.s_zero := zeros B C W;
  WN_2d.s_add := combine Rplus;
  WN_2d.s_mul := combine Rmult;
  WN_2d.s_tanh := map3 tanh;
  WN_2d.s_sigmoid := map3 sigmoid;
  WN_2d.s_narrow := narrow;
  WN_2d.s_narrow_from := narrow_from;
  WN_2d.c_narrow := narrow;
  WN_2d.c_cat_embeddings := zip_with app;
  WN_2d.c_interpolate := interpolate_to W;
  WN_2d.add_rank3 := add_rank3;
|}.

(** A network of two layers on slices [[1, 2, 1]]: kernel height 2,
    height dilations 1 and 2; every convolution adds up what it reads. *)
Definition example_config : WN_2d.config tensor3 tensor3 (list nat) := {|
  WN_2d.cfg_n_layers := 2;
  WN_2d.cfg_n_channels := 2;
  WN_2d.cfg_kernel_size_w := 1;
  WN_2d.cfg_kernel_size_h := 2;
  WN_2d.cfg_speaker_embed_dim := 0;
  WN_2d.cfg_rezero := false;
  WN_2d.cfg_merge_res_skip := false;
  WN_2d.cfg_res_skip := true;
  WN_2d.cfg_upsample_first := false;
  WN_2d.cfg_upsample_mode := "nearest";
  WN_2d.cfg_n_layers_dilations_h := inr [1; 2];
  WN_2d.new_start := λ x, (λ s, s ++ s) <$> x;
  WN_2d.new_end := λ x, x;
  WN_2d.new_speaker_embed := λ _, [];
  WN_2d.new_cond_layers := [];
  WN_2d.new_cond_activation_func := None;
  WN_2d.new_in_layer := λ _ ts,
    (λ s, s ++ s) <$> foldr (combine Rplus) (zeros 1 2 1) ts;
  WN_2d.new_res_skip_layer := λ i x,
    if bool_decide (i = 0) then (λ s, s ++ s) <$> x else x;
|}.

Definition example_instance : WN_2d.instance tensor3 tensor3 (list nat) :=
  match WN_2d.init example_config with
  | inr self => self
  | inl _ =>
      {| WN_2d.n_layers := 0; WN_2d.n_channels := 0; WN_2d.kernel_size_h := 0;
         WN_2d.speaker_embed_dim := 0; WN_2d.merge_res_skip := false;
         WN_2d.upsample_first := false; WN_2d.upsample_mode := "";
         WN_2d.in_layers := []; WN_2d.res_skip_layers := [];
         WN_2d.start := λ x, x; WN_2d.end_ := λ x, x;
         WN_2d.speaker_embed := λ _, []; WN_2d.cond_layers := [];
         WN_2d.cond_activation_func := None; WN_2d.h_dilate := [];
         WN_2d.padding_h := [] |}
  end.


(** Three steps of audio [[1, 1, 1]] and a conditioning tensor
    [[1, 8, 1]]. *)
Definition example_audio : list tensor3 :=
  [ [[[1%R]]]; [[[2%R]]]; [[[3%R]]] ].
Definition example_spect : tensor3 :=
  [ [[1%R]; [0%R]; [1%R]; [0%R]; [1%R]; [0%R]; [1%R]; [0%R]] ].


End RealSlices.
(** ** A small [WN]

    Two layers of two channels on one audio channel: kernel size 3,
    dilations 1 and 2, one conditioning convolution of kernel size 1 from
    one conditioning channel; every new weight is 1 and every new bias 0. *)

Module WNExample.
Import Tensor.

Definition example_config : WN.config := {|
  WN.cfg_n_in_channels := 1;
  WN.cfg_cond_in_channels := 1;
  WN.cfg_cond_layers := 1;
  WN.cfg_cond_hidden_channels := 2;
  WN.cfg_cond_kernel_size := 1;
  WN.cfg_cond_padding_mode := PadZeros;
  WN.cfg_seperable_conv := false;
  WN.cfg_merge_res_skip := false;
  WN.cfg_upsample_mode := "nearest";
  WN.cfg_n_layers := 2;
  WN.cfg_n_channels := 2;
  WN.cfg_speaker_embed_dim := 0;
  WN.cfg_rezero := false;
  WN.cfg_cond_activation_func := "none";
  WN.cfg_negative_slope := None;
  WN.cfg_kernel_size := Some 3;
  WN.cfg_kernel_size_w := None;
  WN.cfg_n_layers_dilations_w := None;
  WN.cfg_res_skip := true;
  WN.cfg_cond_out_activation_func := false;
  WN.cfg_upsample_first := false;
|}.

Definition example_weights : WN.initial_weights := {|
  WN.w_start := λ _ _ _, 1%R;
  WN.b_start := λ _, 0%R;
  WN.w_speaker_embed := λ _ _, 1%R;
  WN.w_cond := λ _ _ _ _, 1%R;
  WN.b_cond := λ _ _, 0%R;
  WN.w_in := λ _ _ _ _, 1%R;
  WN.b_in := λ _ _, 0%R;
  WN.w_pointwise := λ _ _ _ _, 1%R;
  WN.b_pointwise := λ _ _, 0%R;
  WN.w_res_skip := λ _ _ _ _, 1%R;
  WN.b_res_skip := λ _ _, 0%R;
|}.

(** The same configuration with a speaker embedding of two dimensions,
    and with no layer at all. *)
Definition example_config_speakers : WN.config := {|
  WN.cfg_n_in_channels := 1;
  WN.cfg_cond_in_channels := 1;
  WN.cfg_cond_layers := 1;
  WN.cfg_cond_hidden_channels := 2;
  WN.cfg_cond_kernel_size := 1;
  WN.cfg_cond_padding_mode := PadZeros;
  WN.cfg_seperable_conv := false;
  WN.cfg_merge_res_skip := false;
  WN.cfg_upsample_mode := "nearest";
  WN.cfg_n_layers := 2;
  WN.cfg_n_channels := 2;
  WN.cfg_speaker_embed_dim := 2;
  WN.cfg_rezero := false;
  WN.cfg_cond_activation_func := "none";
  WN.cfg_negative_slope := None;
  WN.cfg_kernel_size := Some 3;
  WN.cfg_kernel_size_w := None;
  WN.cfg_n_layers_dilations_w := None;
  WN.cfg_res_skip := true;
  WN.cfg_cond_out_activation_func := false;
  WN.cfg_upsample_first := false;
|}.

Definition example_config_no_layers : WN.config := {|
  WN.cfg_n_in_channels := 1;
  WN.cfg_cond_in_channels := 1;
  WN.cfg_cond_layers := 0;
  WN.cfg_cond_hidden_channels := 2;
  WN.cfg_cond_kernel_size := 1;
  WN.cfg_cond_padding_mode := PadZeros;
  WN.cfg_seperable_conv := false;
  WN.cfg_merge_res_skip := false;
  WN.cfg_upsample_mode := "nearest";
  WN.cfg_n_layers := 0;
  WN.cfg_n_channels := 2;
  WN.cfg_speaker_embed_dim := 0;
  WN.cfg_rezero := false;
  WN.cfg_cond_activation_func := "none";
  WN.cfg_negative_slope := None;
  WN.cfg_kernel_size := Some 3;
  WN.cfg_kernel_size_w := None;
  WN.cfg_n_layers_dilations_w := None;
  WN.cfg_res_skip := true;
  WN.cfg_cond_out_activation_func := false;
  WN.cfg_upsample_first := false;
|}.

(** Audio [[1, 1, 3]] and a conditioning tensor [[1, 1, 2]]. *)
Definition example_audio : tensor3 := [[[1%R; 2%R; 3%R]]].
Definition example_spect : tensor3 := [[[1%R; 0%R]]].

End WNExample.

(** * The vocabulary of the properties

    Shapes, well-formed configurations and the tables against which the
    networks are compared. *)

Section tensor_shapes.
Import Tensor.

(** The padded channel, when padding succeeds. *)
Definition padded (mode : padding_mode) (p : nat) (r : tensor1) : tensor1 :=
  match mode with
  | PadZeros => replicate p 0%R ++ r ++ replicate p 0%R
  | PadReplicate =>
      replicate p (hd 0%R r) ++ r ++ replicate p (List.last r (hd 0%R r))
  end.

(** The output length of a convolution of stride 1. *)
Definition conv_length (m : Conv1d) (L : nat) : nat :=
  L + 2 * padding m - dilation m * (kernel_size m - 1).

(** The output of a convolution on one sample, when it returns. *)
Definition conv1d_output (m : Conv1d) (L : nat) (s : tensor2) : tensor2 :=
  imap (λ o w_o,
          conv1d_at m (padded (pad_mode m) (padding m) <$> s) o w_o <$>
          seq 0 (conv_length m L))
       (weight m).

(** A module that takes tensors [[B, C, T]] to tensors [[B, C', T]]. *)
Definition maps_shape (f : tensor3 → except tensor3) (C C' : nat) : Prop :=
  ∀ B T x, 1 ≤ T → has_shape B C T x →
    ∃ y, f x = inr y ∧ has_shape B C' T y.

Definition upsample_modes : list string :=
  ["nearest"; "nearest-exact"; "linear"; "area"].

End tensor_shapes.

Section wn_configurations.
Import Tensor WN.

(** The channels of the conditioning when the layers read it: those the
    stack ends on, or without a stack those it was given. *)
Definition cond_out_channels (cfg : config) : nat :=
  if decide (cfg_cond_layers cfg = 0)
  then cfg_cond_in_channels cfg + cfg_speaker_embed_dim cfg
  else 2 * cfg_n_channels cfg * cfg_n_layers cfg.

(** A configuration that [forward] can run with: at least one input
    channel, one hidden channel and one layer, dilations of at least 1, a
    conditioning that has [2*n_channels] channels for every layer, and an
    upsampling mode for rank-3 tensors. *)
Record valid (cfg : config) : Prop := {
  v_in_channels : 1 ≤ cfg_n_in_channels cfg;
  v_channels : 1 ≤ cfg_n_channels cfg;
  v_layers : 1 ≤ cfg_n_layers cfg;
  v_dilations :
    match cfg_n_layers_dilations_w cfg with
    | None => True
    | Some (inl d) => 1 ≤ d
    | Some (inr l) => Forall (λ d, 1 ≤ d) l
    end;
  v_cond :
    if decide (cfg_cond_layers cfg = 0)
    then 2 * cfg_n_channels cfg * cfg_n_layers cfg ≤
           cfg_cond_in_channels cfg + cfg_speaker_embed_dim cfg
    else 1 ≤ cfg_cond_kernel_size cfg ∧
         1 ≤ cfg_cond_in_channels cfg + cfg_speaker_embed_dim cfg ∧
         (2 ≤ cfg_cond_layers cfg → 1 ≤ cfg_cond_hidden_channels cfg);
  v_upsample :
    cfg_upsample_first cfg = false → cfg_upsample_mode cfg ∈ upsample_modes;
}.

(** An in-layer: its first convolution has an odd kernel and is padded by
    [(kernel_size*dilation - dilation)/2] on each side, and the layer takes
    tensors [[B, n, T]] to tensors [[B, 2n, T]]. *)
Definition in_layer_ok (n : nat) (in_layer : list Conv1d) : Prop :=
  (∃ m rest, in_layer = m :: rest ∧ kernel_size m `mod` 2 = 1 ∧
     padding m = (kernel_size m * dilation m - dilation m) `div` 2) ∧
  maps_shape (sequential in_layer) n (2 * n).

(** The channels of [res_skip_layers[i]]. *)
Definition res_skip_channels (cfg : config) (i : nat) : nat :=
  if bool_decide (i + 1 < cfg_n_layers cfg) && negb (cfg_merge_res_skip cfg)
  then 2 * cfg_n_channels cfg else cfg_n_channels cfg.

(** A convolution of the stack fits the pair [(indim, outim)]. *)
Definition cond_conv_fits (K p : nat) (m : Conv1d) (dims : nat * nat) : Prop :=
  in_channels m = dims.1 ∧ length (weight m) = dims.2 ∧
  kernel_size m = K ∧ dilation m = 1 ∧ padding m = p.

Record built (cfg : config) (w_end : nat → nat → nat → R) (b_end : nat → R)
    (self : instance) : Prop := {
  built_n_layers : n_layers self = cfg_n_layers cfg;
  built_n_channels : n_channels self = cfg_n_channels cfg;
  built_speaker_embed_dim : speaker_embed_dim self = cfg_speaker_embed_dim cfg;
  built_merge_res_skip : merge_res_skip self = cfg_merge_res_skip cfg;
  built_upsample_first : upsample_first self = cfg_upsample_first cfg;
  built_upsample_mode : upsample_mode self = cfg_upsample_mode cfg;
  built_start :
    maps_shape (conv1d (start self)) (cfg_n_in_channels cfg)
      (cfg_n_channels cfg);
  built_end_conv :
    new_conv1d (cfg_n_channels cfg) (2 * cfg_n_in_channels cfg) 1 1 0
      PadZeros 1 w_end b_end = inr (end_ self);
  built_speaker_embed :
    cfg_speaker_embed_dim cfg ≠ 0 →
    ∃ table, speaker_embed self = Some table ∧
             length table = max_speakers ∧
             Forall (λ r, length r = cfg_speaker_embed_dim cfg) table;
  built_cond_layers :
    maps_shape (apply_cond_layers self 0 (cond_layers self))
      (cfg_cond_in_channels cfg + cfg_speaker_embed_dim cfg)
      (cond_out_channels cfg);
  built_in_layers : ∀ i, i < cfg_n_layers cfg →
    ∃ ms, in_layers self !! i = Some ms ∧
          in_layer_ok (cfg_n_channels cfg) ms;
  built_res_skip_layers :
    if cfg_res_skip cfg
    then length (res_skip_layers self) = cfg_n_layers cfg ∧
         ∀ i, i < cfg_n_layers cfg →
           ∃ m, res_skip_layers self !! i = Some m ∧
                maps_shape (conv1d m) (cfg_n_channels cfg)
                  (res_skip_channels cfg i)
    else res_skip_layers self = [] ∧
         (cfg_merge_res_skip cfg = true ∨ cfg_n_layers cfg = 1);
}.

(** The speaker ids that [forward] can look up: one per sample, each below
    [max_speakers], whenever the network embeds speakers. *)
Definition speaker_ok (cfg : config) (B : nat) (speaker_id : option (list nat))
    : Prop :=
  cfg_speaker_embed_dim cfg ≠ 0 →
  ∃ ids, speaker_id = Some ids ∧ length ids = B ∧
         Forall (λ id, id < max_speakers) ids.

End wn_configurations.

Section wn2d_table.
Import WN_2d.
Context {Sl Cond Spk : Type} `{!Torch Sl Cond Spk}.

(** What [__init__] guarantees about the per-layer lists. *)
Record wf (self : instance Sl Cond Spk) : Prop := {
  wf_padding_h : length (padding_h self) = n_layers self;
  wf_in_layers : length (in_layers self) = n_layers self;
  wf_causal : ∀ i m p,
    in_layers self !! i = Some m → padding_h self !! i = Some p →
    p = (conv_kernel_size_h m - 1) * conv_dilation_h m;
  wf_res_skip :
    res_skip_layers self = [] ∨ length (res_skip_layers self) = n_layers self;
}.

Variable self : instance Sl Cond Spk.

(** The conditioning slice (upsampled to the width of the audio), from
    which every layer cuts its own [2*n_channels] channels. *)
Variable c : Sl.

(** The gated activation of one slice. *)
Definition gate (n : nat) (x : Sl) : Sl :=
  s_mul (s_tanh (s_narrow 0 n x)) (s_sigmoid (s_narrow_from n x)).

(** [res_skip_acts] of layer [i] at one index, from the [padding_h[i]+1]
    slices that end there. *)
Definition row_res_skip_acts (i : nat) (win : list Sl) : Sl :=
  match in_layers self !! i with
  | Some m =>
      let n := n_channels self in
      let acts :=
        conv_kernel m (taps (conv_kernel_size_h m) (conv_dilation_h m) win) in
      let acts := gate n (s_add acts (s_narrow (i * 2 * n) ((i + 1) * 2 * n) c)) in
      match res_skip_layers self !! i with
      | Some res_skip_layer => res_skip_layer acts
      | None => acts
      end
  | None => s_zero
  end.

(** Layer [i] splits its [res_skip_acts] into a residual and a skip half. *)
Definition splits (i : nat) : bool :=
  negb (merge_res_skip self) && bool_decide (i + 1 < n_layers self).

Definition row_audio (i : nat) (a r : Sl) : Sl :=
  if splits i then s_add a (s_narrow 0 (n_channels self) r) else a.

Definition row_output (i : nat) (o r : Sl) : Sl :=
  let r := if splits i then s_narrow_from (n_channels self) r else r in
  if bool_decide (i = 0) then r else s_add o r.

(** One layer on all indices at once, from the input [cpad] of its
    convolution. *)
Definition rows_res_skip_acts (i p r : nat) (cpad : list Sl) : list Sl :=
  (λ h, row_res_skip_acts i (take (p + 1) (drop h cpad))) <$> seq 0 r.

(** The padding of layer [j]. *)
Definition pad (j : nat) : nat := default 0 (padding_h self !! j).

(** [audio] and [output] after the first [i] layers of a batch call,
    from their values [x0] before the loop. *)
Fixpoint table (i : nat) (x0 : list Sl * list Sl) : list Sl * list Sl :=
  match i with
  | 0 => x0
  | S i =>
      let A := (table i x0).1 in
      let O := (table i x0).2 in
      let R := rows_res_skip_acts i (pad i) (length A)
                 (replicate (pad i) s_zero ++ A) in
      (zip_with (row_audio i) A R, zip_with (row_output i) O R)
  end.

(** The queue of a layer of padding [p] whose inputs so far were the first
    [h] slices of [A]: still empty before the first step. *)
Definition queue_after (h p : nat) (A : list Sl) : option (list Sl) :=
  if decide (h = 0) then None
  else Some (last_slices (p + 1) (replicate p s_zero ++ take h A)).

(** [audio_queues] during step [h], once the first [i] layers ran. *)
Definition queues_at (x0 : list Sl * list Sl) (h i : nat)
    : list (option (list Sl)) :=
  (λ j, queue_after (if decide (j < i) then S h else h) (pad j)
          (table j x0).1) <$> seq 0 (n_layers self).

(** [audio] and [output] when the loop over the layers starts. *)
Definition before_layers (xs : list Sl) : list Sl * list Sl :=
  (start self <$> xs,
   if merge_res_skip self then start self <$> xs
   else (λ _, s_zero) <$> (start self <$> xs)).

End wn2d_table.

Section heap_effects.
Import Loss.

(** A computation that leaves the heap as it found it, whether it returns
    or raises. *)
Definition read_only {A} (m : run A) : Prop := ∀ h, (m h).2 = h.

End heap_effects.

(** * More vocabulary: batches of the loss *)

Section loss_vocabulary.
Import Loss.
Context {dtype : Dtype}.
Local Open Scope nat_scope.

(** A batch as the data loader collates it: [gt_mel] and the two
    predictions are tensors [[B, n_mel, T]] of the heap, [T] is the length
    of the longest utterance, and every utterance has its length, its
    path and its speaker. *)
Record padded_batch (pred : predictions) (gt : ground_truth) (h : heap)
    (B n_mel T : nat) : Prop := {
  pb_gt_mel : ∃ x, h !! gt_mel gt = Some x ∧ has_shape B n_mel T x;
  pb_pred_mel : ∃ x, h !! pred_mel pred = Some x ∧ has_shape B n_mel T x;
  pb_pred_mel_postnet :
    ∃ x, h !! pred_mel_postnet pred = Some x ∧ has_shape B n_mel T x;
  pb_B : 1 ≤ B;
  pb_n_mel : 1 ≤ n_mel;
  pb_mel_lengths : length (mel_lengths gt) = B;
  pb_longest : foldr Nat.max 0 (mel_lengths gt) = T;
  pb_audiopath : B ≤ length (audiopath gt);
  pb_speaker_id_ext : B ≤ length (speaker_id_ext gt);
}.

(** The heap once the tensor at [l] is masked by the lengths. *)
Definition mask_at (lengths : list nat) (l : loc) (h : heap) : heap :=
  <[l := masked lengths (h !!! l)]> h.

(** The heap once both predictions are masked, the postnet one first. *)
Definition masked_heap (pred : predictions) (gt : ground_truth) (h : heap)
    : heap :=
  mask_at (mel_lengths gt) (pred_mel pred)
    (mask_at (mel_lengths gt) (pred_mel_postnet pred) h).

(** The frames of each utterance: channel after channel, the first
    [lengths[i]] values of each channel. *)
Definition utterance_frames (lengths : list nat) (x : tensor)
    : list (list float) :=
  zip_with (λ s len, concat (take len <$> s)) x lengths.

(** The squared errors of two lists of values, position by position. *)
Definition squared_errors (a b : list float) : list float :=
  zip_with (λ u v, t_mul (t_sub u v) (t_sub u v)) a b.

(** The squared errors over the frames of each utterance. *)
Definition utterance_errors (lengths : list nat) (x y : tensor)
    : list (list float) :=
  zip_with squared_errors (utterance_frames lengths x)
           (utterance_frames lengths y).

(** The first and the last of the rounds [idx] at which [audiopath] is
    [path]. *)
Fixpoint first_round (paths : list string) (path : string) (idx : list nat)
    : option nat :=
  match idx with
  | [] => None
  | i :: idx =>
      if decide (paths !! i = Some path) then Some i
      else first_round paths path idx
  end.
Fixpoint last_round (paths : list string) (path : string) (idx : list nat)
    : option nat :=
  match idx with
  | [] => None
  | i :: idx =>
      match last_round paths path idx with
      | Some j => Some j
      | None => if decide (paths !! i = Some path) then Some i else None
      end
  end.

(** The entry that round [i] of the first loop creates. *)
Definition new_entry (clock : nat → float) (gt : ground_truth) (i : nat)
    : Dict.t scalar :=
  [("speaker_id_ext", Int (default 0%Z (speaker_id_ext gt !! i)));
   ("time", Float (clock i))].

(** The value at [[i, c, t]], and [0.0] outside the tensor. *)
Definition at3 (x : tensor) (i c t : nat) : float :=
  default 0%float (get3 x i c t).

(** The absolute errors frame by frame: for each frame of each utterance
    the row of its [n_mel] values. *)
Definition frame_errors (n_mel : nat) (lengths : list nat) (x y : tensor)
    : list (list float) :=
  concat (imap (λ i len,
                  (λ t, (λ c, t_abs (t_sub (at3 x i c t) (at3 y i c t)))
                        <$> seq 0 n_mel) <$> seq 0 len)
               lengths).

(** The components that [forward] hands to [colate_losses]: the mean
    squared errors over the frames of the utterances, and the
    frame-scaled mean absolute errors, of the prediction and of its
    postnet version against the ground truth. *)
Definition loss_components (n_mel : nat) (lengths : list nat)
    (pred_mel_t pred_mel_postnet_t gt_mel_t : tensor) : Dict.t float :=
  [("spec_MSE",
    t_mean (concat (utterance_errors lengths pred_mel_t gt_mel_t)));
   ("postnet_MSE",
    t_mean (concat (utterance_errors lengths pred_mel_postnet_t gt_mel_t)));
   ("spec_MFSE",
    mean_frame_scaled (frame_errors n_mel lengths pred_mel_t gt_mel_t));
   ("postnet_MFSE",
    mean_frame_scaled
      (frame_errors n_mel lengths pred_mel_postnet_t gt_mel_t))].

(** Two mappings with the same keys in the same order, whose values
    under each key are related by [R]. *)
Definition dict_rel {V} (R : string → V → V → Prop) (d d' : Dict.t V)
    : Prop :=
  Forall2 (λ kv kv', kv.1 = kv'.1 ∧ R kv.1 kv.2 kv'.2) d d'.

(** Per-file diagnostics that differ at most in the times recorded. *)
Definition same_but_time (fl fl' : Dict.t (Dict.t scalar)) : Prop :=
  dict_rel (λ _ e e', dict_rel (λ k v v', k ≠ "time" → v = v') e e') fl fl'.

(** Two computations that raise the same exception, or return values
    related by [R]. *)
Definition except_rel {A} (R : A → A → Prop) (m m' : except A) : Prop :=
  match m, m' with
  | inl e, inl e' => e = e'
  | inr a, inr a' => R a a'
  | _, _ => False
  end.

(** Two results of [forward] that differ at most in the times recorded
    in [file_losses]. *)
Definition same_result_but_time
    (r r' : Dict.t (option float) * list string * Dict.t (Dict.t scalar))
    : Prop :=
  r.1 = r'.1 ∧ same_but_time r.2 r'.2.

End loss_vocabulary.

(** ** More small batches *)

Module LossExample2.
Import Loss LossExample.

(** The batch of [LossExample] with both utterances cut from one file. *)
Definition example_gt_repeated : ground_truth :=
  {| gt_mel := 3%positive;
     mel_lengths := [3; 1]%nat;
     audiopath := ["a.wav"; "a.wav"];
     speaker_id_ext := [5; 6]%Z |}.

End LossExample2.

(** A [spect_queues] for [RealSlices.example_instance] with both entries
    set: one conditioning slice [[1, 4, 1]] per layer. *)
Module RealSlices2.
Import Tensor RealSlices.

Definition example_spect_queues
    : list (option (WN_2d.tensor_val tensor3 tensor3)) :=
  [ Some (WN_2d.Rank4 [ [[[1%R]; [0%R]; [1%R]; [0%R]]] ]);
    Some (WN_2d.Rank4 [ [[[0%R]; [1%R]; [0%R]; [1%R]]] ]) ].

Definition example_other_spect : tensor3 :=
  [ [[0%R]; [2%R]; [0%R]; [2%R]; [0%R]; [2%R]; [0%R]; [2%R]] ].

End RealSlices2.
(** * Properties of [colate_losses] *)

Section dict_facts.
Context {V : Type}.
Implicit Types (d : Dict.t V) (k : string) (v : V).

Lemma dict_get_set_eq k v d : Dict.get k (Dict.set k v d) = Some v.
Proof.
  induction d as [|[k' v'] d IH]; simpl.
  - by rewrite decide_True.
  - destruct (decide (k' = k)) as [->|Hne]; simpl.
    + by rewrite decide_True.
    + by rewrite decide_False.
Qed.

Lemma dict_get_set_ne k k' v d :
  k ≠ k' → Dict.get k (Dict.set k' v d) = Dict.get k d.
Proof.
  intros Hne. induction d as [|[k0 v0] d IH]; simpl.
  - by rewrite decide_False.
  - destruct (decide (k0 = k')) as [->|Hne0]; simpl.
    + by rewrite !decide_False.
    + by rewrite IH.
Qed.

Lemma dict_get_fmap {W} (f : V → W) k d :
  Dict.get k (fmap (M:=list) (λ kv, (kv.1, f kv.2)) d) = f <$> Dict.get k d.
Proof.
  induction d as [|[k0 v0] d IH]; simpl; [done|].
  by destruct (decide (k0 = k)).
Qed.
End dict_facts.

Section colate_facts.
Import Loss.
Open Scope float_scope.
Variables (self : FESV_AELoss) (loss_scalars : gmap string float).

Let w := resolved_weight self loss_scalars.

(** The weight used by one iteration is the resolved weight. *)
Lemma colate_iter_loss st k v :
  cs_loss (colate_iter self loss_scalars st (k, v)) =
    if 0.0 <? w k then
      Some (match cs_loss st with
            | Some l => l + v * w k
            | None => v * w k
            end)
    else cs_loss st.
Proof.
  unfold colate_iter, w, resolved_weight.
  destruct (loss_scalars !! weight_key k) as [w1|]; simpl.
  - by destruct (0.0 <? w1), (cs_loss st).
  - destruct (attrs self !! weight_key k) as [w2|]; simpl.
    + by destruct (0.0 <? w2), (cs_loss st).
    + by destruct (0.0 <? 1.0), (cs_loss st).
Qed.

Lemma colate_iter_out st k v :
  cs_out (colate_iter self loss_scalars st (k, v)) =
    cs_out st ++
    (if weight_missing self loss_scalars k
     then [k +:+ " is missing loss weight"] else []).
Proof.
  unfold colate_iter, weight_missing.
  destruct (loss_scalars !! weight_key k) as [w1|] eqn:E1;
    [|destruct (attrs self !! weight_key k) as [w2|] eqn:E2];
    case_bool_decide; simpl; rewrite ?app_nil_r; naive_solver.
Qed.

(** The loop, started with some terms already added. *)
Lemma colate_loop_some d : ∀ st l,
  cs_loss st = Some l →
  cs_loss (foldl (colate_iter self loss_scalars) st d) =
    Some (foldl PrimFloat.add l (positive_terms self loss_scalars d)).
Proof.
  induction d as [|[k v] d IH]; intros st l Hl; simpl; [done|].
  unfold positive_terms. rewrite filter_cons. simpl. fold w.
  pose proof (colate_iter_loss st k v) as Hit. rewrite Hl in Hit.
  destruct (0.0 <? w k) eqn:Hw.
  - rewrite decide_True by done. simpl. fold w. by apply IH.
  - rewrite decide_False by (by intros ?). by apply IH.
Qed.

(** The loop, started with [loss = None]. *)
Lemma colate_loop_none d : ∀ st,
  cs_loss st = None →
  cs_loss (foldl (colate_iter self loss_scalars) st d) =
    sum_terms (positive_terms self loss_scalars d).
Proof.
  induction d as [|[k v] d IH]; intros st Hl; simpl; [done|].
  unfold positive_terms. rewrite filter_cons. simpl. fold w.
  pose proof (colate_iter_loss st k v) as Hit. rewrite Hl in Hit.
  destruct (0.0 <? w k) eqn:Hw.
  - rewrite decide_True by done. simpl. fold w.
    by apply colate_loop_some.
  - rewrite decide_False by (by intros ?). by apply IH.
Qed.

Lemma colate_loop_out d : ∀ st,
  cs_out (foldl (colate_iter self loss_scalars) st d) =
    cs_out st ++
    fmap (M:=list) (λ kv, kv.1 +:+ " is missing loss weight")
      (filter (λ kv, weight_missing self loss_scalars kv.1 = true) d).
Proof.
  induction d as [|[k v] d IH]; intros st; cbn [foldl].
  - by rewrite filter_nil, app_nil_r.
  - rewrite IH, colate_iter_out, filter_cons. cbn [fst].
    destruct (weight_missing self loss_scalars k) eqn:Hm.
    + rewrite decide_True by done. by rewrite <-app_assoc.
    + rewrite decide_False by (by intros ?). by rewrite app_nil_r.
Qed.
End colate_facts.

Section colate_claims.
Import Loss.
Open Scope float_scope.

(** A weight that is at most zero is not strictly positive (IEEE
    comparison; a NaN is neither). *)
Lemma float_le_0_not_pos (x : float) : (x <=? 0.0) = true → (0.0 <? x) = false.
Proof.
  rewrite leb_spec, ltb_spec. unfold SFleb, SFltb.
  change (Prim2SF 0.0) with (S754_zero false).
  destruct (Prim2SF x) as [s|s| |s m e]; simpl; try done; by destruct s.
Qed.

(** What is stored under ['loss']. *)
Lemma colate_losses_loss (self : FESV_AELoss) (loss_dict : Dict.t float)
    (loss_scalars : gmap string float) :
  Dict.get "loss" (colate_losses self loss_dict loss_scalars None).1 =
    Some (sum_terms (positive_terms self loss_scalars loss_dict)).
Proof.
  unfold colate_losses. cbn [fst]. rewrite dict_get_set_eq. f_equal.
  by apply colate_loop_none.
Qed.

(** C6: [colate_losses] weighs every component by the weight resolved
    from [loss_scalars], then the instance attribute, then [1.0] (with a
    warning printed exactly for the components found in neither place).
    It stores under ['loss'] the sum, in dictionary order, of
    [weight * value] over exactly the components of strictly positive
    weight (the sum of no term being Python's [None]); every other key
    of the returned mapping keeps its value, whatever its weight.  With
    [{'a': 2.0, 'b': 3.0}], [{'a_weight': 0.0}] and no attribute, the
    loss is [3.0] and ['a'] is still [2.0]. *)
Theorem colate_losses_weighted_sum (self : FESV_AELoss)
    (loss_dict : Dict.t float) (loss_scalars : gmap string float) :
  let r := colate_losses self loss_dict loss_scalars None in
  Dict.get "loss" r.1 =
    Some (sum_terms (positive_terms self loss_scalars loss_dict)) ∧
  (∀ k, k ≠ "loss" → Dict.get k r.1 = Some <$> Dict.get k loss_dict) ∧
  r.2 = fmap (M:=list) (λ kv, kv.1 +:+ " is missing loss weight")
          (filter (λ kv, weight_missing self loss_scalars kv.1 = true)
                  loss_dict) ∧
  let ex := colate_losses {| rank := 0; attrs := ∅ |}
              [("a", 2.0); ("b", 3.0)] {[ "a_weight" := 0.0 ]} None in
  Dict.get "loss" ex.1 = Some (Some 3.0) ∧
  Dict.get "a" ex.1 = Some (Some 2.0) ∧
  Dict.get "b" ex.1 = Some (Some 3.0).
Proof.
  cbv zeta. split_and!; [apply colate_losses_loss|..];
    unfold colate_losses; cbn [fst snd].
  - intros k Hk. rewrite dict_get_set_ne by done. apply dict_get_fmap.
  - by rewrite colate_loop_out.
  - by vm_compute.
  - by vm_compute.
  - by vm_compute.
Qed.

(** C10: when every component resolves to a weight that is at most
    [0.0] and [loss] is left at its default [None], [colate_losses]
    returns normally and stores [None], not a zero, under ['loss']. *)
Theorem colate_losses_all_excluded (self : FESV_AELoss)
    (loss_dict : Dict.t float) (loss_scalars : gmap string float) :
  (∀ k v, (k, v) ∈ loss_dict →
          (resolved_weight self loss_scalars k <=? 0.0) = true) →
  Dict.get "loss" (colate_losses self loss_dict loss_scalars None).1 =
    Some None.
Proof.
  intros Hall. rewrite colate_losses_loss. do 2 f_equal.
  unfold positive_terms.
  induction loss_dict as [|[k v] d IH]; [done|].
  rewrite filter_cons. cbn [fst].
  rewrite decide_False.
  - apply IH. intros k' v' Hin. eapply Hall. by right.
  - rewrite (float_le_0_not_pos _ (Hall k v ltac:(left))). done.
Qed.

Lemma colate_losses_all_excluded_witness :
  Dict.get "loss"
    (colate_losses {| rank := 0; attrs := {[ "b_weight" := (-1.5) ]} |}
       [("a", 2.0); ("b", 3.0)] {[ "a_weight" := 0.0 ]} None).1 = Some None.
Proof.
  apply colate_losses_all_excluded.
  intros k v Hin.
  apply list_elem_of_In in Hin. simpl in Hin.
  destruct Hin as [[= <- <-]|[[= <- <-]|[]]]; by vm_compute.
Defined.
End colate_claims.

(** * Properties of [WN_2d] *)

Lemma except_bind_inr {A B} (a : A) (k : A → except B) :
  (inr a : except A) ≫= k = k a.
Proof. done. Qed.

Lemma except_bind_ret {A B} (a : A) (k : A → except B) :
  mret a ≫= k = k a.
Proof. done. Qed.

Lemma except_bind_inl {A B} (e : exn) (k : A → except B) :
  (inl e : except A) ≫= k = inl e.
Proof. done. Qed.

Lemma except_bind_inv {A B} (m : except A) (k : A → except B) (b : B) :
  m ≫= k = inr b → ∃ a, m = inr a ∧ k a = inr b.
Proof. destruct m as [e|a]; [done|]. intros Hk. by exists a. Qed.

(** Run the binds whose first computation has returned. *)
Ltac except_run :=
  repeat first [ rewrite except_bind_inr | rewrite except_bind_ret ];
  cbn beta iota.

Lemma py_index_lookup {A} (l : list A) (i : nat) (a : A) :
  l !! i = Some a → py_index l i = inr a.
Proof. unfold py_index. by intros ->. Qed.

Lemma py_index_inv {A} (l : list A) (i : nat) (a : A) :
  py_index l i = inr a → l !! i = Some a.
Proof. unfold py_index. by destruct (l !! i); intros [=->]. Qed.

Lemma py_assert_inv (c : bool) (u : unit) : py_assert c = inr u → c = true.
Proof. by destruct c. Qed.

Section wn2d_lists.
Import WN_2d.
Context {Sl Cond Spk : Type} `{!Torch Sl Cond Spk}.
Implicit Types (x q : list Sl) (a : Sl) (p h n : nat).

Lemma last_slices_length n x : length (last_slices n x) = n `min` length x.
Proof. unfold last_slices. rewrite length_drop. lia. Qed.

Lemma last_slices_all n x : length x ≤ n → last_slices n x = x.
Proof.
  intros Hle. unfold last_slices.
  by replace (length x - n) with 0 by lia.
Qed.

(** Cutting the queue to [n] slices before a slice is appended does not
    change the last [n] slices afterwards. *)
Lemma last_slices_snoc n x a :
  1 ≤ n → last_slices n (last_slices n x ++ [a]) = last_slices n (x ++ [a]).
Proof.
  intros Hn. unfold last_slices at 1 3.
  rewrite !length_app, last_slices_length. cbn [length].
  destruct (decide (length x ≤ n)) as [Hle|Hgt].
  - rewrite last_slices_all by done.
    by replace (n `min` length x + 1 - n) with (length x + 1 - n) by lia.
  - unfold last_slices.
    rewrite !drop_app_le by (rewrite ?length_drop; lia).
    rewrite drop_drop. do 2 f_equal. lia.
Qed.

(** The last [p+1] slices of the zero padding followed by the first [h+1]
    inputs are the window of the padded input that starts at [h]. *)
Lemma last_slices_window p h x :
  h < length x →
  last_slices (p + 1) (replicate p s_zero ++ take (S h) x) =
    take (p + 1) (drop h (replicate p s_zero ++ x)).
Proof.
  intros Hh. unfold last_slices.
  rewrite length_app, length_replicate, length_take.
  replace (p + S h `min` length x - (p + 1)) with h by lia.
  rewrite take_drop_commute. f_equal.
  rewrite take_app_ge by (rewrite length_replicate; lia).
  rewrite length_replicate. do 2 f_equal. lia.
Qed.

(** The taps of a kernel only read the slices under its span. *)
Lemma taps_take k d n x :
  (k - 1) * d + 1 ≤ n → taps k d (take n x) = taps k d x.
Proof.
  intros Hn. unfold taps.
  apply list_omap_ext. clear -Hn.
  apply Forall2_same_length_lookup_2; [done|].
  intros j j1 j2 H1 H2. rewrite H1 in H2. injection H2 as <-.
  apply lookup_seq in H1 as [-> Hj]. cbn [Nat.add].
  apply lookup_take_lt. nia.
Qed.

Lemma broadcast2_singleton f x a :
  broadcast2 f x [a] = inr ((λ y, f y a) <$> x).
Proof.
  unfold broadcast2. destruct (decide (length x = length [a])) as [Hl|Hl].
  - destruct x as [|y [|??]]; done.
  - destruct x as [|y [|??]]; done.
Qed.

Lemma zip_with_keep_l {A B} (f : A → A) (l : list A) (k : list B) :
  length l ≤ length k → zip_with (λ u _, f u) l k = f <$> l.
Proof.
  revert k. induction l as [|u l IH]; intros [|v k] Hl; cbn in *;
    [done|done|lia|]. f_equal. apply IH. lia.
Qed.

Lemma zip_with_keep_r {A B} (g : B → B) (l : list A) (k : list B) :
  length k ≤ length l → zip_with (λ _ v, g v) l k = g <$> k.
Proof.
  revert k. induction l as [|u l IH]; intros [|v k] Hl; cbn in *;
    [done|lia|done|]. f_equal. apply IH. lia.
Qed.

Lemma iadd_same_length x y :
  length y = length x → iadd x y = inr (zip_with s_add x y).
Proof. intros Hl. unfold iadd. by rewrite decide_True. Qed.

End wn2d_lists.

(** ** The network, one index of the causal axis at a time *)

Section wn2d_rows.
Import WN_2d.
Context {Sl Cond Spk : Type} `{!Torch Sl Cond Spk}.

Lemma init_layers_spec (cfg : config Sl Cond Spk) dils : ∀ idx pads convs,
  init_layers cfg dils idx = inr (pads, convs) →
  length pads = length idx ∧ length convs = length idx ∧
  ∀ j i, idx !! j = Some i →
    ∃ d, dils !! i = Some d ∧
         pads !! j = Some ((cfg_kernel_size_h cfg - 1) * d) ∧
         convs !! j = Some {| conv_kernel_size_h := cfg_kernel_size_h cfg;
                              conv_dilation_h := d;
                              conv_kernel := new_in_layer cfg i |}.
Proof.
  induction idx as [|i idx IH]; intros pads convs Hinit; cbn in Hinit.
  - injection Hinit as <- <-. by split_and!.
  - apply except_bind_inv in Hinit as (d & Hd%py_index_inv & Hinit).
    apply except_bind_inv in Hinit as ([pads' convs'] & Hrec & Hinit).
    injection Hinit as <- <-.
    destruct (IH _ _ Hrec) as (Hl1 & Hl2 & Hj).
    split_and!; [by cbn; f_equal..|].
    intros [|j] i' Hi'; cbn in Hi'.
    + injection Hi' as <-. by exists d.
    + by apply Hj.
Qed.

Lemma init_wf (cfg : config Sl Cond Spk) self : init cfg = inr self → wf self.
Proof.
  unfold init. intros Hinit.
  do 4 (apply except_bind_inv in Hinit as (? & _ & Hinit)).
  apply except_bind_inv in Hinit as ([pads convs] & Hl & Hinit).
  injection Hinit as <-.
  apply init_layers_spec in Hl as (Hl1 & Hl2 & Hj).
  rewrite length_seq in Hl1, Hl2.
  split; cbn; [done..| |].
  - intros i m p Hm Hp.
    assert (i < cfg_n_layers cfg) as Hi
      by (apply lookup_lt_Some in Hm; lia).
    destruct (Hj i i) as (d & _ & Hp' & Hm'); [by apply lookup_seq|].
    rewrite Hp' in Hp. rewrite Hm' in Hm.
    injection Hp as <-. by injection Hm as <-.
  - destruct (cfg_res_skip cfg); [right|by left].
    by rewrite length_fmap, length_seq.
Qed.

Variable self : instance Sl Cond Spk.
Hypothesis self_wf : wf self.

(** The conditioning slice (upsampled to the width of the audio), from
    which every layer cuts its own [2*n_channels] channels. *)
Variable c : Sl.

(** The output of the convolution followed by the gate and the
    res-skip convolution, when [cpad] is [p] slices longer than the
    tensors it is added to. *)
Lemma layer_rows (i : nat) (st : locals Sl Cond) m p cpad aq :
  process_spectrograms (l_spect_queues st) = true →
  in_layers self !! i = Some m →
  padding_h self !! i = Some p →
  causal_input self i
    {| l_audio := l_audio st; l_output := l_output st;
       l_spec := Some (narrow_val (i * 2 * n_channels self)
                         ((i + 1) * 2 * n_channels self) (Rank4 [c]));
       l_audio_queues := l_audio_queues st;
       l_spect_queues := l_spect_queues st |} = inr (cpad, aq) →
  1 ≤ length (l_audio st) →
  length cpad = p + length (l_audio st) →
  length (l_output st) = length (l_audio st) →
  let R := rows_res_skip_acts self c i p (length (l_audio st)) cpad in
  layer self (Rank4 [c]) i st =
    inr {| l_audio := zip_with (row_audio self i) (l_audio st) R;
           l_output := zip_with (row_output self i) (l_output st) R;
           l_spec := Some (narrow_val (i * 2 * n_channels self)
                             ((i + 1) * 2 * n_channels self) (Rank4 [c]));
           l_audio_queues := aq;
           l_spect_queues := l_spect_queues st |}.
Proof.
  intros Hps Hm Hp Hci Hn Hlen Hout R.
  pose proof (wf_causal _ self_wf i m p Hm Hp) as Hspan.
  assert (i < n_layers self) as Hi
    by (apply lookup_lt_Some in Hm; by rewrite (wf_in_layers _ self_wf) in Hm).
  unfold layer, select_spec. rewrite Hps. except_run.
  rewrite Hci. except_run.
  rewrite (py_index_lookup _ _ _ Hm). except_run.
  unfold conv_h. rewrite decide_False by lia. except_run.
  cbn [l_spec l_audio l_output l_spect_queues narrow_val fmap list_fmap].
  except_run. unfold fused_add_tanh_sigmoid_multiply.
  rewrite broadcast2_singleton. except_run.
  rewrite zip_with_fmap_l, zip_with_fmap_r, zip_with_diag, <-!list_fmap_compose.
  replace (length cpad - ((conv_kernel_size_h m - 1) * conv_dilation_h m + 1) + 1)
    with (length (l_audio st)) by lia.
  (* the res-skip convolution, slice by slice *)
  assert ((if bool_decide (res_skip_layers self ≠ [])
           then res_skip_layer ← py_index (res_skip_layers self) i;
                mret (res_skip_layer <$>
                  ((λ x, s_mul (s_tanh (s_narrow 0 (n_channels self) x))
                           (s_sigmoid (s_narrow_from (n_channels self) x))) ∘
                   (λ y, s_add y (s_narrow (i * 2 * n_channels self)
                                    ((i + 1) * 2 * n_channels self) c)) ∘
                   (λ h, conv_kernel m (taps (conv_kernel_size_h m)
                                          (conv_dilation_h m) (drop h cpad))) <$>
                   seq 0 (length (l_audio st))))
           else mret (((λ x, s_mul (s_tanh (s_narrow 0 (n_channels self) x))
                           (s_sigmoid (s_narrow_from (n_channels self) x))) ∘
                   (λ y, s_add y (s_narrow (i * 2 * n_channels self)
                                    ((i + 1) * 2 * n_channels self) c)) ∘
                   (λ h, conv_kernel m (taps (conv_kernel_size_h m)
                                          (conv_dilation_h m) (drop h cpad))) <$>
                   seq 0 (length (l_audio st)))))
          = inr R) as ->.
  { subst R. unfold rows_res_skip_acts, row_res_skip_acts. rewrite Hm.
    case_bool_decide as Hrs.
    - destruct (wf_res_skip _ self_wf) as [?|Hlrs]; [done|].
      destruct (lookup_lt_is_Some_2 (res_skip_layers self) i) as [f Hf];
        [lia|].
      rewrite (py_index_lookup _ _ _ Hf), Hf. except_run.
      rewrite <-list_fmap_compose. f_equal.
      apply list_fmap_ext. intros _ h _. cbn. unfold gate.
      by rewrite taps_take by lia.
    - rewrite Hrs, lookup_nil. f_equal.
      apply list_fmap_ext. intros _ h _. cbn. unfold gate.
      by rewrite taps_take by lia. }
  except_run.
  assert (length R = length (l_audio st)) as HR
    by (subst R; unfold rows_res_skip_acts; by rewrite length_fmap, length_seq).
  clearbody R.
  unfold row_audio, row_output, splits.
  destruct (negb (merge_res_skip self) && bool_decide (i + 1 < n_layers self));
    case_bool_decide; cbn beta iota zeta;
    rewrite ?iadd_same_length by (rewrite ?length_fmap; lia);
    except_run; rewrite ?zip_with_fmap_r; repeat f_equal.
  - by rewrite zip_with_keep_r by lia.
  - by rewrite (zip_with_keep_l (λ u, u)), list_fmap_id by lia.
  - by rewrite (zip_with_keep_r (λ v, v)), list_fmap_id by lia.
  - by rewrite (zip_with_keep_l (λ u, u)), list_fmap_id by lia.
Qed.

(** The input of the convolution in batch mode and in streaming mode. *)
Lemma causal_input_batch i (st : locals Sl Cond) p :
  padding_h self !! i = Some p →
  l_audio_queues st = None →
  causal_input self i st = inr (replicate p s_zero ++ l_audio st, None).
Proof.
  intros Hp Hq. unfold causal_input.
  rewrite (py_index_lookup _ _ _ Hp), Hq. by except_run.
Qed.

Lemma causal_input_stream i (st : locals Sl Cond) p aq q :
  padding_h self !! i = Some p →
  l_audio_queues st = Some aq →
  aq !! i = Some q →
  let q0 := default (replicate p s_zero) q in
  p + 1 ≤ length (q0 ++ l_audio st) →
  causal_input self i st =
    inr (last_slices (p + 1) (q0 ++ l_audio st),
         Some (<[i := Some (last_slices (p + 1) (q0 ++ l_audio st))]> aq)).
Proof.
  intros Hp Hq Hi q0 Hlen. unfold causal_input.
  rewrite (py_index_lookup _ _ _ Hp), Hq. except_run.
  rewrite (py_index_lookup _ _ _ Hi). except_run.
  subst q0. destruct q as [q|]; simpl in Hlen |- *;
  unfold py_assert;
  (rewrite bool_decide_true; [by except_run|]);
  rewrite last_slices_length; lia.
Qed.

Lemma layers_snoc sp idx i (st : locals Sl Cond) :
  layers self sp (idx ++ [i]) st =
    layers self sp idx st ≫= layer self sp i.
Proof.
  revert st. induction idx as [|j idx IH]; intros st; cbn [layers app].
  - rewrite except_bind_ret. by destruct (layer self sp i st).
  - destruct (layer self sp j st) as [e|st']; [done|].
    except_run. apply IH.
Qed.

Lemma table_length i x0 :
  length x0.2 = length x0.1 →
  length (table self c i x0).1 = length x0.1 ∧
  length (table self c i x0).2 = length x0.1.
Proof.
  intros H0. induction i as [|i [IH1 IH2]]; [done|].
  cbn [table fst snd]. unfold rows_res_skip_acts.
  rewrite !length_zip_with, !length_fmap, !length_seq. lia.
Qed.

Lemma pad_lookup i : i < n_layers self → padding_h self !! i = Some (pad self i).
Proof.
  intros Hi. unfold pad.
  destruct (lookup_lt_is_Some_2 (padding_h self) i) as [p ->]; [|done].
  by rewrite (wf_padding_h _ self_wf).
Qed.

(** Batch mode: the loop over the layers computes the table. *)
Lemma layers_batch sq A0 O0 i :
  process_spectrograms sq = true →
  1 ≤ length A0 → length O0 = length A0 →
  i ≤ n_layers self →
  ∃ sp, layers self (Rank4 [c]) (seq 0 i)
          {| l_audio := A0; l_output := O0; l_spec := None;
             l_audio_queues := None; l_spect_queues := sq |} =
        inr {| l_audio := (table self c i (A0, O0)).1;
               l_output := (table self c i (A0, O0)).2;
               l_spec := sp;
               l_audio_queues := None; l_spect_queues := sq |}.
Proof.
  intros Hsq HA HO. induction i as [|i IH]; intros Hi.
  - by eexists.
  - destruct IH as [sp IH]; [lia|].
    rewrite seq_S, layers_snoc, IH. except_run. cbn [Nat.add].
    destruct (table_length i (A0, O0) HO) as [HlA HlO]. cbn [fst] in *.
    destruct (lookup_lt_is_Some_2 (in_layers self) i) as [m Hm];
      [by rewrite (wf_in_layers _ self_wf)|].
    eexists. erewrite layer_rows; [reflexivity|done|exact Hm|
      by apply pad_lookup|by apply causal_input_batch; [apply pad_lookup|]|..];
      cbn [l_audio l_output]; rewrite ?length_app, ?length_replicate;
      first [lia | reflexivity].
Qed.

Lemma queue_after_default h p A :
  default (replicate p s_zero) (queue_after h p A) =
    last_slices (p + 1) (replicate p s_zero ++ take h A).
Proof.
  unfold queue_after. destruct (decide (h = 0)) as [->|]; [|done].
  cbn. rewrite app_nil_r, last_slices_all; [done|].
  rewrite length_replicate. lia.
Qed.

Lemma queues_at_lookup x0 h i j :
  j < n_layers self →
  queues_at self c x0 h i !! j =
    Some (queue_after (if decide (j < i) then S h else h) (pad self j)
            (table self c j x0).1).
Proof.
  intros Hj. unfold queues_at.
  by rewrite list_lookup_fmap, lookup_seq_lt.
Qed.

Lemma queues_at_insert x0 h i :
  i < n_layers self →
  <[i := queue_after (S h) (pad self i) (table self c i x0).1]>
    (queues_at self c x0 h i) =
    queues_at self c x0 h (S i).
Proof.
  intros Hi. apply list_eq. intros j.
  destruct (decide (j < n_layers self)) as [Hj|Hj].
  - rewrite (queues_at_lookup _ _ (S i)) by done.
    destruct (decide (i = j)) as [->|Hne].
    + rewrite list_lookup_insert_eq
        by (unfold queues_at; by rewrite length_fmap, length_seq).
      by rewrite decide_True by lia.
    + rewrite list_lookup_insert_ne, queues_at_lookup by done.
      do 2 f_equal. repeat case_decide; (done || lia).
  - rewrite !lookup_ge_None_2;
      [done|unfold queues_at; rewrite ?length_insert, length_fmap, length_seq; lia..].
Qed.

(** Streaming mode: in step [h], the loop over the layers computes index
    [h] of the table and appends to every queue. *)
Lemma layers_stream sq A0 O0 h a0 o0 i :
  process_spectrograms sq = true →
  length O0 = length A0 →
  A0 !! h = Some a0 → O0 !! h = Some o0 →
  i ≤ n_layers self →
  ∃ sp a o,
    (table self c i (A0, O0)).1 !! h = Some a ∧
    (table self c i (A0, O0)).2 !! h = Some o ∧
    layers self (Rank4 [c]) (seq 0 i)
      {| l_audio := [a0]; l_output := [o0]; l_spec := None;
         l_audio_queues := Some (queues_at self c (A0, O0) h 0);
         l_spect_queues := sq |} =
    inr {| l_audio := [a]; l_output := [o]; l_spec := sp;
           l_audio_queues := Some (queues_at self c (A0, O0) h i);
           l_spect_queues := sq |}.
Proof.
  intros Hsq HO Ha0 Ho0. induction i as [|i IH]; intros Hi.
  - by exists None, a0, o0.
  - destruct IH as (sp & a & o & Ha & Ho & IH); [lia|].
    destruct (table_length i (A0, O0) HO) as [HlA HlO]. cbn [fst] in *.
    assert (h < length A0) as Hh by by eapply lookup_lt_Some.
    destruct (lookup_lt_is_Some_2 (in_layers self) i) as [m Hm];
      [by rewrite (wf_in_layers _ self_wf)|].
    set (A := (table self c i (A0, O0)).1) in *.
    set (p := pad self i).
    set (cpad := last_slices (p + 1) (replicate p s_zero ++ take (S h) A)).
    assert (length cpad = p + 1) as Hcpad.
    { subst cpad. rewrite last_slices_length, length_app, length_replicate,
        length_take. lia. }
    assert (causal_input self i
              {| l_audio := [a]; l_output := [o];
                 l_spec := Some (narrow_val (i * 2 * n_channels self)
                                   ((i + 1) * 2 * n_channels self) (Rank4 [c]));
                 l_audio_queues := Some (queues_at self c (A0, O0) h i);
                 l_spect_queues := sq |} =
            inr (cpad, Some (queues_at self c (A0, O0) h (S i)))) as Hci.
    { erewrite causal_input_stream;
        [|by apply pad_lookup|done|by apply queues_at_lookup|].
      - rewrite decide_False by lia. fold A p.
        rewrite queue_after_default. cbn [l_audio].
        rewrite last_slices_snoc by lia.
        rewrite <-app_assoc, <-(take_S_r _ _ _ Ha). fold cpad.
        do 3 f_equal. rewrite <-queues_at_insert by lia.
        unfold queue_after. by rewrite decide_False by lia.
      - rewrite decide_False by lia. fold A p.
        rewrite queue_after_default. cbn [l_audio].
        rewrite length_app, last_slices_length, length_app, length_replicate,
          length_take. cbn [length]. lia. }
    set (r := row_res_skip_acts self c i
                (take (p + 1) (drop h (replicate p s_zero ++ A)))).
    exists (Some (narrow_val (i * 2 * n_channels self)
                    ((i + 1) * 2 * n_channels self) (Rank4 [c]))),
      (row_audio self i a r), (row_output self i o r).
    assert (rows_res_skip_acts self c i p (length A) (replicate p s_zero ++ A) !! h
            = Some r) as Hr.
    { unfold rows_res_skip_acts.
      rewrite list_lookup_fmap, lookup_seq_lt by lia. done. }
    split_and!.
    + cbn [table fst]. apply lookup_zip_with_Some. eauto.
    + cbn [table snd]. apply lookup_zip_with_Some. eauto.
    + rewrite seq_S, layers_snoc, IH. except_run. cbn [Nat.add].
      erewrite layer_rows; [|done|exact Hm|by apply pad_lookup|exact Hci|
        cbn [l_audio l_output length]; unfold p in *; lia..].
      cbn [l_audio l_output l_spect_queues length].
      unfold rows_res_skip_acts. cbn [seq fmap list_fmap zip_with].
      rewrite drop_0, take_ge by lia. subst cpad r.
      by rewrite last_slices_window by lia.
Qed.

Lemma before_layers_length xs :
  length (before_layers self xs).2 = length (before_layers self xs).1.
Proof.
  unfold before_layers. cbn [fst snd].
  destruct (merge_res_skip self); by rewrite ?length_fmap.
Qed.

Lemma queues_at_first x0 :
  queues_at self c x0 0 0 = replicate (n_layers self) None.
Proof.
  unfold queues_at.
  erewrite const_fmap; [by rewrite length_seq|].
  intros _ j _. rewrite decide_False by lia.
  unfold queue_after. by rewrite decide_True.
Qed.

Lemma queues_at_next x0 h :
  queues_at self c x0 h (n_layers self) = queues_at self c x0 (S h) 0.
Proof.
  unfold queues_at. apply list_fmap_ext. intros k j Hj.
  apply lookup_seq in Hj as [-> Hj]. cbn [Nat.add].
  rewrite decide_True by done. by rewrite decide_False by lia.
Qed.

Section calls.
Variables (spect : Cond) (speaker_id : option Spk).
Hypothesis cond_stack_c : cond_stack self spect speaker_id = Rank4 [c].


(** Step [h] of a streaming session returns index [h] of that column. *)
Lemma forward_stream_step xs h x sq :
  process_spectrograms sq = true →
  xs !! h = Some x →
  ∃ o, (table self c (n_layers self) (before_layers self xs)).2 !! h = Some o ∧
    forward self [x] spect speaker_id
      (Some (queues_at self c (before_layers self xs) h 0)) sq =
    inr (List [end_ self o] (queues_at self c (before_layers self xs) (S h) 0) sq).
Proof.
  intros Hsq Hx. unfold forward. rewrite Hsq, cond_stack_c.
  destruct (layers_stream sq (before_layers self xs).1 (before_layers self xs).2 h
              (start self x)
              (if merge_res_skip self then start self x else s_zero)
              (n_layers self)) as (sp & a & o & Ha & Ho & Hl); [done| | | |done|].
  - apply before_layers_length.
  - unfold before_layers. cbn [fst]. by rewrite list_lookup_fmap, Hx.
  - unfold before_layers. cbn [snd].
    destruct (merge_res_skip self); by rewrite !list_lookup_fmap, Hx.
  - rewrite <-surjective_pairing in Hl, Ho. exists o. split; [done|].
    cbn [fmap list_fmap].
    replace (if merge_res_skip self then [start self x] else [s_zero])
      with [if merge_res_skip self then start self x else s_zero]
      by by destruct (merge_res_skip self).
    rewrite Hl. except_run. cbn [l_output l_audio_queues l_spect_queues].
    by rewrite queues_at_next.
Qed.

(** The rest of a session that has reached step [h]. *)
Lemma stream_from xs sq :
  process_spectrograms sq = true →
  ∀ steps h, h ≤ length xs → drop h xs = steps →
  stream self spect speaker_id (queues_at self c (before_layers self xs) h 0)
    sq steps =
    inr ((λ o, [end_ self o]) <$>
           drop h (table self c (n_layers self) (before_layers self xs)).2,
         queues_at self c (before_layers self xs) (length xs) 0).
Proof.
  intros Hsq.
  pose proof (table_length (n_layers self) (before_layers self xs)
                (before_layers_length xs)) as [_ HlO].
  unfold before_layers in HlO at 2. cbn [fst] in HlO. rewrite length_fmap in HlO.
  induction steps as [|x steps IH]; intros h Hh Hdrop.
  - assert (h = length xs) as ->.
    { apply (f_equal length) in Hdrop. rewrite length_drop in Hdrop.
      cbn in Hdrop. lia. }
    cbn [stream]. rewrite drop_ge by lia. done.
  - assert (xs !! h = Some x) as Hx.
    { rewrite <-(Nat.add_0_r h), <-lookup_drop, Hdrop. done. }
    assert (drop (S h) xs = steps) as Hdrop'.
    { replace (S h) with (h + 1) by lia. by rewrite <-drop_drop, Hdrop. }
    destruct (forward_stream_step xs h x sq Hsq Hx) as (o & Ho & Hf).
    cbn [stream]. rewrite Hf. except_run.
    rewrite (IH (S h)); [|by apply lookup_lt_Some in Hx|done].
    except_run. by rewrite (drop_S _ _ _ Ho).
Qed.

End calls.
End wn2d_rows.

(** ** What a call leaves of the queues it was given *)

Section wn2d_queues.
Import WN_2d.
Context {Sl Cond Spk : Type} `{!Torch Sl Cond Spk}.
Implicit Types (self : instance Sl Cond Spk) (st : locals Sl Cond).

(** While an entry of [spect_queues] is [None] (or no list was passed), a
    layer takes its conditioning from [spect] and leaves [spect_queues]
    alone; it never touches [audio_queues] when none was passed. *)
Lemma layer_queues self sp i st st' :
  layer self sp i st = inr st' →
  (process_spectrograms (l_spect_queues st) = true →
   l_spect_queues st' = l_spect_queues st) ∧
  (is_Some (l_spect_queues st) → is_Some (l_spect_queues st')) ∧
  (l_audio_queues st = None → l_audio_queues st' = None).
Proof.
  unfold layer. intros Hl.
  apply except_bind_inv in Hl as (st1 & Hsel & Hl).
  apply except_bind_inv in Hl as ([cpad aq] & Hci & Hl).
  do 5 (apply except_bind_inv in Hl as (? & _ & Hl)).
  apply except_bind_inv in Hl as ([audio' output'] & _ & Hl).
  injection Hl as <-. cbn [l_spect_queues l_audio_queues].
  assert ((process_spectrograms (l_spect_queues st) = true →
           l_spect_queues st1 = l_spect_queues st) ∧
          (is_Some (l_spect_queues st) → is_Some (l_spect_queues st1)) ∧
          l_audio_queues st1 = l_audio_queues st) as (Hs1 & Hs2 & Ha).
  { unfold select_spec in Hsel.
    destruct (process_spectrograms (l_spect_queues st)).
    - by injection Hsel as <-.
    - apply except_bind_inv in Hsel as (q & _ & Hsel).
      destruct q as [s|]; [by injection Hsel as <-|].
      destruct (l_spec st); [|done]. by injection Hsel as <-. }
  split_and!; [done..|].
  intros Hnone. unfold causal_input in Hci.
  apply except_bind_inv in Hci as (p & _ & Hci).
  rewrite Ha, Hnone in Hci. by injection Hci as _ <-.
Qed.

Lemma layers_queues self sp idx : ∀ st st',
  layers self sp idx st = inr st' →
  (process_spectrograms (l_spect_queues st) = true →
   l_spect_queues st' = l_spect_queues st) ∧
  (is_Some (l_spect_queues st) → is_Some (l_spect_queues st')) ∧
  (l_audio_queues st = None → l_audio_queues st' = None).
Proof.
  induction idx as [|i idx IH]; intros st st' Hl; cbn [layers] in Hl.
  - by injection Hl as <-.
  - apply except_bind_inv in Hl as (st1 & Hl1 & Hl).
    apply layer_queues in Hl1 as (H1 & H2 & H3).
    apply IH in Hl as (H1' & H2' & H3').
    split_and!; [|by auto..].
    intros Hps. rewrite H1', H1; [done..|]. by rewrite H1.
Qed.

End wn2d_queues.

(** ** The claims about [WN_2d] *)

Section wn2d_claims.
Import WN_2d.
Context {Sl Cond Spk : Type} `{!Torch Sl Cond Spk}.

Lemma cond_stack_rank4 (self : instance Sl Cond Spk) spect speaker_id :
  upsample_first self = false →
  ∃ c, cond_stack self spect speaker_id = Rank4 [c].
Proof. intros Hu. unfold cond_stack. rewrite Hu. by eexists. Qed.


(** The window of layer [i] in streaming mode, and the assertion on it. *)
Lemma causal_input_window (self : instance Sl Cond Spk) i
    (st : locals Sl Cond) aq q p :
  l_audio_queues st = Some aq → aq !! i = Some q →
  padding_h self !! i = Some p →
  let audio_cpad :=
    last_slices (p + 1) (default (replicate p s_zero) q ++ l_audio st) in
  causal_input self i st =
    if decide (length audio_cpad = p + 1)
    then inr (audio_cpad, Some (<[i := Some audio_cpad]> aq))
    else inl AssertionError.
Proof.
  intros Haq Hq Hp. unfold causal_input.
  rewrite (py_index_lookup _ _ _ Hp), Haq. except_run.
  rewrite (py_index_lookup _ _ _ Hq). except_run.
  destruct q as [q|]; simpl; unfold py_assert;
    case_decide; by rewrite ?bool_decide_true, ?bool_decide_false by done.
Qed.

(** C2: for every instance that [__init__] builds, layer [i] (of the
    [n_layers] of the configuration) has the causal padding
    [(kernel_size_h - 1) * dilation_h[i]] stored in [padding_h[i]], where
    [dilation_h[i]] is the height dilation that the configuration gives
    the layer.  In streaming mode layer [i] appends the new slices to
    [audio_queues[i]] (the zero tensor of [padding_h[i]] slices when the
    entry is still [None]), keeps the last [padding_h[i] + 1] slices as
    the input of its convolution and as the new queue, and raises
    [AssertionError] unless that input has exactly [padding_h[i] + 1]
    slices.  With one new slice and a queue that is [None] or holds at
    least [padding_h[i]] slices the input is complete; a mismatch makes
    the layer, and [forward], raise [AssertionError].  In a session that
    starts from [[None]*n_layers] and passes one slice per call (on an
    instance that upsamples the conditioning itself) no call raises, and
    after every call each queue holds exactly [padding_h[i] + 1]
    slices. *)
Theorem causal_window (cfg : config Sl Cond Spk)
    (self : instance Sl Cond Spk) :
  init cfg = inr self →
  (n_layers self = cfg_n_layers cfg ∧
   length (padding_h self) = cfg_n_layers cfg ∧
   ∀ i, i < cfg_n_layers cfg →
     ∃ dilation_h,
       match cfg_n_layers_dilations_h cfg with
       | inl d => dilation_h = d
       | inr l => l !! i = Some dilation_h
       end ∧
       h_dilate self !! i = Some dilation_h ∧
       padding_h self !! i =
         Some ((cfg_kernel_size_h cfg - 1) * dilation_h)) ∧
  (∀ i (st : locals Sl Cond) aq q p,
     l_audio_queues st = Some aq → aq !! i = Some q →
     padding_h self !! i = Some p →
     let audio_cpad :=
       last_slices (p + 1) (default (replicate p s_zero) q ++ l_audio st) in
     causal_input self i st =
       if decide (length audio_cpad = p + 1)
       then inr (audio_cpad, Some (<[i := Some audio_cpad]> aq))
       else inl AssertionError) ∧
  (∀ i (st : locals Sl Cond) aq q p x,
     l_audio_queues st = Some aq → aq !! i = Some q →
     padding_h self !! i = Some p →
     l_audio st = [x] →
     (∀ w, q = Some w → p ≤ length w) →
     ∃ audio_cpad,
       causal_input self i st =
         inr (audio_cpad, Some (<[i := Some audio_cpad]> aq)) ∧
       length audio_cpad = p + 1) ∧
  (∀ sp i (st st1 : locals Sl Cond) aq q p,
     l_audio_queues st = Some aq → aq !! i = Some q →
     padding_h self !! i = Some p →
     length (last_slices (p + 1)
               (default (replicate p s_zero) q ++ l_audio st)) ≠ p + 1 →
     select_spec self sp i st = inr st1 →
     layer self sp i st = inl AssertionError) ∧
  (∀ spect speaker_id spect_queues x aq q p,
     process_spectrograms spect_queues = true →
     aq !! 0 = Some q → padding_h self !! 0 = Some p →
     length (last_slices (p + 1)
               (default (replicate p s_zero) q ++ (start self <$> x))) ≠ p + 1 →
     forward self x spect speaker_id (Some aq) spect_queues =
       inl AssertionError) ∧
  (∀ spect speaker_id spect_queues audio,
     upsample_first self = false →
     process_spectrograms spect_queues = true →
     audio ≠ [] →
     ∃ outs audio_queues,
       stream self spect speaker_id (replicate (n_layers self) None)
         spect_queues audio = inr (outs, audio_queues) ∧
       ∀ i p, padding_h self !! i = Some p →
         ∃ q, audio_queues !! i = Some (Some q) ∧ length q = p + 1).
Proof.
  intros Hinit. pose proof (init_wf _ _ Hinit) as Hwf.
  split; [|split_and!].
  - unfold init in Hinit.
    do 4 (apply except_bind_inv in Hinit as (? & _ & Hinit)).
    apply except_bind_inv in Hinit as ([pads convs] & Hl & Hinit).
    injection Hinit as <-. cbn in *.
    apply init_layers_spec in Hl as (Hlen & _ & Hj).
    rewrite length_seq in Hlen. split_and!; [done..|].
    intros i Hi.
    destruct (Hj i i) as (d & Hd & Hp & _); [by apply lookup_seq|].
    exists d. split_and!; [|done..].
    destruct (cfg_n_layers_dilations_h cfg) as [d0|l]; [|done].
    apply lookup_replicate in Hd as [-> _]. done.
  - intros i st aq q p. apply causal_input_window.
  - intros i st aq q p x Haq Hq Hp Hx Hw.
    rewrite (causal_input_window self i st aq q p Haq Hq Hp). cbv zeta.
    assert (length (last_slices (p + 1)
                      (default (replicate p s_zero) q ++ l_audio st)) = p + 1)
      as Hlen.
    { rewrite last_slices_length, length_app, Hx. cbn [length].
      destruct q as [w|].
      - specialize (Hw w eq_refl).
        change (default (replicate p s_zero) (Some w)) with w. lia.
      - change (default (replicate p s_zero) None) with (replicate p s_zero).
        rewrite length_replicate. lia. }
    rewrite decide_True by done. by eexists.
  - intros sp i st st1 aq q p Haq Hq Hp Hlen Hsel. unfold layer.
    rewrite Hsel. except_run.
    assert (l_audio st1 = l_audio st ∧ l_audio_queues st1 = l_audio_queues st)
      as [Ha1 Hq1].
    { unfold select_spec in Hsel.
      destruct (process_spectrograms (l_spect_queues st)).
      - by injection Hsel as <-.
      - apply except_bind_inv in Hsel as (s & _ & Hsel).
        destruct s as [s|]; [by injection Hsel as <-|].
        destruct (l_spec st); [|done]. by injection Hsel as <-. }
    rewrite (causal_input_window self i st1 aq q p); [|congruence|done..].
    cbv zeta. rewrite Ha1. by rewrite decide_False.
  - intros spect speaker_id spect_queues x aq q p Hsq Hq Hp Hlen.
    unfold forward. rewrite Hsq.
    destruct (n_layers self) as [|n] eqn:Hn.
    { apply lookup_lt_Some in Hp. rewrite (wf_padding_h _ Hwf) in Hp. lia. }
    cbn [seq layers]. unfold layer at 1, select_spec. cbn [l_spect_queues].
    rewrite Hsq. except_run.
    erewrite causal_input_window; [|done..]. cbn [l_audio].
    by rewrite decide_False.
  - intros spect speaker_id spect_queues audio Hup Hsq Haudio.
    destruct (cond_stack_rank4 self spect speaker_id Hup) as [c Hc].
    eexists _, _. split.
    + rewrite <-(queues_at_first self c (before_layers self audio)).
      by apply (stream_from self Hwf c spect speaker_id Hc audio
                  spect_queues Hsq audio 0); [lia|].
    + intros i p Hp.
      assert (i < n_layers self) as Hi
        by (apply lookup_lt_Some in Hp; by rewrite (wf_padding_h _ Hwf) in Hp).
      rewrite queues_at_lookup by done. rewrite decide_False by lia.
      unfold queue_after. destruct audio as [|x audio]; [done|].
      rewrite decide_False by done. eexists. split; [done|].
      pose proof (table_length self c i (before_layers self (x :: audio))
                    (before_layers_length self _)) as [Hl _].
      unfold before_layers in Hl at 2. cbn [fst] in Hl.
      rewrite length_fmap in Hl.
      unfold pad. rewrite Hp. change (default 0 (Some p)) with p.
      rewrite last_slices_length, length_app, length_replicate, length_take, Hl.
      cbn [length]. lia.
Qed.

(** Whatever the instance and the tensors: a call that is given
    [spect_queues] with an entry still [None] returns, if it returns, the
    list it was given. *)
Lemma forward_spect_queues_unchanged (self : instance Sl Cond Spk) audio
    spect speaker_id audio_queues spect_queues r :
  process_spectrograms (Some spect_queues) = true →
  forward self audio spect speaker_id audio_queues (Some spect_queues) = inr r →
  ∃ func_out audio_queues', r = List func_out audio_queues' (Some spect_queues).
Proof.
  intros Hsq. unfold forward. intros Hf.
  apply except_bind_inv in Hf as (st & Hl & Hf).
  apply layers_queues in Hl as (Hq & _ & _). cbn [l_spect_queues] in Hq.
  rewrite Hq in Hf by done.
  destruct (l_audio_queues st); [|done]. injection Hf as <-. by eexists _, _.
Qed.

(** C3 (the code does not do this): the first streaming call of a
    session, given [spect_queues = [None]*n_layers], returns normally and
    returns [spect_queues] with every entry still [None].  The assignment
    [spect_queues[i] = spec] sits in the branch taken only when no entry
    is [None], so no conditioning slice is ever cached and every call
    recomputes the conditioning stack. *)
Theorem spect_queues_stay_empty (cfg : config Sl Cond Spk)
    (self : instance Sl Cond Spk) (spect : Cond) (speaker_id : option Spk)
    (x : Sl) :
  init cfg = inr self →
  upsample_first self = false →
  1 ≤ n_layers self →
  ∃ func_out audio_queues,
    forward self [x] spect speaker_id
      (Some (replicate (n_layers self) None))
      (Some (replicate (n_layers self) None)) =
    inr (List func_out audio_queues (Some (replicate (n_layers self) None))).
Proof.
  intros Hinit%init_wf Hup Hn.
  destruct (cond_stack_rank4 self spect speaker_id Hup) as [c Hc].
  destruct (forward_stream_step self Hinit c spect speaker_id Hc [x] 0 x
              (Some (replicate (n_layers self) None))) as (o & _ & Hf);
    [|done|].
  - destruct (n_layers self); [lia|done].
  - rewrite queues_at_first in Hf. by eexists _, _.
Qed.

(** C4 (the code does not do this): a call that is given [spect_queues]
    but no [audio_queues] never returns.  When the layers run through (an
    instance built by [__init__] that upsamples the conditioning itself,
    at least one slice of audio, an entry of [spect_queues] still [None])
    it raises [AttributeError]: [func_out] is wrapped in a list only under
    [audio_queues is not None], and [func_out.append(spect_queues)] is
    then applied to the tensor. *)
Theorem forward_spect_queues_only (self : instance Sl Cond Spk)
    (audio : list Sl) (spect : Cond) (speaker_id : option Spk)
    (spect_queues : list (option (tensor_val Sl Cond))) :
  (∃ e, forward self audio spect speaker_id None (Some spect_queues) = inl e) ∧
  ∀ cfg : config Sl Cond Spk,
    init cfg = inr self →
    upsample_first self = false →
    process_spectrograms (Some spect_queues) = true →
    audio ≠ [] →
    forward self audio spect speaker_id None (Some spect_queues) =
      inl AttributeError.
Proof.
  split.
  - unfold forward.
    match goal with |- ∃ e, ?m ≫= _ = _ => destruct m as [e|st] eqn:Hl end;
      [by exists e|].
    apply layers_queues in Hl as (_ & Hs & Ha). cbn in Hs, Ha.
    except_run. rewrite Ha by done.
    destruct Hs as [sq ->]; [done|]. by eexists.
  - intros cfg Hinit%init_wf Hup Hsq Haudio.
    destruct (cond_stack_rank4 self spect speaker_id Hup) as [c Hc].
    unfold forward. rewrite Hsq, Hc.
    destruct (layers_batch self Hinit c (Some spect_queues)
                (before_layers self audio).1 (before_layers self audio).2
                (n_layers self)) as [sp Hl]; [done| | |done|].
    + unfold before_layers. cbn [fst]. rewrite length_fmap.
      destruct audio; [done|cbn; lia].
    + apply before_layers_length.
    + unfold before_layers in Hl at 1 2. cbn [fst snd] in Hl.
      rewrite Hl. by except_run.
Qed.

End wn2d_claims.

Section wn2d_witnesses.
Import WN_2d.



Lemma causal_window_witness :
  (∀ i, i < 2 →
     ∃ dilation_h,
       [1; 2] !! i = Some dilation_h ∧
       padding_h RealSlices.example_instance !! i =
         Some ((2 - 1) * dilation_h)) ∧
  ∃ outs audio_queues,
    stream (Torch0:=RealSlices.torch 1 2 1)
      RealSlices.example_instance RealSlices.example_spect None
      (replicate (n_layers RealSlices.example_instance) None) None
      RealSlices.example_audio = inr (outs, audio_queues) ∧
    ∀ i p, padding_h RealSlices.example_instance !! i = Some p →
      ∃ q, audio_queues !! i = Some (Some q) ∧ length q = p + 1.
Proof.
  destruct (causal_window (Torch0:=RealSlices.torch 1 2 1)
              RealSlices.example_config RealSlices.example_instance)
    as ((_ & _ & H1) & _ & _ & _ & _ & H6); [reflexivity|].
  split.
  - intros i Hi. destruct (H1 i Hi) as (d & Hd & _ & Hp). by exists d.
  - apply (H6 RealSlices.example_spect None None RealSlices.example_audio);
      [reflexivity|reflexivity|discriminate].
Defined.

Lemma spect_queues_stay_empty_witness :
  ∃ func_out audio_queues,
    forward (Torch0:=RealSlices.torch 1 2 1) RealSlices.example_instance
      [ [[[1%R]]] ] RealSlices.example_spect None
      (Some [None; None]) (Some [None; None]) =
    inr (List func_out audio_queues (Some [None; None])).
Proof.
  apply (spect_queues_stay_empty (Torch0:=RealSlices.torch 1 2 1)
           RealSlices.example_config RealSlices.example_instance);
    [reflexivity|reflexivity|apply le_S, le_n].
Defined.

Lemma forward_spect_queues_only_witness :
  forward (Torch0:=RealSlices.torch 1 2 1) RealSlices.example_instance
    RealSlices.example_audio RealSlices.example_spect None None
    (Some [None; None]) = inl AttributeError.
Proof.
  apply (proj2 (forward_spect_queues_only (Torch0:=RealSlices.torch 1 2 1)
                  RealSlices.example_instance RealSlices.example_audio
                  RealSlices.example_spect None [None; None])
           RealSlices.example_config);
    [reflexivity|reflexivity|reflexivity|discriminate].
Defined.

End wn2d_witnesses.

(** * Properties of the rank-3 tensor operations *)

(** Linear arithmetic once the facts about the contents of lists are
    set aside. *)
Ltac len_lia :=
  cbn beta in *;
  repeat match goal with
         | H : ?P |- _ =>
             lazymatch P with context [Forall _ _] => clear H end
         end;
  lia.

Section tensor_facts.
Import Tensor.
Implicit Types (x y : tensor3) (B C T : nat).

Lemma forM_inr {U V} (f : U → except V) (g : U → V) (a : list U) :
  Forall (λ u, f u = inr (g u)) a → forM f a = inr (g <$> a).
Proof.
  induction 1 as [|u a Hu _ IH]; [done|].
  cbn [forM]. rewrite Hu. except_run. rewrite IH. by except_run.
Qed.

Lemma zipM_inr {U V W} (f : U → V → except W) (g : U → V → W)
    (P : U → Prop) (Q : V → Prop) (a : list U) (b : list V) :
  (∀ u v, P u → Q v → f u v = inr (g u v)) →
  Forall P a → Forall Q b →
  zipM f a b = inr (zip_with g a b).
Proof.
  intros Hf Ha. revert b. induction Ha as [|u a Hu _ IH]; intros b Hb.
  - by destruct b.
  - destruct Hb as [|v b Hv Hb]; [done|].
    cbn [zipM zip_with]. rewrite (Hf u v Hu Hv). except_run.
    rewrite (IH b Hb). by except_run.
Qed.

Lemma broadcast_same_length {U V W} (f : U → V → except W) (g : U → V → W)
    (P : U → Prop) (Q : V → Prop) (a : list U) (b : list V) :
  (∀ u v, P u → Q v → f u v = inr (g u v)) →
  length a = length b → Forall P a → Forall Q b →
  broadcast f a b = inr (zip_with g a b).
Proof.
  intros Hf Hl Ha Hb. unfold broadcast. rewrite decide_True by done.
  by eapply zipM_inr.
Qed.

(** On tensors of one shape an element-wise operation works position by
    position. *)
Lemma pointwise_same_shape (f : R → R → R) B C T x y :
  has_shape B C T x → has_shape B C T y →
  pointwise f x y = inr (combine f x y).
Proof.
  intros [HxB Hx] [HyB Hy]. unfold pointwise, combine.
  eapply broadcast_same_length; [|congruence|exact Hx|exact Hy].
  intros s1 s2 [Hs1 Hr1] [Hs2 Hr2].
  eapply broadcast_same_length; [|congruence|exact Hr1|exact Hr2].
  intros r1 r2 Hl1 Hl2.
  eapply (broadcast_same_length _ _ (λ _, True) (λ _, True));
    [done|congruence|by apply Forall_true..].
Qed.

Lemma has_shape_combine (f : R → R → R) B C T x y :
  has_shape B C T x → has_shape B C T y → has_shape B C T (combine f x y).
Proof.
  intros [HxB Hx] [HyB Hy]. unfold combine. split.
  - rewrite length_zip_with. lia.
  - eapply Forall_zip_with_fst; [exact Hx|].
    eapply Forall_impl; [exact Hy|]. intros s2 [Hs2 Hr2] s1 [Hs1 Hr1]. split.
    + rewrite length_zip_with. len_lia.
    + eapply Forall_zip_with_fst; [exact Hr1|].
      eapply Forall_impl; [exact Hr2|]. intros r2 Hl2 r1 Hl1.
      rewrite length_zip_with. len_lia.
Qed.

Lemma has_shape_map3 (f : R → R) B C T x :
  has_shape B C T x → has_shape B C T (map3 f x).
Proof.
  intros [HxB Hx]. unfold map3. split; [by rewrite length_fmap|].
  apply Forall_fmap. eapply Forall_impl; [exact Hx|]. intros s [Hs Hr].
  split; [by rewrite length_fmap|]. cbn.
  apply Forall_fmap. eapply Forall_impl; [exact Hr|]. intros r Hl.
  cbn. by rewrite length_fmap.
Qed.

Lemma has_shape_narrow a b B C T x :
  has_shape B C T x → b ≤ C → has_shape B (b - a) T (narrow a b x).
Proof.
  intros [HxB Hx] Hb. unfold narrow. split; [by rewrite length_fmap|].
  apply Forall_fmap. eapply Forall_impl; [exact Hx|]. intros s [Hs Hr].
  split; cbn.
  - rewrite length_take, length_drop. lia.
  - by apply Forall_take, Forall_drop.
Qed.

Lemma has_shape_narrow_from a B C T x :
  has_shape B C T x → has_shape B (C - a) T (narrow_from a x).
Proof.
  intros [HxB Hx]. unfold narrow_from. split; [by rewrite length_fmap|].
  apply Forall_fmap. eapply Forall_impl; [exact Hx|]. intros s [Hs Hr].
  split; cbn.
  - by rewrite length_drop, Hs.
  - by apply Forall_drop.
Qed.

Lemma get3_combine (f : R → R → R) x y i c t :
  get3 (combine f x y) i c t =
    u ← get3 x i c t; v ← get3 y i c t; Some (f u v).
Proof.
  unfold get3, combine. rewrite lookup_zip_with.
  destruct (x !! i) as [s1|]; [|done]. cbn.
  destruct (y !! i) as [s2|]; cbn; [|by destruct (s1 !! c ≫= _)].
  rewrite lookup_zip_with.
  destruct (s1 !! c) as [r1|]; [|done]. cbn.
  destruct (s2 !! c) as [r2|]; cbn; [|by destruct (r1 !! t)].
  by rewrite lookup_zip_with.
Qed.

Lemma get3_map3 (f : R → R) x i c t :
  get3 (map3 f x) i c t = f <$> get3 x i c t.
Proof.
  unfold get3, map3. rewrite list_lookup_fmap.
  destruct (x !! i) as [s|]; [|done]. cbn. rewrite list_lookup_fmap.
  destruct (s !! c) as [r|]; [|done]. cbn. by rewrite list_lookup_fmap.
Qed.

Lemma get3_narrow a b x i c t :
  c < b - a → get3 (narrow a b x) i c t = get3 x i (a + c) t.
Proof.
  intros Hc. unfold get3, narrow. rewrite list_lookup_fmap.
  destruct (x !! i) as [s|]; [|done]. cbn.
  by rewrite lookup_take_lt, lookup_drop by done.
Qed.

Lemma get3_narrow_from a x i c t :
  get3 (narrow_from a x) i c t = get3 x i (a + c) t.
Proof.
  unfold get3, narrow_from. rewrite list_lookup_fmap.
  destruct (x !! i) as [s|]; [|done]. cbn. by rewrite lookup_drop.
Qed.

(** ** The two halves of the gate are bounded *)

Lemma tanh_bound (u : R) : (Rabs (tanh u) <= 1)%R.
Proof.
  unfold tanh, sinh, cosh.
  pose proof (exp_pos u) as Hp. pose proof (exp_pos (- u)) as Hn.
  replace ((exp u - exp (- u)) / 2 / ((exp u + exp (- u)) / 2))%R
    with ((exp u - exp (- u)) / (exp u + exp (- u)))%R by (field; lra).
  apply Rabs_le. split.
  - apply Rle_trans with ((- (exp u + exp (- u))) / (exp u + exp (- u)))%R.
    + right. field. lra.
    + apply Rmult_le_compat_r; [|lra].
      left. apply Rinv_0_lt_compat. lra.
  - apply Rle_trans with ((exp u + exp (- u)) / (exp u + exp (- u)))%R.
    + apply Rmult_le_compat_r; [|lra].
      left. apply Rinv_0_lt_compat. lra.
    + right. field. lra.
Qed.

Lemma sigmoid_bound (u : R) : (0 <= sigmoid u <= 1)%R.
Proof.
  unfold sigmoid. pose proof (exp_pos (- u)) as Hn.
  assert (0 < / (1 + exp (- u)))%R as Hinv
    by (apply Rinv_0_lt_compat; lra).
  split.
  - unfold Rdiv. rewrite Rmult_1_l. lra.
  - apply Rle_trans with ((1 + exp (- u)) / (1 + exp (- u)))%R.
    + apply Rmult_le_compat_r; lra.
    + right. field. lra.
Qed.

Lemma gate_bound (u v : R) : (Rabs (tanh u * sigmoid v) <= 1)%R.
Proof.
  rewrite Rabs_mult.
  pose proof (tanh_bound u) as Ht. pose proof (sigmoid_bound v) as Hs.
  rewrite (Rabs_right (sigmoid v)) by lra.
  pose proof (Rabs_pos (tanh u)) as H0.
  apply Rle_trans with (1 * 1)%R; [|lra].
  apply Rmult_le_compat; lra.
Qed.

Lemma all3_gate x y :
  all3 (λ v, (Rabs v <= 1)%R)
    (combine Rmult (map3 tanh x) (map3 sigmoid y)).
Proof.
  unfold all3, combine, map3. revert y.
  induction x as [|s1 x IHx]; intros [|s2 y]; cbn; [done..|].
  constructor; [|apply IHx]. clear.
  revert s2. induction s1 as [|r1 s1 IHs]; intros [|r2 s2]; cbn; [done..|].
  constructor; [|apply IHs]. clear.
  revert r2. induction r1 as [|u r1 IHr]; intros [|v r2]; cbn; [done..|].
  constructor; [apply gate_bound|apply IHr].
Qed.

(** ** Convolutions *)

Lemma new_conv1d_inv I O K d p mode g w b m :
  new_conv1d I O K d p mode g w b = inr m →
  in_channels m = I ∧ out_channels m = O ∧ kernel_size m = K ∧
  dilation m = d ∧ padding m = p ∧ pad_mode m = mode ∧
  length (weight m) = O ∧
  weight m = (λ o, (λ c, (λ k, w o c k) <$> seq 0 K) <$> seq 0 (I `div` g))
               <$> seq 0 O ∧
  bias m = b <$> seq 0 O.
Proof.
  unfold new_conv1d. case_decide; [done|]. intros [= <-]. cbn.
  by rewrite length_fmap, length_seq.
Qed.

Lemma new_conv1d_ok I O K d p mode g w b :
  1 ≤ g → I `mod` g = 0 → O `mod` g = 0 →
  ∃ m, new_conv1d I O K d p mode g w b = inr m.
Proof.
  intros Hg HI HO. unfold new_conv1d. rewrite decide_False by lia.
  by eexists.
Qed.

Lemma pad_channel_padded mode p r :
  1 ≤ length r → pad_channel mode p r = inr (padded mode p r).
Proof. intros Hr. destruct mode, r; cbn in *; (done || lia). Qed.

Lemma padded_length mode p r : length (padded mode p r) = length r + 2 * p.
Proof.
  destruct mode; cbn; rewrite !length_app, !length_replicate; lia.
Qed.

Lemma conv1d_sample_output m L s :
  1 ≤ kernel_size m → 1 ≤ dilation m → 1 ≤ in_channels m → 1 ≤ L →
  dilation m * (kernel_size m - 1) + 1 ≤ L + 2 * padding m →
  has_shape2 (in_channels m) L s →
  conv1d_sample m s = inr (conv1d_output m L s).
Proof.
  intros HK Hd HI HL Hspan [Hs Hr]. unfold conv1d_sample.
  rewrite decide_False by lia. rewrite decide_False by lia.
  rewrite (forM_inr _ (padded (pad_mode m) (padding m))).
  2:{ eapply Forall_impl; [exact Hr|]. intros r Hl. cbn beta in *.
      apply pad_channel_padded. lia. }
  except_run.
  destruct s as [|r s]; [cbn in Hs; lia|]. cbn [fmap list_fmap].
  apply Forall_cons in Hr as [Hl _]. rewrite padded_length, Hl.
  unfold conv1d_output, conv_length.
  set (q := dilation m * (kernel_size m - 1)) in *. clearbody q.
  rewrite decide_False by lia.
  by replace (L + 2 * padding m - (q + 1) + 1) with (L + 2 * padding m - q)
    by lia.
Qed.

Lemma conv1d_output_shape m L s :
  has_shape2 (length (weight m)) (conv_length m L) (conv1d_output m L s).
Proof.
  unfold conv1d_output. split; [by rewrite length_imap|].
  apply Forall_forall. intros r [o [w_o [-> _]]]%elem_of_lookup_imap.
  by rewrite length_fmap, length_seq.
Qed.

(** [m(x)] on a batch of shape [[B, in_channels, L]]. *)
Lemma conv1d_shape m B L x :
  1 ≤ kernel_size m → 1 ≤ dilation m → 1 ≤ in_channels m → 1 ≤ L →
  dilation m * (kernel_size m - 1) + 1 ≤ L + 2 * padding m →
  has_shape B (in_channels m) L x →
  conv1d m x = inr (conv1d_output m L <$> x) ∧
  has_shape B (length (weight m)) (conv_length m L) (conv1d_output m L <$> x).
Proof.
  intros HK Hd HI HL Hspan [HB Hx]. split.
  - unfold conv1d. apply forM_inr.
    eapply Forall_impl; [exact Hx|]. intros s Hs.
    by apply conv1d_sample_output.
  - split; [by rewrite length_fmap|].
    apply Forall_fmap, Forall_true. intros s. apply conv1d_output_shape.
Qed.

Lemma sum_list_zero (l : list R) : Forall (λ v, v = 0%R) l → sum_list l = 0%R.
Proof.
  unfold sum_list. induction 1 as [|v l -> _ IH]; [done|].
  cbn [foldr]. rewrite IH. lra.
Qed.

(** A convolution whose weights and biases are all zero returns zeros. *)
Lemma conv1d_output_zero m L s :
  all3 (λ v, v = 0%R) (weight m) → Forall (λ v, v = 0%R) (bias m) →
  conv1d_output m L s =
    replicate (length (weight m)) (replicate (conv_length m L) 0%R).
Proof.
  intros Hw Hb. unfold conv1d_output.
  apply list_eq. intros o. rewrite list_lookup_imap.
  destruct (weight m !! o) as [w_o|] eqn:Ho; cbn.
  - rewrite lookup_replicate_2 by by eapply lookup_lt_Some.
    f_equal. erewrite const_fmap; [by rewrite length_seq|].
    intros _ t _. unfold conv1d_at.
    assert (nth o (bias m) 0%R = 0%R) as ->.
    { destruct (nth_in_or_default o (bias m) 0%R) as [Hin| ->]; [|done].
      rewrite Forall_forall in Hb. apply Hb. by apply list_elem_of_In. }
    rewrite sum_list_zero; [lra|].
    apply Forall_forall. intros v [c [w_c [-> Hc]]]%elem_of_lookup_imap.
    apply sum_list_zero.
    apply Forall_forall. intros v [k [w [-> Hk]]]%elem_of_lookup_imap.
    unfold all3 in Hw. rewrite Forall_lookup in Hw.
    specialize (Hw _ _ Ho). rewrite Forall_lookup in Hw.
    specialize (Hw _ _ Hc). rewrite Forall_lookup in Hw.
    rewrite (Hw _ _ Hk). lra.
  - symmetry. apply lookup_replicate_None.
    by apply lookup_ge_None in Ho.
Qed.

(** A convolution of odd kernel size [K], dilation [d] and padding
    [(K*d - d)/2] keeps the length. *)
Lemma conv_maps_shape m K d :
  kernel_size m = K → dilation m = d → padding m = (K * d - d) `div` 2 →
  K `mod` 2 = 1 → 1 ≤ d → 1 ≤ in_channels m →
  maps_shape (conv1d m) (in_channels m) (length (weight m)).
Proof.
  intros HK Hd Hp Hodd Hd1 HI B T x HT Hx.
  assert (K = 2 * (K `div` 2) + 1) as HK2
    by (rewrite (Nat.div_mod K 2) at 1 by done; lia).
  assert ((K * d - d) `div` 2 = K `div` 2 * d) as Hpad.
  { set (j := K `div` 2) in *. clearbody j.
    replace (K * d - d) with (j * d * 2) by nia. by apply Nat.div_mul. }
  assert (d * (K - 1) = 2 * (K `div` 2 * d)) as Hspan.
  { set (j := K `div` 2) in *. clearbody j. nia. }
  destruct (conv1d_shape m B T x) as [Hc Hs];
    [lia|lia|done|done|rewrite HK, Hd, Hp, Hpad, Hspan; lia|done|].
  eexists. split; [exact Hc|].
  replace (conv_length m T) with T in Hs; [done|].
  unfold conv_length. rewrite HK, Hd, Hp, Hpad, Hspan. lia.
Qed.

(** In particular a convolution of kernel size 1 without padding. *)
Lemma pointwise_conv_maps_shape m :
  kernel_size m = 1 → padding m = 0 → 1 ≤ dilation m → 1 ≤ in_channels m →
  maps_shape (conv1d m) (in_channels m) (length (weight m)).
Proof.
  intros HK Hp Hd HI. apply (conv_maps_shape m 1 (dilation m)); try done.
  rewrite Hp, Nat.mul_1_l, Nat.sub_diag. done.
Qed.

Lemma maps_shape_compose f g C1 C2 C3 :
  maps_shape f C1 C2 → maps_shape g C2 C3 →
  maps_shape (λ x, f x ≫= g) C1 C3.
Proof.
  intros Hf Hg B T x HT Hx.
  destruct (Hf B T x HT Hx) as (y & -> & Hy). except_run. by apply Hg.
Qed.

(** ** Resampling *)

Lemma interpolate_shape mode size B C T x :
  mode ∈ upsample_modes → 1 ≤ T → 1 ≤ size →
  has_shape B C T x →
  ∃ y, interpolate mode size x = inr y ∧ has_shape B C size y.
Proof.
  intros Hmode HT Hsize [HB Hx].
  assert (∀ r : tensor1, length r = T →
            ∃ r', interpolate_channel mode size r = inr r' ∧ length r' = size)
    as Hchannel.
  { intros r Hr. unfold interpolate_channel. rewrite decide_False by lia.
    assert (∃ g, ∀ t, interpolate_at mode size r t = inr (g t)) as [g Hg].
    { unfold interpolate_at, upsample_modes in *.
      repeat case_decide; try by eexists (λ t, _).
      apply list_elem_of_In in Hmode. cbn in Hmode. intuition congruence. }
    rewrite (forM_inr _ g) by (apply Forall_true; intros t; apply Hg).
    eexists. split; [done|]. by rewrite length_fmap, length_seq. }
  assert (∀ s : tensor2, Forall (λ r, length r = T) s →
            ∃ s', forM (interpolate_channel mode size) s = inr s' ∧
                  length s' = length s ∧
                  Forall (λ r, length r = size) s') as Hsample.
  { intros s Hr. induction Hr as [|r s Hl _ IH]; cbn [forM].
    - by exists [].
    - destruct (Hchannel r Hl) as (r' & -> & Hl'). except_run.
      destruct IH as (s' & -> & Hs' & Hr'). except_run.
      exists (r' :: s'). split_and!; [done|by cbn; f_equal|by constructor]. }
  unfold interpolate. subst B.
  induction Hx as [|s x [Hs Hr] _ IH]; cbn [forM].
  - by exists [].
  - destruct (Hsample s Hr) as (s' & -> & Hs' & Hr'). except_run.
    destruct IH as (y & -> & Hy & Hy'). except_run.
    exists (s' :: y). split; [done|]. split; [by cbn; f_equal|].
    constructor; [|done]. split; [congruence|done].
Qed.

Lemma size2_shape B C T x :
  has_shape B C T x → 1 ≤ B → 1 ≤ C → size2 x = T.
Proof.
  intros [HB Hx] ??. destruct x as [|s x]; [cbn in HB; lia|].
  apply Forall_cons in Hx as [[Hs Hr] _].
  destruct s as [|r s]; [cbn in Hs; lia|].
  by apply Forall_cons in Hr as [Hl _].
Qed.

(** A channel of length 1 is broadcast along the time axis. *)
Lemma broadcast_time (f : R → R → R) (r1 r2 : tensor1) :
  length r2 = 1 →
  broadcast (λ u v, mret (f u v)) r1 r2 =
    inr ((λ u, f u (default 0%R (head r2))) <$> r1).
Proof.
  intros Hl. destruct r2 as [|v [|??]]; try done. cbn [head default from_option].
  unfold broadcast. destruct r1 as [|u [|u' r1]]; [done..|].
  rewrite decide_False by done.
  by apply (forM_inr (λ u, mret (f u v)) (λ u, f u v)), Forall_true.
Qed.

(** An element-wise operation on tensors of one shape, the second of
    which may have a time axis of length 1. *)
Lemma pointwise_shape (f : R → R → R) B C T T' x y :
  has_shape B C T x → has_shape B C T' y → T' = T ∨ T' = 1 →
  ∃ z, pointwise f x y = inr z ∧ has_shape B C T z.
Proof.
  intros Hx Hy [->| ->].
  { rewrite (pointwise_same_shape _ _ _ _ _ _ Hx Hy). eexists.
    split; [done|]. by apply has_shape_combine. }
  destruct Hx as [HxB Hx], Hy as [HyB Hy]. unfold pointwise.
  set (g := λ r1 r2 : tensor1, (λ u, f u (default 0%R (head r2))) <$> r1).
  exists (zip_with (zip_with g) x y). split.
  - eapply broadcast_same_length; [|congruence|exact Hx|exact Hy].
    intros s1 s2 [Hs1 Hr1] [Hs2 Hr2].
    eapply broadcast_same_length; [|congruence|exact Hr1|exact Hr2].
    intros r1 r2 _ Hl2. by apply broadcast_time.
  - split; [rewrite length_zip_with; lia|].
    eapply Forall_zip_with_fst; [exact Hx|].
    eapply Forall_impl; [exact Hy|]. intros s2 [Hs2 Hr2] s1 [Hs1 Hr1]. split.
    + rewrite length_zip_with. lia.
    + eapply Forall_zip_with_fst; [exact Hr1|].
      eapply Forall_impl; [exact Hr2|]. intros r2 Hl2 r1 Hl1.
      unfold g. by rewrite length_fmap.
Qed.

(** The gate halves the channels. *)
Lemma fused_shape B C T T' a b :
  has_shape B (2 * C) T a → has_shape B (2 * C) T' b → T' = T ∨ T' = 1 →
  ∃ acts, fused_add_tanh_sigmoid_multiply a b C = inr acts ∧
          has_shape B C T acts.
Proof.
  intros Ha Hb HT. unfold fused_add_tanh_sigmoid_multiply.
  destruct (pointwise_shape Rplus _ _ _ _ _ _ Ha Hb HT) as (in_act & -> & Hab).
  except_run.
  pose proof (has_shape_narrow 0 C _ _ _ _ Hab ltac:(lia)) as Ht.
  pose proof (has_shape_narrow_from C _ _ _ _ Hab) as Hs.
  replace (C - 0) with C in Ht by lia.
  replace (2 * C - C) with C in Hs by lia.
  apply (has_shape_map3 tanh) in Ht. apply (has_shape_map3 sigmoid) in Hs.
  rewrite (pointwise_same_shape _ _ _ _ _ _ Ht Hs). except_run.
  eexists. split; [done|]. by apply has_shape_combine.
Qed.

End tensor_facts.

(** * The gate *)

Section gate_claim.
Import Tensor.

(** C8: for [a] and [b] of shape [[B, 2C, T]],
    [fused_add_tanh_sigmoid_multiply(a, b, C)] returns a tensor of shape
    [[B, C, T]] whose value at [[i, c, t]] is
    [tanh((a+b)[i, c, t]) * sigmoid((a+b)[i, C+c, t])], and every value of
    it has magnitude at most 1. *)
Theorem fused_gate (B C T : nat) (a b : tensor3) :
  has_shape B (2 * C) T a →
  has_shape B (2 * C) T b →
  ∃ acts,
    fused_add_tanh_sigmoid_multiply a b C = inr acts ∧
    has_shape B C T acts ∧
    (∀ i c t, c < C →
       get3 acts i c t =
         ta ← get3 a i c t; tb ← get3 b i c t;
         sa ← get3 a i (C + c) t; sb ← get3 b i (C + c) t;
         Some (tanh (ta + tb) * sigmoid (sa + sb))%R) ∧
    all3 (λ v, (Rabs v <= 1)%R) acts.
Proof.
  intros Ha Hb. unfold fused_add_tanh_sigmoid_multiply.
  rewrite (pointwise_same_shape _ _ _ _ _ _ Ha Hb). except_run.
  pose proof (has_shape_combine Rplus _ _ _ _ _ Ha Hb) as Hab.
  set (in_act := combine Rplus a b) in *.
  assert (has_shape B C T (map3 tanh (narrow 0 C in_act))) as Ht.
  { apply has_shape_map3.
    replace C with (C - 0) at 1 by lia. apply (has_shape_narrow _ _ _ _ _ _ Hab).
    lia. }
  assert (has_shape B C T (map3 sigmoid (narrow_from C in_act))) as Hs.
  { apply has_shape_map3.
    replace C with (2 * C - C) at 1 by lia. by apply has_shape_narrow_from. }
  rewrite (pointwise_same_shape _ _ _ _ _ _ Ht Hs). except_run.
  eexists. split_and!; [done|by apply has_shape_combine| |apply all3_gate].
  intros i c t Hc.
  rewrite get3_combine, !get3_map3, get3_narrow, get3_narrow_from by lia.
  subst in_act. rewrite !get3_combine. cbn [Nat.add].
  destruct (get3 a i c t) as [ta|]; [|done]. cbn.
  destruct (get3 b i c t) as [tb|]; [|done]. cbn.
  destruct (get3 a i (C + c) t) as [sa|]; [|done]. cbn.
  by destruct (get3 b i (C + c) t) as [sb|].
Qed.

Lemma fused_gate_witness :
  ∃ acts,
    fused_add_tanh_sigmoid_multiply
      [[[1%R; 2%R]; [0%R; 1%R]]] [[[0%R; 1%R]; [3%R; 1%R]]] 1 = inr acts ∧
    has_shape 1 1 2 acts ∧
    all3 (λ v, (Rabs v <= 1)%R) acts.
Proof.
  destruct (fused_gate 1 1 2 [[[1%R; 2%R]; [0%R; 1%R]]]
              [[[0%R; 1%R]; [3%R; 1%R]]]) as (acts & H1 & H2 & _ & H4).
  - split; [reflexivity|]. repeat constructor.
  - split; [reflexivity|]. repeat constructor.
  - by exists acts.
Defined.

End gate_claim.

(** * Properties of [WN] *)

Section wn_facts.
Import Tensor WN.

Lemma init_dilation_pos cfg i d :
  valid cfg → init_dilation cfg i = inr d → 1 ≤ d.
Proof.
  intros Hv. pose proof (v_dilations _ Hv) as Hd. unfold init_dilation.
  destruct (cfg_n_layers_dilations_w cfg) as [[d'|l]|].
  - by intros [= <-].
  - intros Hi%py_index_inv. rewrite Forall_lookup in Hd. by eapply Hd.
  - intros [= <-]. clear. induction i; cbn; lia.
Qed.

Lemma sequential_one m x : sequential [m] x = conv1d m x.
Proof. cbn. by destruct (conv1d m x). Qed.

Lemma sequential_two m1 m2 x :
  sequential [m1; m2] x = conv1d m1 x ≫= conv1d m2.
Proof.
  cbn. destruct (conv1d m1 x) as [e|y]; [done|]. except_run.
  by destruct (conv1d m2 y).
Qed.

(** Every layer that [__init__] builds keeps the length of the audio:
    [in_layers[i]] takes [n_channels] channels to [2*n_channels], and
    [res_skip_layers[i]], when there is one, [n_channels] channels to
    [res_skip_channels]. *)
Lemma init_layer_maps cfg w K i in_layer res_skip_layer :
  valid cfg → K `mod` 2 = 1 →
  init_layer cfg w K i = inr (in_layer, res_skip_layer) →
  in_layer_ok (cfg_n_channels cfg) in_layer ∧
  if cfg_res_skip cfg
  then ∃ m, res_skip_layer = [m] ∧
            maps_shape (conv1d m) (cfg_n_channels cfg) (res_skip_channels cfg i)
  else res_skip_layer = [].
Proof.
  intros Hv Hodd Hinit. pose proof (v_channels _ Hv) as Hn.
  unfold init_layer in Hinit.
  apply except_bind_inv in Hinit as (d & Hd%(init_dilation_pos _ _ _ Hv) & Hinit).
  apply except_bind_inv in Hinit as (ms & Hin & Hinit).
  apply except_bind_inv in Hinit as (rs & Hrs & Hinit).
  injection Hinit as <- <-. split.
  - destruct (negb (cfg_seperable_conv cfg) || bool_decide (K = 1)).
    + apply except_bind_inv in Hin as (m & Hm & [= <-]).
      apply new_conv1d_inv in Hm as (HI & HO & HK & Hdil & Hp & _ & Hw & _).
      split; [exists m, []; by rewrite HK, Hdil|].
      intros B T x HT Hx. rewrite sequential_one.
      rewrite <-HI in Hx. rewrite <-Hw.
      apply (conv_maps_shape m K d); (done || lia).
    + apply except_bind_inv in Hin as (m1 & Hm1 & Hin).
      apply except_bind_inv in Hin as (m2 & Hm2 & [= <-]).
      apply new_conv1d_inv in Hm1 as (HI1 & HO1 & HK1 & Hd1 & Hp1 & _ & Hw1 & _).
      apply new_conv1d_inv in Hm2 as (HI2 & HO2 & HK2 & Hd2 & Hp2 & _ & Hw2 & _).
      split; [exists m1, [m2]; by rewrite HK1, Hd1|].
      intros B T x HT Hx. rewrite sequential_two.
      pose proof (conv_maps_shape m1 K d HK1 Hd1 Hp1 Hodd Hd
                    ltac:(lia)) as H1.
      pose proof (pointwise_conv_maps_shape m2 HK2 Hp2 ltac:(lia)
                    ltac:(lia)) as H2.
      rewrite HI1, Hw1 in H1. rewrite HI2, Hw2 in H2.
      by apply (maps_shape_compose _ _ _ _ _ H1 H2).
  - destruct (cfg_res_skip cfg); [|by injection Hrs as <-].
    apply except_bind_inv in Hrs as (m & Hm & [= <-]).
    apply new_conv1d_inv in Hm as (HI & HO & HK & Hdil & Hp & _ & Hw & _).
    exists m. split; [done|].
    rewrite <-HI at 1. unfold res_skip_channels. rewrite <-Hw.
    apply pointwise_conv_maps_shape; (done || lia).
Qed.

Lemma init_layers_maps cfg w K : ∀ idx ins rss,
  valid cfg → K `mod` 2 = 1 →
  init_layers cfg w K idx = inr (ins, rss) →
  length ins = length idx ∧
  (∀ j, j < length idx →
     ∃ ms, ins !! j = Some ms ∧ in_layer_ok (cfg_n_channels cfg) ms) ∧
  if cfg_res_skip cfg
  then length rss = length idx ∧
       ∀ j i, idx !! j = Some i →
         ∃ m, rss !! j = Some m ∧
              maps_shape (conv1d m) (cfg_n_channels cfg)
                (res_skip_channels cfg i)
  else rss = [].
Proof.
  induction idx as [|i idx IH]; intros ins rss Hv Hodd Hinit;
    cbn [init_layers] in Hinit.
  - injection Hinit as <- <-. split_and!; [done|cbn; lia|].
    by destruct (cfg_res_skip cfg).
  - apply except_bind_inv in Hinit as ([ms rs] & Hl & Hinit).
    apply except_bind_inv in Hinit as ([ins' rss'] & Hrec & Hinit).
    injection Hinit as <- <-.
    apply (init_layer_maps _ _ _ _ _ _ Hv Hodd) in Hl as [Hms Hrs].
    destruct (IH _ _ Hv Hodd Hrec) as (Hlen & Hins & Hrss).
    split_and!; [by cbn; f_equal| |].
    + intros [|j] Hj; cbn in *; [by exists ms|]. apply Hins. lia.
    + destruct (cfg_res_skip cfg).
      * destruct Hrs as (m & -> & Hm). destruct Hrss as [Hlen' Hrss].
        split; [by cbn; f_equal|].
        intros [|j] i' Hi'; cbn in *.
        -- injection Hi' as <-. by exists m.
        -- by apply Hrss.
      * by subst.
Qed.

(** ** The conditioning stack *)

Lemma init_cond_convs_fits cfg w K p : ∀ dims i ms,
  init_cond_convs cfg w K p i dims = inr ms →
  Forall2 (cond_conv_fits K p) ms dims.
Proof.
  induction dims as [|[a b] dims IH]; intros i ms Hinit;
    cbn [init_cond_convs] in Hinit.
  - injection Hinit as <-. constructor.
  - apply except_bind_inv in Hinit as (m & Hm & Hinit).
    apply except_bind_inv in Hinit as (ms' & Hrec & [= <-]).
    apply new_conv1d_inv in Hm as (HI & HO & HK & Hd & Hp & _ & Hw & _).
    constructor; [done|]. by eapply IH.
Qed.

(** The stack takes the first dimension of the chain [ds] to the last. *)
Lemma apply_cond_layers_maps self K : K `mod` 2 = 1 → ∀ ms ds j,
  Forall2 (cond_conv_fits K ((K - 1) `div` 2)) ms (zip ds (drop 1 ds)) →
  length ds = S (length ms) →
  Forall (λ c, 1 ≤ c) (take (length ms) ds) →
  maps_shape (apply_cond_layers self j ms) (default 0 (head ds))
    (default 0 (last ds)).
Proof.
  intros Hodd. induction ms as [|m ms IH]; intros ds j Hfit Hlen Hpos.
  - destruct ds as [|c [|??]]; [done| |done]. cbn.
    intros B T x HT Hx. by exists x.
  - destruct ds as [|c0 [|c1 ds]]; [done..|].
    cbn in Hfit. apply Forall2_cons in Hfit as [(HI & HO & HK & Hd & Hp) Hfit].
    cbn in Hpos. apply Forall_cons in Hpos as [Hc0 Hpos].
    cbn in HI, HO. cbn [head default from_option apply_cond_layers].
    change (default 0 (last (c0 :: c1 :: ds)))
      with (default 0 (last (c1 :: ds))).
    assert (maps_shape (conv1d m) c0 c1) as Hm.
    { rewrite <-HI, <-HO. apply (conv_maps_shape m K 1); try done; [|lia].
      by rewrite Hp, Nat.mul_1_r. }
    specialize (IH (c1 :: ds) (S j) Hfit ltac:(cbn in *; lia) Hpos).
    intros B T x HT Hx.
    destruct (Hm B T x HT Hx) as (y & -> & Hy). except_run.
    apply IH; [done|].
    destruct (cond_activation_func self); [|done].
    destruct (_ || _); [by apply has_shape_map3|done].
Qed.

Lemma init_cond_layers_maps cfg w self ms :
  valid cfg → cfg_cond_layers cfg ≠ 0 →
  init_cond_layers cfg w = inr ms →
  maps_shape (apply_cond_layers self 0 ms)
    (cfg_cond_in_channels cfg + cfg_speaker_embed_dim cfg)
    (2 * cfg_n_channels cfg * cfg_n_layers cfg).
Proof.
  intros Hv HL Hinit. pose proof (v_cond _ Hv) as Hc.
  rewrite decide_False in Hc by done. destruct Hc as (Hk & Hin & Hhid).
  unfold init_cond_layers in Hinit.
  apply init_cond_convs_fits in Hinit.
  set (ds := [cfg_cond_in_channels cfg + cfg_speaker_embed_dim cfg] ++
             replicate (cfg_cond_layers cfg - 1) (cfg_cond_hidden_channels cfg) ++
             [2 * cfg_n_channels cfg * cfg_n_layers cfg]) in *.
  assert (length ds = S (cfg_cond_layers cfg)) as Hds.
  { subst ds. rewrite !length_app, length_replicate. cbn. lia. }
  rewrite zip_with_take_l' in Hinit by (rewrite length_drop; lia).
  pose proof (Forall2_length _ _ _ Hinit) as Hlen.
  rewrite length_zip_with, length_drop in Hlen.
  assert ((2 * cfg_cond_kernel_size cfg - 1) `mod` 2 = 1) as Hodd.
  { replace (2 * cfg_cond_kernel_size cfg - 1)
      with (1 + (cfg_cond_kernel_size cfg - 1) * 2) by lia.
    by rewrite Nat.Div0.mod_add. }
  assert (length ds = S (length ms)) as Hlen' by lia.
  pose proof (apply_cond_layers_maps self (2 * cfg_cond_kernel_size cfg - 1)
                Hodd ms ds 0 Hinit Hlen') as Hmaps.
  replace (default 0 (head ds))
    with (cfg_cond_in_channels cfg + cfg_speaker_embed_dim cfg) in Hmaps
    by done.
  replace (default 0 (last ds))
    with (2 * cfg_n_channels cfg * cfg_n_layers cfg) in Hmaps.
  2:{ subst ds. by rewrite app_assoc, last_snoc. }
  apply Hmaps.
  replace (length ms) with (cfg_cond_layers cfg) by lia.
  subst ds. destruct (cfg_cond_layers cfg) as [|L]; [done|].
  cbn [app take]. constructor; [done|].
  replace (S L - 1) with L by lia.
  rewrite take_app_le, take_ge by (rewrite length_replicate; lia).
  destruct L; [by constructor|]. apply Forall_replicate. apply Hhid. lia.
Qed.

(** ** What [__init__] builds *)

Lemma build_built cfg w w_end b_end self :
  valid cfg → build cfg w w_end b_end = inr self → built cfg w_end b_end self.
Proof.
  intros Hv Hb. unfold build in Hb.
  set (speakers := seq 0 max_speakers) in Hb.
  assert (length speakers = max_speakers) as Hspeakers by apply length_seq.
  clearbody speakers.
  apply except_bind_inv in Hb as (K & HK & Hb).
  apply except_bind_inv in Hb as ([] & Hodd & Hb).
  apply except_bind_inv in Hb as ([] & Heven & Hb).
  apply except_bind_inv in Hb as ([] & Hres & Hb).
  apply except_bind_inv in Hb as ([] & Hrezero & Hb).
  apply except_bind_inv in Hb as (m_start & Hstart & Hb).
  apply except_bind_inv in Hb as (m_end & Hend & Hb).
  apply except_bind_inv in Hb as ([conds act] & Hcond & Hb).
  apply except_bind_inv in Hb as ([ins rss] & Hlayers & Hb).
  injection Hb as <-.
  apply py_assert_inv, bool_decide_eq_true in Hodd.
  apply py_assert_inv in Hres.
  apply init_layers_maps in Hlayers as (Hlen & Hins & Hrss); [|done..].
  rewrite length_seq in *.
  split;
    cbn [n_layers n_channels speaker_embed_dim merge_res_skip upsample_first
         upsample_mode in_layers res_skip_layers start end_ speaker_embed
         cond_out_activation_func cond_layers cond_activation_func];
    try done.
  - apply new_conv1d_inv in Hstart as (HI & HO & HK' & Hd & Hp & _ & Hw & _).
    pose proof (pointwise_conv_maps_shape m_start HK' Hp ltac:(lia)
                  ltac:(pose proof (v_in_channels _ Hv); lia)) as Hm.
    by rewrite HI, Hw in Hm.
  - intros HE. rewrite bool_decide_true by done. eexists. split; [done|].
    rewrite length_fmap. split; [done|].
    apply Forall_fmap, Forall_true. intros i. cbn.
    by rewrite length_fmap, length_seq.
  - unfold cond_out_channels. case_bool_decide as HL.
    + apply except_bind_inv in Hcond as (ms & Hms & Hcond).
      apply except_bind_inv in Hcond as (f & _ & [= <- <-]).
      rewrite decide_False by done.
      by apply (init_cond_layers_maps cfg w).
    + injection Hcond as <- <-.
      rewrite decide_True
        by (by destruct (decide (cfg_cond_layers cfg = 0))).
      intros B T x HT Hx. by exists x.
  - destruct (cfg_res_skip cfg).
    + destruct Hrss as [Hlen' Hrss]. split; [done|].
      intros i Hi. apply (Hrss i i). by apply lookup_seq.
    + split; [done|]. cbn in Hres.
      destruct (cfg_merge_res_skip cfg); [by left|right].
      cbn in Hres. by apply bool_decide_eq_true in Hres.
Qed.

(** ** [forward] *)

Lemma add_speaker_embeddings_shape cfg w_end b_end self B T spect speaker_id :
  built cfg w_end b_end self → speaker_ok cfg B speaker_id →
  1 ≤ B → 1 ≤ cfg_cond_in_channels cfg →
  has_shape B (cfg_cond_in_channels cfg) T spect →
  ∃ spect', add_speaker_embeddings self spect speaker_id = inr spect' ∧
    has_shape B (cfg_cond_in_channels cfg + cfg_speaker_embed_dim cfg) T spect'.
Proof.
  intros Hb Hok HB HC Hx. unfold add_speaker_embeddings.
  rewrite (built_speaker_embed_dim _ _ _ _ Hb).
  destruct (decide (cfg_speaker_embed_dim cfg = 0)) as [HE|HE].
  - rewrite HE, Nat.add_0_r. exists spect. split; [|done].
    destruct speaker_id; [|done]. by rewrite bool_decide_false by (by intros ?).
  - destruct (Hok HE) as (ids & -> & Hids & Hlt).
    rewrite bool_decide_true by done.
    destruct (built_speaker_embed _ _ _ _ Hb HE) as (table & -> & Htl & Htable).
    except_run. unfold embedding.
    rewrite (forM_inr _ (λ id, default [] (table !! id))).
    2:{ eapply Forall_impl; [exact Hlt|]. intros id Hid. cbn beta in *.
        destruct (lookup_lt_is_Some_2 table id) as [r Hr]; [lia|].
        by rewrite (py_index_lookup _ _ _ Hr), Hr. }
    except_run. rewrite (size2_shape _ _ _ _ Hx HB HC).
    destruct Hx as [HxB Hx].
    rewrite decide_True by (by rewrite !length_fmap; lia). eexists.
    split; [done|]. split; [rewrite length_zip_with, !length_fmap; lia|].
    eapply Forall_zip_with_fst; [exact Hx|].
    apply Forall_fmap, Forall_fmap. eapply Forall_impl; [exact Hlt|].
    intros id Hid s [Hs Hr]. cbn beta in *.
    destruct (lookup_lt_is_Some_2 table id) as [r Hr']; [lia|].
    rewrite Hr'. cbn. rewrite Forall_lookup in Htable.
    pose proof (Htable _ _ Hr') as Hlr. cbn beta in Hlr. split.
    + rewrite length_app, length_fmap. lia.
    + apply Forall_app. split; [done|].
      apply Forall_fmap, Forall_true. intros v. cbn.
      by rewrite length_replicate.
Qed.

(** One layer keeps the shapes of [audio] and [output]. *)
Lemma layer_shape cfg w_end b_end self B T C' T' spect i st :
  valid cfg → built cfg w_end b_end self → 1 ≤ T →
  i < cfg_n_layers cfg →
  has_shape B C' T' spect →
  2 * cfg_n_channels cfg * cfg_n_layers cfg ≤ C' → T' = T ∨ T' = 1 →
  has_shape B (cfg_n_channels cfg) T (l_audio st) →
  (i = 0 ∨ ∃ o, l_output st = Some o ∧ has_shape B (cfg_n_channels cfg) T o) →
  ∃ st', layer self spect i st = inr st' ∧
    has_shape B (cfg_n_channels cfg) T (l_audio st') ∧
    ∃ o, l_output st' = Some o ∧ has_shape B (cfg_n_channels cfg) T o.
Proof.
  intros Hv Hb HT Hi Hspect HC' HT' Haudio Houtput. unfold layer.
  rewrite (built_n_channels _ _ _ _ Hb), (built_n_layers _ _ _ _ Hb),
    (built_merge_res_skip _ _ _ _ Hb).
  destruct (built_in_layers _ _ _ _ Hb i Hi) as (ms & Hms & _ & Hmaps).
  rewrite (py_index_lookup _ _ _ Hms). except_run.
  destruct (Hmaps B T _ HT Haudio) as (acts & -> & Hacts). except_run.
  assert (has_shape B (2 * cfg_n_channels cfg) T'
            (narrow (i * 2 * cfg_n_channels cfg)
                    ((i + 1) * 2 * cfg_n_channels cfg) spect)) as Hspec.
  { replace (2 * cfg_n_channels cfg)
      with ((i + 1) * 2 * cfg_n_channels cfg - i * 2 * cfg_n_channels cfg)
      by lia.
    apply (has_shape_narrow _ _ _ _ _ _ Hspect). nia. }
  destruct (fused_shape _ _ _ _ _ _ Hacts Hspec HT')
    as (gated & -> & Hgated).
  except_run.
  (* the res-skip convolution *)
  assert (∃ res,
    (if bool_decide (res_skip_layers self ≠ [])
     then res_skip_layer ← py_index (res_skip_layers self) i;
          conv1d res_skip_layer gated
     else mret gated) = inr res ∧
    has_shape B (if negb (cfg_merge_res_skip cfg) &&
                    bool_decide (i + 1 < cfg_n_layers cfg)
                 then 2 * cfg_n_channels cfg else cfg_n_channels cfg) T res)
    as (res & -> & Hres).
  { pose proof (built_res_skip_layers _ _ _ _ Hb) as Hrs.
    destruct (cfg_res_skip cfg).
    - destruct Hrs as [Hlen Hrs]. destruct (Hrs i Hi) as (m & Hm & Hmm).
      rewrite bool_decide_true
        by (intros Hnil; rewrite Hnil in Hlen; cbn in Hlen; lia).
      rewrite (py_index_lookup _ _ _ Hm). except_run.
      destruct (Hmm B T _ HT Hgated) as (res & -> & Hres).
      exists res. split; [done|]. unfold res_skip_channels in Hres.
      by rewrite andb_comm.
    - destruct Hrs as [-> Hrs]. rewrite bool_decide_false by (by intros ?).
      exists gated. split; [done|].
      destruct Hrs as [-> | ->]; [done|].
      rewrite bool_decide_false by lia. by rewrite andb_false_r. }
  except_run.
  destruct (negb (cfg_merge_res_skip cfg) &&
            bool_decide (i + 1 < cfg_n_layers cfg)).
  - pose proof (has_shape_narrow 0 (cfg_n_channels cfg) _ _ _ _ Hres
                  ltac:(lia)) as Hlo.
    pose proof (has_shape_narrow_from (cfg_n_channels cfg) _ _ _ _ Hres) as Hhi.
    replace (cfg_n_channels cfg - 0) with (cfg_n_channels cfg) in Hlo by lia.
    replace (2 * cfg_n_channels cfg - cfg_n_channels cfg)
      with (cfg_n_channels cfg) in Hhi by lia.
    case_bool_decide as Hi0.
    + rewrite (pointwise_same_shape _ _ _ _ _ _ Haudio Hlo). except_run.
      eexists. split_and!; [done|by apply has_shape_combine|by eexists].
    + destruct Houtput as [?|(o & -> & Ho)]; [done|]. except_run.
      rewrite (pointwise_same_shape _ _ _ _ _ _ Haudio Hlo). except_run.
      rewrite (pointwise_same_shape _ _ _ _ _ _ Ho Hhi). except_run.
      eexists. split_and!; [done|by apply has_shape_combine|].
      eexists. split; [done|]. by apply has_shape_combine.
  - case_bool_decide as Hi0.
    + eexists. split_and!; [done|done|by eexists].
    + destruct Houtput as [?|(o & -> & Ho)]; [done|]. except_run.
      rewrite (pointwise_same_shape _ _ _ _ _ _ Ho Hres). except_run.
      eexists. split_and!; [done|done|].
      eexists. split; [done|]. by apply has_shape_combine.
Qed.

Lemma wn_layers_snoc self spect idx i st :
  layers self spect (idx ++ [i]) st =
    layers self spect idx st ≫= layer self spect i.
Proof.
  revert st. induction idx as [|j idx IH]; intros st; cbn [layers app].
  - rewrite except_bind_ret. by destruct (layer self spect i st).
  - destruct (layer self spect j st) as [e|st']; [done|].
    except_run. apply IH.
Qed.

(** The loop over the layers ends with [output] bound to a tensor of
    [n_channels] channels, as long as the audio. *)
Lemma layers_shape cfg w_end b_end self B T C' T' spect audio :
  valid cfg → built cfg w_end b_end self → 1 ≤ T →
  has_shape B C' T' spect →
  2 * cfg_n_channels cfg * cfg_n_layers cfg ≤ C' → T' = T ∨ T' = 1 →
  has_shape B (cfg_n_channels cfg) T audio →
  ∃ st o,
    layers self spect (seq 0 (cfg_n_layers cfg))
      {| l_audio := audio; l_output := None |} = inr st ∧
    l_output st = Some o ∧ has_shape B (cfg_n_channels cfg) T o.
Proof.
  intros Hv Hb HT Hspect HC' HT' Haudio.
  assert (∀ i, i ≤ cfg_n_layers cfg →
    ∃ st, layers self spect (seq 0 i)
            {| l_audio := audio; l_output := None |} = inr st ∧
          has_shape B (cfg_n_channels cfg) T (l_audio st) ∧
          (i = 0 ∨ ∃ o, l_output st = Some o ∧
                        has_shape B (cfg_n_channels cfg) T o)) as Hloop.
  { induction i as [|i IH]; intros Hi.
    - eexists. split_and!; [done|done|by left].
    - destruct IH as (st & Hl & Ha & Ho); [lia|].
      rewrite seq_S, wn_layers_snoc, Hl. except_run. cbn [Nat.add].
      destruct (layer_shape cfg w_end b_end self B T C' T' spect i st)
        as (st' & -> & Ha' & Ho'); try done; try lia.
      exists st'. split_and!; [done|done|by right]. }
  destruct (Hloop (cfg_n_layers cfg)) as (st & Hl & _ & [H0|(o & Ho & Hs)]);
    [done| |by exists st, o].
  pose proof (v_layers _ Hv). lia.
Qed.

(** Everything [forward] does before the [end] convolution succeeds, and
    hands it a tensor of [n_channels] channels, as long as the audio. *)
Lemma forward_before_end cfg w_end b_end self B T T_cond audio spect
    speaker_id :
  valid cfg → built cfg w_end b_end self →
  1 ≤ B → 1 ≤ T → 1 ≤ T_cond → 1 ≤ cfg_cond_in_channels cfg →
  (cfg_upsample_first cfg = true → T_cond = T ∨ T_cond = 1) →
  speaker_ok cfg B speaker_id →
  has_shape B (cfg_n_in_channels cfg) T audio →
  has_shape B (cfg_cond_in_channels cfg) T_cond spect →
  ∃ output, has_shape B (cfg_n_channels cfg) T output ∧
    forward self audio spect speaker_id =
      (out ← conv1d (end_ self) output; mret (chunk2 out)).
Proof.
  intros Hv Hb HB HT HTc HC Hfirst Hok Haudio Hspect. unfold forward.
  destruct (built_start _ _ _ _ Hb B T audio HT Haudio) as (audio' & -> & Haudio').
  except_run.
  destruct (add_speaker_embeddings_shape _ _ _ _ _ _ _ _ Hb Hok HB HC Hspect)
    as (spect1 & -> & Hspect1).
  except_run.
  destruct (built_cond_layers _ _ _ _ Hb B T_cond spect1 HTc Hspect1)
    as (spect2 & -> & Hspect2).
  except_run.
  pose proof (v_channels _ Hv) as Hn. pose proof (v_layers _ Hv) as HL.
  assert (2 * cfg_n_channels cfg * cfg_n_layers cfg ≤ cond_out_channels cfg)
    as Hout.
  { pose proof (v_cond _ Hv) as Hc. unfold cond_out_channels.
    by destruct (decide (cfg_cond_layers cfg = 0)). }
  assert (∃ spect3 T',
    (if negb (upsample_first self) then
       spect ← _upsample_mels self spect2 audio';
       _ ← py_assert (bool_decide (size2 audio' = size2 spect));
       mret spect
     else mret spect2) = inr spect3 ∧
    has_shape B (cond_out_channels cfg) T' spect3 ∧ (T' = T ∨ T' = 1))
    as (spect3 & T' & -> & Hspect3 & HT').
  { rewrite (built_upsample_first _ _ _ _ Hb).
    destruct (cfg_upsample_first cfg) eqn:Hup; cbn [negb].
    - exists spect2, T_cond. split_and!; [done..|]. by apply Hfirst.
    - unfold _upsample_mels.
      rewrite (built_upsample_mode _ _ _ _ Hb), (size2_shape _ _ _ _ Haudio' HB Hn).
      destruct (interpolate_shape (cfg_upsample_mode cfg) T _ _ _ spect2
                  (v_upsample _ Hv Hup) HTc HT Hspect2) as (spect3 & -> & H3).
      except_run.
      rewrite (size2_shape _ _ _ _ H3 HB) by nia.
      rewrite bool_decide_true by done. exists spect3, T.
      split_and!; [done..|by left]. }
  except_run.
  rewrite (built_n_layers _ _ _ _ Hb).
  destruct (layers_shape _ _ _ _ _ _ _ _ _ _ Hv Hb HT Hspect3 Hout HT' Haudio')
    as (st & output & Hl & Ho & Houtput).
  rewrite Hl. except_run. rewrite Ho. except_run. by exists output.
Qed.

(** [chunk(2, 1)] halves an even number of channels. *)
Lemma chunk2_shape B C T x :
  1 ≤ B → has_shape B (2 * C) T x →
  has_shape B C T (chunk2 x).1 ∧ has_shape B C T (chunk2 x).2.
Proof.
  intros HB Hx. unfold chunk2.
  assert (match x with s :: _ => (length s + 1) `div` 2 | [] => 0 end = C)
    as ->.
  { destruct Hx as [HxB Hx]. destruct x as [|s x]; [cbn in HxB; lia|].
    apply Forall_cons in Hx as [[-> _] _].
    replace (2 * C + 1) with (1 + C * 2) by lia.
    by rewrite Nat.div_add. }
  cbn [fst snd]. split.
  - replace C with (C - 0) at 1 by lia. apply (has_shape_narrow _ _ _ _ _ _ Hx).
    lia.
  - replace C with (2 * C - C) at 1 by lia.
    apply (has_shape_narrow_from _ _ _ _ _ Hx).
Qed.

Lemma chunk2_zeros B C T :
  1 ≤ B → chunk2 (zeros B (2 * C) T) = (zeros B C T, zeros B C T).
Proof.
  intros HB. unfold chunk2, zeros.
  destruct B as [|B]; [lia|]. cbn [replicate].
  rewrite length_replicate.
  assert ((2 * C + 1) `div` 2 = C) as ->.
  { replace (2 * C + 1) with (1 + C * 2) by lia. by rewrite Nat.div_add. }
  rewrite <-!replicate_S. unfold narrow, narrow_from.
  rewrite !fmap_replicate. f_equal; f_equal.
  - rewrite drop_0, take_replicate. f_equal. lia.
  - rewrite drop_replicate. f_equal. lia.
Qed.

(** ** What a zeroed [end] convolution returns, whatever it is given *)

Lemma forM_inv {U V} (f : U → except V) (a : list U) (b : list V) :
  forM f a = inr b → Forall2 (λ u v, f u = inr v) a b.
Proof.
  revert b. induction a as [|u a IH]; intros b; cbn [forM].
  - intros [= <-]. constructor.
  - intros Hb. apply except_bind_inv in Hb as (v & Hv & Hb).
    apply except_bind_inv in Hb as (vs & Hvs & [= <-]).
    constructor; [done|]. by apply IH.
Qed.

Lemma conv1d_at_zero m xp o w_o t :
  all3 (λ v, v = 0%R) (weight m) → Forall (λ v, v = 0%R) (bias m) →
  weight m !! o = Some w_o →
  conv1d_at m xp o w_o t = 0%R.
Proof.
  intros Hw Hb Ho. unfold conv1d_at.
  assert (nth o (bias m) 0%R = 0%R) as ->.
  { destruct (nth_in_or_default o (bias m) 0%R) as [Hin| ->]; [|done].
    rewrite Forall_forall in Hb. apply Hb. by apply list_elem_of_In. }
  rewrite sum_list_zero; [lra|].
  apply Forall_forall. intros v [c [w_c [-> Hc]]]%elem_of_lookup_imap.
  apply sum_list_zero.
  apply Forall_forall. intros v [k [w [-> Hk]]]%elem_of_lookup_imap.
  unfold all3 in Hw. rewrite Forall_lookup in Hw.
  specialize (Hw _ _ Ho). rewrite Forall_lookup in Hw.
  specialize (Hw _ _ Hc). rewrite Forall_lookup in Hw.
  rewrite (Hw _ _ Hk). lra.
Qed.

Lemma conv1d_zero m x y :
  all3 (λ v, v = 0%R) (weight m) → Forall (λ v, v = 0%R) (bias m) →
  conv1d m x = inr y → all3 (λ v, v = 0%R) y.
Proof.
  intros Hw Hb Hy%forM_inv. unfold all3.
  induction Hy as [|s t x y Hs _ IH]; constructor; [|done].
  unfold conv1d_sample in Hs. repeat case_decide; try done.
  apply except_bind_inv in Hs as (xp & _ & Hs).
  case_decide; [done|]. injection Hs as <-.
  apply Forall_forall. intros r [o [w_o [-> Ho]]]%elem_of_lookup_imap.
  apply Forall_fmap, Forall_true. intros j. cbn.
  by apply conv1d_at_zero.
Qed.

Lemma chunk2_all3 (P : R → Prop) x :
  all3 P x → all3 P (chunk2 x).1 ∧ all3 P (chunk2 x).2.
Proof.
  intros Hx. unfold chunk2, narrow, narrow_from, all3. cbn [fst snd].
  split; apply Forall_fmap; (eapply Forall_impl; [exact Hx|]);
    intros s Hs; cbn.
  - by apply Forall_take, Forall_drop.
  - by apply Forall_drop.
Qed.

(** [__init__] creates [end] with the parameters it is given. *)
Lemma build_end cfg w w_end b_end self :
  build cfg w w_end b_end = inr self →
  new_conv1d (cfg_n_channels cfg) (2 * cfg_n_in_channels cfg) 1 1 0
    PadZeros 1 w_end b_end = inr (end_ self).
Proof.
  intros Hb. unfold build in Hb.
  apply except_bind_inv in Hb as (K & HK & Hb).
  do 4 (apply except_bind_inv in Hb as ([] & _ & Hb)).
  apply except_bind_inv in Hb as (m_start & Hstart & Hb).
  apply except_bind_inv in Hb as (m_end & Hend & Hb).
  apply except_bind_inv in Hb as ([conds act] & Hcond & Hb).
  apply except_bind_inv in Hb as ([ins rss] & Hlayers & Hb).
  by injection Hb as <-.
Qed.

(** Whatever [forward] returns is a pair cut from the output of [end]. *)
Lemma forward_inv self audio spect speaker_id a b :
  forward self audio spect speaker_id = inr (a, b) →
  ∃ output out, conv1d (end_ self) output = inr out ∧ (a, b) = chunk2 out.
Proof.
  unfold forward. intros Hf.
  do 6 (apply except_bind_inv in Hf as (? & _ & Hf)).
  apply except_bind_inv in Hf as (out & Hout & Hc).
  eexists _, out. split; [exact Hout|].
  unfold mret, except_ret in Hc. congruence.
Qed.

End wn_facts.

Section wn_claims.
Import Tensor WN.

(** C7 (amended): for a [WN] built from a valid configuration (the
    constructor's assertions ask for an odd kernel size and an even
    [n_channels]; valid adds at least one layer and one channel,
    dilations that are positive, a conditioning of at least
    [2*n_channels*n_layers] channels when the layers read it, and a
    supported upsampling mode) and any parameters of [end], with audio of
    shape [[B, n_in_channels, T]], conditioning of shape
    [[B, cond_in_channels, T_cond]] ([T_cond] is [T] or 1 when the
    conditioning is not upsampled here) and a speaker id for every sample
    when speakers are embedded, [forward] returns two tensors of shape
    [[B, n_in_channels, T]]; and each of the [in_layers], padded by
    [(kernel_size*dilation - dilation)/2] on each side, keeps the time
    length of whatever batch it is given: its first convolution has an odd
    kernel and exactly that padding.  Without these conditions [forward]
    may raise, as the counterexample further down shows. *)
Theorem forward_shapes (cfg : config) (w : initial_weights)
    (w_end : nat → nat → nat → R) (b_end : nat → R) (self : instance)
    (B T T_cond : nat) (audio spect : tensor3)
    (speaker_id : option (list nat)) :
  valid cfg →
  train cfg w w_end b_end = inr self →
  1 ≤ B → 1 ≤ T → 1 ≤ T_cond → 1 ≤ cfg_cond_in_channels cfg →
  (cfg_upsample_first cfg = true → T_cond = T ∨ T_cond = 1) →
  speaker_ok cfg B speaker_id →
  has_shape B (cfg_n_in_channels cfg) T audio →
  has_shape B (cfg_cond_in_channels cfg) T_cond spect →
  (∃ a b,
     forward self audio spect speaker_id = inr (a, b) ∧
     has_shape B (cfg_n_in_channels cfg) T a ∧
     has_shape B (cfg_n_in_channels cfg) T b) ∧
  (∀ i, i < n_layers self →
     ∃ m rest,
       in_layers self !! i = Some (m :: rest) ∧
       kernel_size m `mod` 2 = 1 ∧
       padding m = (kernel_size m * dilation m - dilation m) `div` 2 ∧
       ∀ B' T' x, 1 ≤ T' → has_shape B' (n_channels self) T' x →
         ∃ y, sequential (m :: rest) x = inr y ∧
              has_shape B' (2 * n_channels self) T' y).
Proof.
  intros Hv Hself HB HT HTc HC Hfirst Hok Haudio Hspect.
  pose proof (build_built _ _ _ _ _ Hv Hself) as Hb. split.
  - destruct (forward_before_end _ _ _ _ _ _ _ _ _ _ Hv Hb HB HT HTc HC Hfirst
                Hok Haudio Hspect) as (output & Houtput & ->).
    pose proof (built_end_conv _ _ _ _ Hb) as Hend.
    apply new_conv1d_inv in Hend as (HI & HO & HK & Hd & Hp & _ & Hw & _).
    pose proof (v_channels _ Hv) as Hn.
    rewrite <-HI in Houtput.
    destruct (pointwise_conv_maps_shape (end_ self) HK Hp ltac:(lia)
                ltac:(lia) B T output HT Houtput) as (out & -> & Hout).
    except_run. rewrite Hw in Hout.
    destruct (chunk2_shape B (cfg_n_in_channels cfg) T out HB Hout) as [Ha Hb'].
    exists (chunk2 out).1, (chunk2 out).2.
    by destruct (chunk2 out).
  - rewrite (built_n_layers _ _ _ _ Hb), (built_n_channels _ _ _ _ Hb).
    intros i Hi.
    destruct (built_in_layers _ _ _ _ Hb i Hi)
      as (ms & Hms & (m & rest & -> & Hodd & Hpad) & Hmaps).
    exists m, rest. split_and!; [done..|]. apply Hmaps.
Qed.

(** C5 (amended): the [end] convolution of a freshly constructed [WN]
    has weight and bias zero.  Therefore whatever [forward] returns, for
    any audio and conditioning (of real numbers), is a pair of tensors of
    zeros; and on a valid configuration, with audio of shape
    [[B, n_in_channels, T]], conditioning of shape
    [[B, cond_in_channels, T_cond]] and a speaker id for every sample when
    speakers are embedded, [forward] does return: the pair of zero
    tensors of shape [[B, n_in_channels, T]].  Not every call returns, as the
    counterexample further down shows. *)
Theorem forward_initially_zero (cfg : config) (w : initial_weights)
    (self : instance) :
  init cfg w = inr self →
  all3 (λ v, v = 0%R) (weight (end_ self)) ∧
  Forall (λ v, v = 0%R) (bias (end_ self)) ∧
  (∀ audio spect speaker_id a b,
     forward self audio spect speaker_id = inr (a, b) →
     all3 (λ v, v = 0%R) a ∧ all3 (λ v, v = 0%R) b) ∧
  (∀ (B T T_cond : nat) (audio spect : tensor3)
     (speaker_id : option (list nat)),
     valid cfg →
     1 ≤ B → 1 ≤ T → 1 ≤ T_cond → 1 ≤ cfg_cond_in_channels cfg →
     (cfg_upsample_first cfg = true → T_cond = T ∨ T_cond = 1) →
     speaker_ok cfg B speaker_id →
     has_shape B (cfg_n_in_channels cfg) T audio →
     has_shape B (cfg_cond_in_channels cfg) T_cond spect →
     forward self audio spect speaker_id =
       inr (zeros B (cfg_n_in_channels cfg) T,
            zeros B (cfg_n_in_channels cfg) T)).
Proof.
  intros Hself.
  pose proof (build_end _ _ _ _ _ Hself) as Hend.
  apply new_conv1d_inv in Hend as (HI & _ & HK & Hd & Hp & _ & Hlen & Hw & Hbias).
  assert (all3 (λ v, v = 0%R) (weight (end_ self))) as Hw0.
  { rewrite Hw. unfold all3.
    apply Forall_fmap, Forall_forall. intros o _. unfold compose.
    apply Forall_fmap, Forall_forall. intros c _. unfold compose.
    apply Forall_fmap, Forall_forall. by intros k _. }
  assert (Forall (λ v, v = 0%R) (bias (end_ self))) as Hb0.
  { rewrite Hbias, Forall_fmap. by apply Forall_forall. }
  split_and!; [done..| |].
  - intros audio spect speaker_id a b Hf.
    apply forward_inv in Hf as (output & out & Hout & Hab).
    pose proof (chunk2_all3 (λ v, v = 0%R) out
                  (conv1d_zero _ _ _ Hw0 Hb0 Hout)) as Hc.
    rewrite <-Hab in Hc. exact Hc.
  - intros B T T_cond audio spect speaker_id Hv HB HT HTc HC Hfirst Hok
      Haudio Hspect.
    pose proof (build_built _ _ _ _ _ Hv Hself) as Hb.
    destruct (forward_before_end _ _ _ _ _ _ _ _ _ _ Hv Hb HB HT HTc HC Hfirst
                Hok Haudio Hspect) as (output & Houtput & ->).
    pose proof (v_channels _ Hv) as Hn.
    rewrite <-HI in Houtput.
    destruct (conv1d_shape (end_ self) B T output) as [-> _];
      [lia..|rewrite HK, Hd, Hp; lia|done|].
    except_run.
    assert (conv1d_output (end_ self) T <$> output =
            zeros B (2 * cfg_n_in_channels cfg) T) as ->.
    { destruct Houtput as [<- _]. unfold zeros.
      erewrite const_fmap; [done|]. intros j s _.
      rewrite (conv1d_output_zero _ _ _ Hw0 Hb0), Hlen. unfold conv_length.
      rewrite HK, Hd, Hp. do 2 f_equal. lia. }
    by rewrite chunk2_zeros.
Qed.

End wn_claims.

Section wn_witnesses.
Import Tensor WN WNExample.

Lemma example_valid : valid example_config.
Proof.
  split; cbn; try lia; try done.
  - rewrite decide_False by lia. lia.
  - intros _. unfold upsample_modes. apply list_elem_of_In. cbn. by left.
Qed.

Lemma example_shapes :
  has_shape 1 1 3 example_audio ∧ has_shape 1 1 2 example_spect.
Proof. split; (split; [reflexivity|repeat constructor]). Qed.

Lemma forward_shapes_witness :
  ∃ self a b,
    train example_config example_weights (λ _ _ _, 1%R) (λ _, 0%R)
      = inr self ∧
    forward self example_audio example_spect None = inr (a, b) ∧
    has_shape 1 1 3 a ∧ has_shape 1 1 3 b.
Proof.
  assert (∃ self, train example_config example_weights (λ _ _ _, 1%R)
                    (λ _, 0%R) = inr self) as [self Hself]
    by (eexists; reflexivity).
  destruct (forward_shapes example_config example_weights (λ _ _ _, 1%R)
              (λ _, 0%R) self 1 3 2 example_audio example_spect None)
    as [(a & b & H) _].
  - exact example_valid.
  - exact Hself.
  - lia.
  - lia.
  - lia.
  - cbn. lia.
  - intros [=].
  - intros H. by destruct H.
  - apply example_shapes.
  - apply example_shapes.
  - by exists self, a, b.
Defined.

Lemma forward_initially_zero_witness :
  ∃ self,
    init example_config example_weights = inr self ∧
    all3 (λ v, v = 0%R) (weight (end_ self)) ∧
    forward self example_audio example_spect None =
      inr (zeros 1 1 3, zeros 1 1 3).
Proof.
  assert (∃ self, init example_config example_weights = inr self)
    as [self Hself] by (eexists; reflexivity).
  exists self. split; [exact Hself|].
  destruct (forward_initially_zero example_config example_weights self Hself)
    as (Hw & _ & _ & Hzero).
  split; [exact Hw|].
  apply (Hzero 1 3 2 example_audio example_spect None).
  - exact example_valid.
  - lia.
  - lia.
  - lia.
  - cbn. lia.
  - intros [=].
  - intros H. by destruct H.
  - apply example_shapes.
  - apply example_shapes.
Defined.

(** C5, counterexample: [forward] does not return zeros for every
    audio and conditioning.  A freshly constructed [WN] that embeds
    speakers, called with the default [speaker_id=None], returns nothing:
    its conditioning stack expects three channels and is given one. *)
Lemma forward_initially_zero_counterexample :
  ∃ self,
    init example_config_speakers example_weights = inr self ∧
    forward self example_audio example_spect None = inl RuntimeError.
Proof. eexists. split; reflexivity. Qed.

(** C7, counterexample: an odd kernel size and an even [n_channels] do
    not suffice.  [__init__] accepts a configuration without layers,
    and [forward] then raises [UnboundLocalError] on audio [[1, 1, 3]]. *)
Lemma forward_shapes_counterexample :
  ∃ self,
    train example_config_no_layers example_weights (λ _ _ _, 1%R) (λ _, 0%R)
      = inr self ∧
    has_shape 1 (cfg_n_in_channels example_config_no_layers) 3 example_audio ∧
    forward self example_audio example_spect None = inl UnboundLocalError.
Proof.
  eexists. split_and!; [reflexivity| |reflexivity].
  split; [reflexivity|repeat constructor].
Qed.

End wn_witnesses.

(** * Properties of [FESV_AELoss.forward] *)

Section run_facts.
Import Loss.
Context {dtype : Dtype}.

Lemma read_only_ret {A} (a : A) : read_only (mret a).
Proof. by intros h. Qed.

Lemma read_only_lift {A} (m : except A) : read_only (lift m).
Proof. by intros h. Qed.

Lemma read_only_load l : read_only (load l).
Proof. by intros h. Qed.

Lemma read_only_bind {A B} (m : run A) (k : A → run B) :
  read_only m → (∀ a, read_only (k a)) → read_only (m ≫= k).
Proof.
  intros Hm Hk h. unfold mbind, run_bind. specialize (Hm h).
  destruct (m h) as [[e|a] h']; cbn in *; subst h'; [done|apply Hk].
Qed.

Lemma run_bind_inr {A B} (m : run A) (k : A → run B) h a h' :
  m h = (inr a, h') → (m ≫= k) h = k a h'.
Proof. unfold mbind, run_bind. by intros ->. Qed.

Lemma losses_of_masked_read_only self pred gt loss_scalars B n_mel mask
    file_losses :
  read_only (losses_of_masked self pred gt loss_scalars B n_mel mask
               file_losses).
Proof.
  unfold losses_of_masked.
  repeat (apply read_only_bind;
          [first [apply read_only_load | apply read_only_lift]|intros ?]).
  destruct (colate_losses_tensor _ _ _ _). apply read_only_ret.
Qed.

Lemma masked_fill__run l mask v h x x' :
  h !! l = Some x → masked_fill x mask v = inr x' →
  masked_fill_ l mask v h = (inr tt, <[l := x']> h).
Proof.
  intros Hl Hx. unfold masked_fill_.
  erewrite run_bind_inr; [|unfold load; by rewrite (lookup_total_correct _ _ _ Hl)].
  erewrite run_bind_inr; [|unfold lift; by rewrite Hx]. done.
Qed.

End run_facts.

Section mask_facts.
Import Loss.
Local Open Scope nat_scope.
Implicit Types (x : tensor) (lengths : list nat).

Lemma zipM_replicate {U V W} (f : U → V → except W) (g : U → W)
    (P : U → Prop) (v : V) (a : list U) :
  (∀ u, P u → f u v = inr (g u)) → Forall P a →
  zipM f a (replicate (length a) v) = inr (g <$> a).
Proof.
  intros Hf. induction 1 as [|u a Hu _ IH]; [done|].
  cbn [length replicate zipM]. rewrite (Hf u Hu). except_run.
  rewrite IH. by except_run.
Qed.

Lemma shape_has_shape {A} B C T (x : list (list (list A))) :
  has_shape B C T x → 1 ≤ B → 1 ≤ C → shape x = (B, C, T).
Proof.
  intros [HB Hx] ??. destruct x as [|s x]; [cbn in HB; lia|].
  apply Forall_cons in Hx as [[Hs Hr] _].
  destruct s as [|r s]; [cbn in Hs; lia|].
  apply Forall_cons in Hr as [Hl _]. unfold shape.
  cbn in *. by rewrite HB, Hl, <-Hs.
Qed.

(** The inverted, expanded length mask, utterance by utterance. *)
Lemma invert_expand C lengths :
  invert ((λ row, replicate C row) <$> get_mask_from_lengths lengths) =
  (λ len, replicate C ((λ t, negb (bool_decide (t < len))) <$>
                        seq 0 (foldr Nat.max 0 lengths))) <$> lengths.
Proof.
  unfold invert, get_mask_from_lengths.
  rewrite <-!list_fmap_compose. apply list_fmap_ext. intros _ len _.
  cbn. rewrite fmap_replicate. by rewrite <-list_fmap_compose.
Qed.

Lemma zipM_fmap_r {U V V' W} (f : U → V → except W) (h : V' → V)
    (g : U → V' → W) (P : U → Prop) (a : list U) (b : list V') :
  (∀ u v, P u → f u (h v) = inr (g u v)) → Forall P a →
  zipM f a (h <$> b) = inr (zip_with g a b).
Proof.
  intros Hf Ha. revert b. induction Ha as [|u a Hu _ IH]; intros b.
  - by destruct b.
  - destruct b as [|v b]; [done|].
    cbn [fmap list_fmap zipM zip_with]. rewrite (Hf u v Hu). except_run.
    rewrite (IH b). by except_run.
Qed.

(** On a padded batch [masked_fill] by the inverted length mask
    returns, and what it returns is [masked]. *)
Lemma masked_fill_lengths B C T x lengths :
  has_shape B C T x → length lengths = B → foldr Nat.max 0 lengths = T →
  masked_fill x
    (invert ((λ row, replicate C row) <$> get_mask_from_lengths lengths))
    0%float = inr (masked lengths x).
Proof.
  intros [HB Hx] Hlen Hmax. rewrite invert_expand, Hmax.
  unfold masked_fill, masked. unfold fill_axis at 1.
  rewrite decide_True by (rewrite length_fmap; lia).
  eapply zipM_fmap_r; [|exact Hx]. cbn beta.
  intros s len [Hs Hr]. unfold fill_axis at 1.
  rewrite decide_True by (by rewrite length_replicate).
  rewrite <-Hs. eapply zipM_replicate; [|exact Hr]. cbn beta.
  intros r Hl. cbn beta in Hl. unfold fill_axis.
  rewrite decide_True by (by rewrite length_fmap, length_seq).
  rewrite Hl.
  erewrite (zipM_inr _ (λ v b, if b : bool then 0%float else v)
              (λ _, True) (λ _, True)); [|done|by apply Forall_true..].
  f_equal. rewrite zip_with_fmap_r. apply zip_with_ext; [|done..].
  intros v t. by destruct (bool_decide (t < len)).
Qed.

Lemma has_shape_masked B C T x lengths :
  has_shape B C T x → length lengths = B → has_shape B C T (masked lengths x).
Proof.
  intros [HB Hx] Hlen. unfold masked. split.
  - rewrite length_zip_with. lia.
  - eapply Forall_zip_with_fst; [exact Hx|].
    apply Forall_true. intros len s [Hs Hr]. split.
    + by rewrite length_fmap.
    + apply Forall_fmap. eapply Forall_impl; [exact Hr|].
      intros r Hl. unfold compose. cbn beta in *.
      rewrite length_zip_with, length_seq. lia.
Qed.

(** The frames of an utterance stay, its padded time-steps are zero. *)
Lemma get3_masked x lengths i c t len v :
  lengths !! i = Some len → get3 x i c t = Some v →
  get3 (masked lengths x) i c t =
    Some (if bool_decide (t < len) then v else 0%float).
Proof.
  intros Hlen. unfold get3, masked. rewrite lookup_zip_with, Hlen.
  destruct (x !! i) as [s|]; [|done]. cbn.
  rewrite list_lookup_fmap.
  destruct (s !! c) as [r|]; [|done]. cbn.
  intros Hv. rewrite lookup_zip_with, Hv. cbn.
  rewrite lookup_seq_lt by (by eapply lookup_lt_Some). done.
Qed.

End mask_facts.

Section forward_facts.
Import Loss.
Local Open Scope nat_scope.

(** The first loop returns when [audiopath] and [speaker_id_ext] have an
    entry for every utterance. *)
Lemma new_file_losses_returns clock gt idx : ∀ file_losses,
  Forall (λ i, i < length (audiopath gt) ∧ i < length (speaker_id_ext gt))
         idx →
  ∃ file_losses', new_file_losses clock gt idx file_losses = inr file_losses'.
Proof.
  induction idx as [|i idx IH]; intros file_losses Hidx; [by eexists|].
  apply Forall_cons in Hidx as [[Hp Hs] Hidx]. cbn [new_file_losses].
  destruct (lookup_lt_is_Some_2 _ _ Hp) as [path Hpath].
  destruct (lookup_lt_is_Some_2 _ _ Hs) as [speaker Hspeaker].
  rewrite (py_index_lookup _ _ _ Hpath). except_run.
  destruct (Dict.get path file_losses).
  - except_run. by apply IH.
  - rewrite (py_index_lookup _ _ _ Hspeaker). except_run. by apply IH.
Qed.

End forward_facts.

Section forward_claim.
Import Loss.
Context {dtype : Dtype}.
Local Open Scope nat_scope.

(** C9 (amended): on a batch padded to its longest utterance, with a
    path and a speaker for every utterance and predictions of the shape
    of [gt_mel], [forward] leaves the heap with the tensors of [pred['pred_mel']] and
    [pred['pred_mel_postnet']] overwritten in place: the frames
    [t < mel_lengths[i]] of utterance [i] keep their values and the later
    time-steps hold [0.0].  This holds whether or not the computation of
    the losses that follows returns.  Every other tensor of the heap is
    as it was, and so is the tensor of [gt['gt_mel']] when it is not one
    of the two.  Not every call gets that far, as the
    counterexample further down shows. *)
Theorem forward_masks_predictions (self : FESV_AELoss) (clock : nat → float)
    (pred : predictions) (gt : ground_truth)
    (loss_scalars : gmap string float) (h : heap) (B n_mel T : nat)
    (gt_mel_t pred_mel_t pred_mel_postnet_t : tensor) :
  h !! gt_mel gt = Some gt_mel_t → has_shape B n_mel T gt_mel_t →
  h !! pred_mel pred = Some pred_mel_t → has_shape B n_mel T pred_mel_t →
  h !! pred_mel_postnet pred = Some pred_mel_postnet_t →
  has_shape B n_mel T pred_mel_postnet_t →
  1 ≤ B → 1 ≤ n_mel →
  length (mel_lengths gt) = B → foldr Nat.max 0 (mel_lengths gt) = T →
  B ≤ length (audiopath gt) → B ≤ length (speaker_id_ext gt) →
  ∃ out h',
    forward self clock pred gt loss_scalars h = (out, h') ∧
    (∀ l x, l = pred_mel pred ∨ l = pred_mel_postnet pred →
       h !! l = Some x →
       ∃ x', h' !! l = Some x' ∧ has_shape B n_mel T x' ∧
         ∀ i c t len v,
           mel_lengths gt !! i = Some len → get3 x i c t = Some v →
           get3 x' i c t =
             Some (if bool_decide (t < len) then v else 0%float)) ∧
    (∀ l, l ≠ pred_mel pred → l ≠ pred_mel_postnet pred →
       h' !! l = h !! l) ∧
    (gt_mel gt ≠ pred_mel pred → gt_mel gt ≠ pred_mel_postnet pred →
       h' !! gt_mel gt = Some gt_mel_t).
Proof.
  intros Hg Hgs Hm Hms Hp Hps HB HC Hlen Hmax Hpaths Hspeakers.
  set (lens := mel_lengths gt) in *.
  (* the heap after the two in-place fills *)
  set (h1 := <[pred_mel_postnet pred := masked lens pred_mel_postnet_t]> h).
  assert (∃ y, h1 !! pred_mel pred = Some y ∧ has_shape B n_mel T y ∧
            (y = pred_mel_t ∨ y = masked lens pred_mel_t)) as (y & Hy & Hys & Hyx).
  { subst h1. destruct (decide (pred_mel_postnet pred = pred_mel pred)) as [He|Hne].
    - rewrite He, lookup_insert_eq. eexists. split; [done|].
      rewrite He in Hp. assert (pred_mel_postnet_t = pred_mel_t) as -> by congruence.
      split; [by apply has_shape_masked|by right].
    - rewrite lookup_insert_ne by done. exists pred_mel_t. by split_and!; [..|left]. }
  set (h2 := <[pred_mel pred := masked lens y]> h1).
  assert (∃ out, forward self clock pred gt loss_scalars h = (out, h2))
    as [out Hout].
  { unfold forward.
    erewrite run_bind_inr;
      [|unfold load; by rewrite (lookup_total_correct _ _ _ Hg)].
    rewrite (shape_has_shape _ _ _ _ Hgs HB HC).
    destruct (new_file_losses_returns clock gt (seq 0 B) []) as [fl Hfl].
    { apply Forall_forall. intros i Hi%elem_of_seq. lia. }
    erewrite run_bind_inr; [|unfold lift; by rewrite Hfl].
    erewrite run_bind_inr;
      [|eapply masked_fill__run;
        [exact Hp|by apply (masked_fill_lengths B n_mel T)]].
    erewrite run_bind_inr;
      [|eapply masked_fill__run;
        [exact Hy|by apply (masked_fill_lengths B n_mel T)]].
    fold lens h1 h2.
    pose proof (losses_of_masked_read_only self pred gt loss_scalars B n_mel
                  ((λ row, replicate n_mel row) <$> get_mask_from_lengths lens)
                  fl h2) as Hro.
    destruct (losses_of_masked _ _ _ _ _ _ _ _ h2) as [out h'].
    cbn in Hro. subst h'. by exists out. }
  assert (∀ x i c t len v, lens !! i = Some len → get3 x i c t = Some v →
            (y = x ∨ y = masked lens x) →
            get3 (masked lens y) i c t =
              Some (if bool_decide (t < len) then v else 0%float)) as Hget.
  { intros x i c t len v Hi Hv [->| ->].
    - by apply get3_masked.
    - erewrite get3_masked; [|done|by apply get3_masked].
      by destruct (bool_decide (t < len)). }
  exists out, h2. split; [done|]. split_and!.
  - intros l x Hl Hx.
    destruct (decide (l = pred_mel pred)) as [->|Hne].
    + assert (x = pred_mel_t) as -> by congruence.
      exists (masked lens y). subst h2. rewrite lookup_insert_eq.
      split_and!; [done|by apply has_shape_masked|].
      intros i c t len v Hi Hv. by apply (Hget pred_mel_t).
    + destruct Hl as [->| ->]; [done|].
      assert (x = pred_mel_postnet_t) as -> by congruence.
      exists (masked lens pred_mel_postnet_t). subst h2 h1.
      rewrite lookup_insert_ne, lookup_insert_eq by done.
      split_and!; [done|by apply has_shape_masked|].
      intros i c t len v Hi Hv. by apply get3_masked.
  - intros l Hl1 Hl2. subst h2 h1. by rewrite !lookup_insert_ne.
  - intros Hl1 Hl2. subst h2 h1. by rewrite !lookup_insert_ne.
Qed.

End forward_claim.

Section forward_witness.
Import Loss LossExample.
Local Open Scope nat_scope.

(** On Python numbers the collation of tensors is [colate_losses]. *)
Lemma colate_losses_tensor_float64 self loss_dict loss_scalars loss :
  colate_losses_tensor (dtype:=example_dtype) self loss_dict loss_scalars loss
  = colate_losses self loss_dict loss_scalars loss.
Proof. reflexivity. Qed.

Lemma forward_masks_predictions_witness :
  ∃ loss_dict printed file_losses h',
    forward (dtype:=example_dtype) example_loss (λ _, 0%float) example_pred example_gt ∅
      example_heap = (inr (loss_dict, printed, file_losses), h') ∧
    Dict.get "spec_MSE" loss_dict = Some (Some 1%float) ∧
    (∃ x', h' !! 2%positive = Some x' ∧
       get3 x' 1 0 0 = Some 2%float ∧ get3 x' 1 0 1 = Some 0%float) ∧
    h' !! 3%positive = example_heap !! 3%positive.
Proof.
  destruct (forward_masks_predictions (dtype:=example_dtype) example_loss (λ _, 0%float)
              example_pred example_gt ∅ example_heap 2 2 3
              [[[0; 0; 0]; [0; 0; 0]]; [[1; 1; 1]; [1; 1; 1]]]%float
              [[[1; 1; 1]; [1; 1; 1]]; [[2; 2; 2]; [2; 2; 2]]]%float
              [[[1; 2; 3]; [4; 5; 6]]; [[7; 8; 9]; [10; 11; 12]]]%float)
    as (out & h' & Hrun & Hmask & Hframe & _).
  - reflexivity.
  - split; [reflexivity|]. repeat constructor.
  - reflexivity.
  - split; [reflexivity|]. repeat constructor.
  - reflexivity.
  - split; [reflexivity|]. repeat constructor.
  - lia.
  - lia.
  - reflexivity.
  - reflexivity.
  - cbn. lia.
  - cbn. lia.
  - pose proof (f_equal fst Hrun) as Hout. cbn [fst] in Hout.
    destruct out as [e|[[loss_dict printed] file_losses]].
    + vm_compute in Hout. discriminate.
    + exists loss_dict, printed, file_losses, h'. split; [exact Hrun|].
      split_and!.
      * vm_compute in Hout. injection Hout as <- _ _. reflexivity.
      * destruct (Hmask 2%positive
                    [[[1; 1; 1]; [1; 1; 1]]; [[2; 2; 2]; [2; 2; 2]]]%float)
          as (x' & Hx' & _ & Hget); [by left|reflexivity|].
        exists x'. split; [exact Hx'|]. split.
        -- apply (Hget 1 0 0 1 2%float); reflexivity.
        -- apply (Hget 1 0 1 1 2%float); reflexivity.
      * apply Hframe; discriminate.
Defined.

(** C9, counterexample: not every call masks the predictions.  On a
    batch whose [audiopath] is one entry short the call raises [IndexError] in
    its first loop, and the second utterance of [pred_mel], of length 1,
    still holds [2.0] at time-step 1. *)
Lemma forward_masks_predictions_counterexample :
  ∃ h' x',
    forward (dtype:=example_dtype) example_loss (λ _, 0%float) example_pred
      example_gt_short ∅ example_heap = (inl IndexError, h') ∧
    mel_lengths example_gt_short !! 1 = Some 1 ∧
    h' !! pred_mel example_pred = Some x' ∧
    get3 x' 1 0 1 = Some 2%float.
Proof.
  eexists _, _. split_and!.
  - vm_compute. reflexivity.
  - reflexivity.
  - vm_compute. reflexivity.
  - reflexivity.
Qed.

End forward_witness.

(** * Further properties of [colate_losses] *)

Section colate_more.
Import Loss.
Open Scope float_scope.

Lemma dict_keys_set {V} (k : string) (v : V) (d : Dict.t V) :
  Dict.keys (Dict.set k v d) =
    if decide (k ∈ Dict.keys d) then Dict.keys d else Dict.keys d ++ [k].
Proof.
  unfold Dict.keys. induction d as [|[k' v'] d IH]; [done|].
  cbn [Dict.set fmap list_fmap fst]. destruct (decide (k' = k)) as [->|Hne].
  - rewrite decide_True by left. done.
  - cbn [fmap list_fmap fst]. rewrite IH.
    destruct (decide (k ∈ d.*1)) as [Hin|Hnin].
    + rewrite decide_True by (by right). done.
    + rewrite decide_False; [done|].
      intros [?|?]%elem_of_cons; [congruence|done].
Qed.

(** X1: when [colate_losses] is given a running [loss], it stores that
    value with the terms of strictly positive weight added to it from left
    to right, so the stored loss is never [None]. *)
Theorem colate_losses_running_loss (self : FESV_AELoss)
    (loss_dict : Dict.t float) (loss_scalars : gmap string float)
    (loss : float) :
  Dict.get "loss" (colate_losses self loss_dict loss_scalars (Some loss)).1 =
    Some (Some (foldl PrimFloat.add loss
                  (positive_terms self loss_scalars loss_dict))).
Proof.
  unfold colate_losses. cbn [fst]. rewrite dict_get_set_eq.
  by rewrite (colate_loop_some self loss_scalars loss_dict _ loss).
Qed.

Lemma colate_losses_keys_eq (self : FESV_AELoss) (loss_dict : Dict.t float)
    (loss_scalars : gmap string float) (loss : option float) :
  Dict.keys (colate_losses self loss_dict loss_scalars loss).1 =
    if decide ("loss" ∈ Dict.keys loss_dict) then Dict.keys loss_dict
    else Dict.keys loss_dict ++ ["loss"].
Proof.
  unfold colate_losses. cbn [fst]. rewrite dict_keys_set.
  assert (Dict.keys (fmap (M:=list) (λ kv : string * float, (kv.1, Some kv.2))
                       loss_dict) = Dict.keys loss_dict) as ->; [|done].
  unfold Dict.keys. rewrite <-list_fmap_compose. by apply list_fmap_ext.
Qed.

(** X2: the mapping that [colate_losses] returns lists the components
    in the order of [loss_dict]; ['loss'] comes last when it is a new key
    and keeps its place when [loss_dict] already had it, and then the old
    value is gone. *)
Theorem colate_losses_keys (self : FESV_AELoss) (loss_dict : Dict.t float)
    (loss_scalars : gmap string float) (loss : option float) :
  let r := colate_losses self loss_dict loss_scalars loss in
  Dict.keys r.1 =
    (if decide ("loss" ∈ Dict.keys loss_dict) then Dict.keys loss_dict
     else Dict.keys loss_dict ++ ["loss"]) ∧
  length r.1 = (if decide ("loss" ∈ Dict.keys loss_dict)
                then length loss_dict else S (length loss_dict)).
Proof.
  cbv zeta. split; [apply colate_losses_keys_eq|].
  transitivity
    (length (Dict.keys (colate_losses self loss_dict loss_scalars loss).1));
    [unfold Dict.keys; by rewrite length_fmap|].
  rewrite colate_losses_keys_eq.
  destruct (decide ("loss" ∈ Dict.keys loss_dict));
    unfold Dict.keys; rewrite ?length_app, length_fmap; cbn [length]; lia.
Qed.

End colate_more.

(** * Further properties of [FESV_AELoss.forward] *)

Section forward_more.
Import Loss.
Context {dtype : Dtype}.
Local Open Scope nat_scope.

Lemma masked_idemp lengths (x : tensor) :
  masked lengths (masked lengths x) = masked lengths x.
Proof.
  unfold masked. revert lengths.
  induction x as [|s x IH]; intros [|len lengths]; [done..|].
  cbn [zip_with]. f_equal; [|apply IH].
  rewrite <-list_fmap_compose. apply list_fmap_ext. intros _ r _. cbn.
  rewrite length_zip_with, length_seq, Nat.min_id.
  apply list_eq. intros t. rewrite !lookup_zip_with.
  destruct (r !! t) as [v|] eqn:Hv; [|done]. cbn.
  rewrite lookup_seq_lt by (by eapply lookup_lt_Some). cbn.
  by destruct (bool_decide (t < len)).
Qed.

Lemma mask_at_lookup lengths l h x :
  h !! l = Some x → mask_at lengths l h !! l = Some (masked lengths x).
Proof.
  intros Hl. unfold mask_at.
  by rewrite lookup_insert_eq, (lookup_total_correct _ _ _ Hl).
Qed.

Lemma mask_at_shape lengths l l' h B C T :
  length lengths = B →
  (∃ x, h !! l' = Some x ∧ has_shape B C T x) →
  (∃ x, h !! l = Some x ∧ has_shape B C T x) →
  ∃ x, mask_at lengths l h !! l' = Some x ∧ has_shape B C T x.
Proof.
  intros Hlen (x' & Hx' & Hs') (x & Hx & Hs).
  destruct (decide (l = l')) as [<-|Hne].
  - exists (masked lengths x). split; [by apply mask_at_lookup|].
    by apply has_shape_masked.
  - exists x'. split; [|done]. unfold mask_at. by rewrite lookup_insert_ne.
Qed.

(** Masking a tensor that is masked already changes nothing. *)
Lemma mask_at_masked lengths l h y :
  h !! l = Some (masked lengths y) → mask_at lengths l h = h.
Proof.
  intros Hl. unfold mask_at.
  rewrite (lookup_total_correct _ _ _ Hl), masked_idemp.
  by apply insert_id.
Qed.

Lemma padded_batch_masked_heap pred gt h B n_mel T :
  padded_batch pred gt h B n_mel T →
  padded_batch pred gt (masked_heap pred gt h) B n_mel T.
Proof.
  intros [Hg Hm Hp HB HC Hlen Hmax Hpaths Hspeakers]. unfold masked_heap.
  assert (∀ l', (∃ x, h !! l' = Some x ∧ has_shape B n_mel T x) →
            ∃ x, mask_at (mel_lengths gt) (pred_mel pred)
                   (mask_at (mel_lengths gt) (pred_mel_postnet pred) h) !! l'
                 = Some x ∧ has_shape B n_mel T x) as Hkeep.
  { intros l' Hl'. apply mask_at_shape; [done|..];
      by apply mask_at_shape. }
  split; auto.
Qed.

Lemma masked_heap_idemp pred gt h x y :
  h !! pred_mel pred = Some x → h !! pred_mel_postnet pred = Some y →
  masked_heap pred gt (masked_heap pred gt h) = masked_heap pred gt h.
Proof.
  intros Hx Hy. unfold masked_heap.
  set (lens := mel_lengths gt).
  set (h1 := mask_at lens (pred_mel_postnet pred) h).
  assert (h1 !! pred_mel_postnet pred = Some (masked lens y)) as Hy1
    by by apply mask_at_lookup.
  assert (∃ x1, h1 !! pred_mel pred = Some x1) as [x1 Hx1].
  { destruct (decide (pred_mel_postnet pred = pred_mel pred)) as [<-|Hne];
      [by eexists|].
    exists x. unfold h1, mask_at. by rewrite lookup_insert_ne. }
  set (h2 := mask_at lens (pred_mel pred) h1).
  assert (h2 !! pred_mel pred = Some (masked lens x1)) as Hx2
    by by apply mask_at_lookup.
  assert (∃ y2, h2 !! pred_mel_postnet pred = Some (masked lens y2))
    as [y2 Hy2].
  { destruct (decide (pred_mel pred = pred_mel_postnet pred)) as [<-|Hne];
      [by eexists|].
    exists y. unfold h2, mask_at. by rewrite lookup_insert_ne. }
  rewrite (mask_at_masked lens (pred_mel_postnet pred) h2 y2 Hy2).
  by apply (mask_at_masked lens (pred_mel pred) h2 x1).
Qed.

(** On a padded batch [forward] gets as far as the computation of the
    losses, which it runs on the masked heap. *)
Lemma forward_on_padded_batch self clock pred gt loss_scalars h B n_mel T :
  padded_batch pred gt h B n_mel T →
  ∃ file_losses,
    new_file_losses clock gt (seq 0 B) [] = inr file_losses ∧
    forward self clock pred gt loss_scalars h =
      losses_of_masked self pred gt loss_scalars B n_mel
        ((λ row, replicate n_mel row) <$>
         get_mask_from_lengths (mel_lengths gt))
        file_losses (masked_heap pred gt h).
Proof.
  intros [(g & Hg & Hgs) Hm (y & Hy & Hys) HB HC Hlen Hmax Hpaths Hspeakers].
  destruct (new_file_losses_returns clock gt (seq 0 B) []) as [fl Hfl].
  { apply Forall_forall. intros i Hi%elem_of_seq. lia. }
  exists fl. split; [done|]. unfold forward.
  erewrite run_bind_inr;
    [|unfold load; by rewrite (lookup_total_correct _ _ _ Hg)].
  rewrite (shape_has_shape _ _ _ _ Hgs HB HC).
  erewrite run_bind_inr; [|unfold lift; by rewrite Hfl].
  erewrite run_bind_inr;
    [|eapply masked_fill__run;
      [exact Hy|by apply (masked_fill_lengths B n_mel T)]].
  destruct (mask_at_shape (mel_lengths gt) (pred_mel_postnet pred)
              (pred_mel pred) h B n_mel T Hlen Hm)
    as (x1 & Hx1 & Hxs1); [by eexists|].
  unfold mask_at in Hx1. rewrite (lookup_total_correct _ _ _ Hy) in Hx1.
  erewrite run_bind_inr;
    [|eapply masked_fill__run;
      [exact Hx1|by apply (masked_fill_lengths B n_mel T)]].
  unfold masked_heap, mask_at.
  rewrite (lookup_total_correct _ _ _ Hy).
  by rewrite (lookup_total_correct _ _ _ Hx1).
Qed.

End forward_more.

Section forward_values.
Import Loss.
Context {dtype : Dtype}.
Local Open Scope nat_scope.
Implicit Types (x y : tensor) (lengths : list nat) (r : list float).

(** The row of the length mask for an utterance of [len] frames. *)
Let row_mask (T len : nat) : list bool :=
  (λ t, bool_decide (t < len)) <$> seq 0 T.

Lemma mask_rows C lengths :
  (λ row, replicate C row) <$> get_mask_from_lengths lengths =
  (λ len, replicate C (row_mask (foldr Nat.max 0 lengths) len)) <$> lengths.
Proof.
  unfold get_mask_from_lengths. rewrite <-list_fmap_compose.
  by apply list_fmap_ext.
Qed.

Lemma lengths_le_max lengths :
  Forall (λ len, len ≤ foldr Nat.max 0 lengths) lengths.
Proof.
  induction lengths as [|len lengths IH]; [done|]. cbn [foldr].
  constructor; [lia|]. eapply Forall_impl; [exact IH|]. cbn. lia.
Qed.

Lemma select_row r len : ∀ k,
  concat (zip_with (λ a (b : bool), if b then [a] else []) r
            ((λ t, bool_decide (t < len)) <$> seq k (length r))) =
  take (len - k) r.
Proof.
  induction r as [|a r IH]; intros k; [by rewrite take_nil|].
  cbn [length seq fmap list_fmap zip_with concat]. rewrite IH.
  case_bool_decide.
  - replace (len - k) with (S (len - S k)) by lia. done.
  - replace (len - k) with 0 by lia. replace (len - S k) with 0 by lia.
    by rewrite take_0.
Qed.

Lemma select_utterance (s : list (list float)) T len :
  Forall (λ r, length r = T) s →
  concat (concat (zip_with (zip_with (λ a (b : bool), if b then [a] else []))
                    s (replicate (length s) (row_mask T len)))) =
  concat (take len <$> s).
Proof.
  induction 1 as [|r s Hr _ IH]; [done|].
  cbn [length replicate zip_with concat fmap list_fmap].
  rewrite concat_app, IH. f_equal.
  unfold row_mask. rewrite <-Hr, select_row. f_equal. lia.
Qed.

Lemma mask_shape B C T lengths :
  length lengths = B →
  has_shape B C T ((λ len, replicate C (row_mask T len)) <$> lengths).
Proof.
  intros Hlen. split; [by rewrite length_fmap|].
  apply Forall_fmap, Forall_true. intros len. cbn.
  split; [by rewrite length_replicate|].
  apply Forall_replicate. unfold row_mask. by rewrite length_fmap, length_seq.
Qed.

(** What [masked_select] picks on a padded batch: the frames of the
    utterances. *)
Lemma masked_select_frames B C T x lengths :
  has_shape B C T x → length lengths = B → foldr Nat.max 0 lengths = T →
  masked_select x ((λ row, replicate C row) <$> get_mask_from_lengths lengths)
    = inr (concat (utterance_frames lengths x)).
Proof.
  intros Hx Hlen Hmax. rewrite mask_rows, Hmax.
  pose proof (mask_shape B C T lengths Hlen) as [HmB Hm].
  destruct Hx as [HxB Hx]. unfold masked_select.
  erewrite (broadcast_same_length _
              (zip_with (zip_with (λ a (b : bool), if b then [a] else []))));
    [|..|exact Hx|exact Hm]; [|clear; intros s m [Hs Hr] [Hms Hmr]|congruence].
  2:{ eapply broadcast_same_length; [|congruence|exact Hr|exact Hmr].
      intros r row Hl Hrow. cbn beta in *.
      eapply (broadcast_same_length _ _ (λ _, True) (λ _, True));
        [done|congruence|by apply Forall_true..]. }
  except_run. f_equal. unfold utterance_frames.
  clear HmB Hm HxB Hlen Hmax. revert lengths.
  induction Hx as [|s x [Hs Hr] _ IH]; intros [|len lengths]; [done..|].
  cbn [fmap list_fmap zip_with concat]. rewrite !concat_app, IH. f_equal.
  rewrite <-Hs. by apply select_utterance.
Qed.

Lemma take_masked_row r len :
  take len (zip_with (λ v t, if bool_decide (t < len) then v else 0%float)
              r (seq 0 (length r))) = take len r.
Proof.
  apply list_eq. intros t. destruct (decide (t < len)) as [Ht|Ht].
  - rewrite !lookup_take_lt, lookup_zip_with by done.
    destruct (r !! t) as [v|] eqn:Hv; [|done]. cbn.
    rewrite lookup_seq_lt by (by eapply lookup_lt_Some). cbn.
    by rewrite bool_decide_true.
  - by rewrite !lookup_take_ge by lia.
Qed.

(** Masking keeps the frames of the utterances. *)
Lemma utterance_frames_masked lengths x :
  utterance_frames lengths (masked lengths x) = utterance_frames lengths x.
Proof.
  unfold utterance_frames, masked. revert lengths.
  induction x as [|s x IH]; intros [|len lengths]; [done..|].
  cbn [zip_with]. f_equal; [|apply IH]. f_equal.
  rewrite <-list_fmap_compose. apply list_fmap_ext. intros _ r _. cbn.
  apply take_masked_row.
Qed.

Lemma utterance_frames_lengths B C T x lengths :
  has_shape B C T x → length lengths = B →
  Forall (λ len, len ≤ T) lengths →
  length <$> utterance_frames lengths x = (λ len, len * C) <$> lengths.
Proof.
  intros [HB Hx] Hlen Hle. unfold utterance_frames. subst B.
  revert lengths Hlen Hle.
  induction Hx as [|s x [Hs Hr] _ IH]; intros [|len lengths] Hlen Hle;
    [done..|].
  apply Forall_cons in Hle as [Hl Hle]. cbn in Hlen.
  cbn [zip_with fmap list_fmap]. f_equal; [|apply IH; [lia|done]].
  rewrite <-Hs. clear Hs IH. induction Hr as [|r s Hr _ IH]; [cbn; lia|].
  cbn [fmap list_fmap concat length]. rewrite length_app, IH, length_take.
  cbn beta in Hr. lia.
Qed.

Lemma squared_error_same_length (a b : list float) :
  length a = length b → squared_error a b = inr (squared_errors a b).
Proof.
  intros Hl. unfold squared_error, squared_errors.
  eapply (broadcast_same_length _ _ (λ _, True) (λ _, True));
    [done|done|by apply Forall_true..].
Qed.

Lemma zip_with_concat {U V W} (f : U → V → W) (la : list (list U))
    (lb : list (list V)) :
  length <$> la = length <$> lb →
  zip_with f (concat la) (concat lb) = concat (zip_with (zip_with f) la lb).
Proof.
  revert lb. induction la as [|a la IH]; intros [|b lb] Hl; [done..|].
  cbn in Hl. injection Hl as Hab Hl. cbn [concat zip_with].
  rewrite zip_with_app by done. f_equal. by apply IH.
Qed.

Lemma chunks_concat {U} (l : list (list U)) :
  chunks (concat l) (length <$> l) = l.
Proof.
  induction l as [|a l IH]; [done|].
  cbn [concat fmap list_fmap chunks].
  rewrite take_app_length, drop_app_length. by f_equal.
Qed.

Lemma split_concat {U} (l : list (list U)) (sizes : list nat) :
  sizes = length <$> l → split (concat l) sizes = inr l.
Proof.
  intros ->. unfold split. rewrite decide_True.
  - by rewrite chunks_concat.
  - induction l as [|a l IH]; [done|]. cbn. rewrite length_app. lia.
Qed.

Lemma utterance_errors_lengths B C T x y lengths :
  has_shape B C T x → has_shape B C T y → length lengths = B →
  Forall (λ len, len ≤ T) lengths →
  length <$> utterance_errors lengths x y = (λ len, len * C) <$> lengths ∧
  squared_errors (concat (utterance_frames lengths x))
                 (concat (utterance_frames lengths y)) =
    concat (utterance_errors lengths x y).
Proof.
  intros Hx Hy Hlen Hle.
  pose proof (utterance_frames_lengths _ _ _ _ _ Hx Hlen Hle) as Hlx.
  pose proof (utterance_frames_lengths _ _ _ _ _ Hy Hlen Hle) as Hly.
  split.
  - unfold utterance_errors. rewrite <-Hlx.
    apply list_eq. intros i. rewrite !list_lookup_fmap, lookup_zip_with.
    pose proof (f_equal (λ l, l !! i) Hlx) as Hi.
    pose proof (f_equal (λ l, l !! i) Hly) as Hi'. cbn beta in Hi, Hi'.
    rewrite <-Hi', !list_lookup_fmap in Hi.
    destruct (utterance_frames lengths x !! i) as [a|],
      (utterance_frames lengths y !! i) as [b|]; try done.
    cbn in *. injection Hi as Hi. unfold squared_errors.
    rewrite length_zip_with. f_equal. lia.
  - unfold squared_errors at 1, utterance_errors.
    apply zip_with_concat. congruence.
Qed.

End forward_values.

Section file_losses.
Import Loss.
Context {dtype : Dtype}.
Local Open Scope nat_scope.

Lemma dict_get_keys {V} (k : string) (d : Dict.t V) :
  Dict.get k d = None ↔ k ∉ Dict.keys d.
Proof.
  unfold Dict.keys. induction d as [|[k' v] d IH]; cbn.
  - split; [|done]. intros _ Hin. by apply elem_of_nil in Hin.
  - destruct (decide (k' = k)) as [->|Hne].
    + split; [done|]. intros Hnin. destruct Hnin. by left.
    + rewrite IH, not_elem_of_cons.
      split; [intros ?; split; [congruence|done]|by intros [_ ?]].
Qed.

Lemma dict_keys_set_nodup {V} (k : string) (v : V) (d : Dict.t V) :
  NoDup (Dict.keys d) → NoDup (Dict.keys (Dict.set k v d)).
Proof.
  intros Hd. rewrite dict_keys_set. case_decide; [done|].
  apply NoDup_app. split_and!; [done| |apply NoDup_singleton].
  intros k' Hk' ->%list_elem_of_singleton. done.
Qed.

Lemma dict_set_set {V} (k : string) (v v' : V) (d : Dict.t V) :
  Dict.set k v' (Dict.set k v d) = Dict.set k v' d.
Proof.
  induction d as [|[k0 v0] d IH]; cbn.
  - by rewrite decide_True.
  - destruct (decide (k0 = k)) as [->|Hne]; cbn.
    + by rewrite decide_True.
    + rewrite decide_False by done. by rewrite IH.
Qed.

Lemma dict_get_set {V} (k k' : string) (v : V) (d : Dict.t V) :
  Dict.get k (Dict.set k' v d) =
    if decide (k = k') then Some v else Dict.get k d.
Proof.
  case_decide as Hk; [subst; apply dict_get_set_eq|by apply dict_get_set_ne].
Qed.

(** The first loop: an entry that exists stays, and a path without one
    gets the entry of the first round that meets it. *)
Lemma new_file_losses_spec clock gt idx : ∀ fl fl',
  new_file_losses clock gt idx fl = inr fl' →
  (NoDup (Dict.keys fl) → NoDup (Dict.keys fl')) ∧
  ∀ path, Dict.get path fl' =
    match Dict.get path fl with
    | Some entry => Some entry
    | None => new_entry clock gt <$> first_round (audiopath gt) path idx
    end.
Proof.
  induction idx as [|i idx IH]; intros fl fl' Hrun; cbn [new_file_losses] in Hrun.
  - injection Hrun as <-. split; [done|]. intros path. cbn.
    by destruct (Dict.get path fl).
  - apply except_bind_inv in Hrun as (p & Hp%py_index_inv & Hrun).
    apply except_bind_inv in Hrun as (fl1 & Hfl1 & Hrun).
    apply IH in Hrun as [Hnd Hget]. cbn [first_round].
    destruct (Dict.get p fl) as [e|] eqn:He.
    + injection Hfl1 as <-. split; [done|]. intros path. rewrite Hget.
      destruct (Dict.get path fl) eqn:Hpath; [done|].
      rewrite decide_False; [done|]. intros Hi. congruence.
    + apply except_bind_inv in Hfl1 as (sid & Hsid%py_index_inv & Hfl1).
      apply except_bind_inv in Hfl1 as (p' & Hp'%py_index_inv & Hfl1).
      injection Hfl1 as <-. assert (p' = p) as -> by congruence.
      split; [intros Hd; by apply Hnd, dict_keys_set_nodup|].
      intros path. rewrite Hget, dict_get_set.
      destruct (decide (path = p)) as [->|Hne].
      * rewrite He, decide_True by done. cbn. unfold new_entry.
        by rewrite Hsid.
      * destruct (Dict.get path fl); [done|].
        rewrite decide_False; [done|]. congruence.
Qed.

(** The second loop returns when every round finds its path, its losses
    and its entry; it stores under ['spec_MSE'] the mean of the last round
    of each path and adds no entry. *)
Lemma set_file_losses_spec gt losses idx : ∀ fl,
  Forall (λ i, ∃ p, audiopath gt !! i = Some p ∧ is_Some (losses !! i) ∧
                    is_Some (Dict.get p fl)) idx →
  ∃ fl', set_file_losses gt losses idx fl = inr fl' ∧
    Dict.keys fl' = Dict.keys fl ∧
    ∀ path, Dict.get path fl' =
      match last_round (audiopath gt) path idx with
      | Some j =>
          Dict.set "spec_MSE" (Float (t_mean (default [] (losses !! j)))) <$>
          Dict.get path fl
      | None => Dict.get path fl
      end.
Proof.
  induction idx as [|i idx IH]; intros fl Hidx; cbn [set_file_losses].
  - exists fl. by split_and!.
  - apply Forall_cons in Hidx as [(p & Hp & [l Hl] & [e He]) Hidx].
    rewrite (py_index_lookup _ _ _ Hp). except_run.
    rewrite (py_index_lookup _ _ _ Hl). except_run.
    rewrite He. except_run.
    set (fl1 := Dict.set p (Dict.set "spec_MSE" (Float (t_mean l)) e) fl).
    destruct (IH fl1) as (fl' & -> & Hkeys & Hget).
    { eapply Forall_impl; [exact Hidx|]. intros j (q & Hq & Hlj & Hej).
      exists q. split_and!; [done..|]. unfold fl1. rewrite dict_get_set.
      by case_decide. }
    exists fl'. split; [done|]. split.
    + rewrite Hkeys. unfold fl1. rewrite dict_keys_set.
      rewrite decide_True; [done|].
      destruct (decide (p ∈ Dict.keys fl)) as [|Hn]; [done|].
      apply dict_get_keys in Hn. congruence.
    + intros path. rewrite Hget. cbn [last_round]. unfold fl1.
      rewrite dict_get_set.
      destruct (last_round (audiopath gt) path idx) as [j|].
      * destruct (decide (path = p)) as [->|Hne]; [|done].
        rewrite He. cbn. by rewrite dict_set_set.
      * destruct (decide (path = p)) as [->|Hne].
        -- rewrite decide_True by done. rewrite He, Hl. done.
        -- rewrite decide_False; [done|]. congruence.
Qed.

Lemma first_round_seq paths path B i :
  i < B → paths !! i = Some path →
  (∀ j, j < i → paths !! j ≠ Some path) →
  first_round paths path (seq 0 B) = Some i.
Proof.
  intros Hi Hp Hfirst.
  assert (∀ k n, k ≤ i → i < k + n →
            first_round paths path (seq k n) = Some i) as Hgen.
  { intros k n. revert k. induction n as [|n IH]; intros k Hk Hn; [lia|].
    cbn [seq first_round]. destruct (decide (k = i)) as [->|Hne].
    - by rewrite decide_True.
    - rewrite decide_False by (apply Hfirst; lia). apply IH; lia. }
  apply Hgen; lia.
Qed.

Lemma last_round_seq paths path B j :
  j < B → paths !! j = Some path →
  (∀ k, j < k → k < B → paths !! k ≠ Some path) →
  last_round paths path (seq 0 B) = Some j.
Proof.
  intros Hj Hp Hlast.
  assert (∀ n k, k + n = B →
            last_round paths path (seq k n) =
              if decide (k ≤ j) then Some j else None) as Hgen.
  { induction n as [|n IH]; intros k Hk.
    - cbn. rewrite decide_False by lia. done.
    - cbn [seq last_round]. rewrite IH by lia.
      destruct (decide (S k ≤ j)).
      + by rewrite decide_True by lia.
      + destruct (decide (k = j)) as [->|Hne].
        * by rewrite !decide_True by done.
        * destruct (decide (k ≤ j)); [lia|].
          rewrite decide_False; [done|]. apply Hlast; lia. }
  rewrite (Hgen B 0) by lia. by rewrite decide_True by lia.
Qed.

Lemma first_round_Some paths path idx i :
  first_round paths path idx = Some i → i ∈ idx ∧ paths !! i = Some path.
Proof.
  induction idx as [|k idx IH]; [done|]. cbn. case_decide.
  - intros [= ->]. split; [by left|done].
  - intros [??]%IH. split; [by right|done].
Qed.

Lemma first_round_None paths path idx :
  first_round paths path idx = None →
  ∀ i, i ∈ idx → paths !! i ≠ Some path.
Proof.
  induction idx as [|k idx IH]; cbn; [by intros _ i ?%elem_of_nil|].
  case_decide; [done|]. intros Hn i [->|Hi]%elem_of_cons; [done|by apply IH].
Qed.

End file_losses.

Section forward_again.
Import Loss.
Context {dtype : Dtype}.
Local Open Scope nat_scope.

Lemma dict_rel_get {V} (R : string → V → V → Prop) (d d' : Dict.t V) k :
  dict_rel R d d' →
  match Dict.get k d, Dict.get k d' with
  | Some v, Some v' => R k v v'
  | None, None => True
  | _, _ => False
  end.
Proof.
  induction 1 as [|[k1 v1] [k2 v2] d d' [Hk Hv] _ IH]; cbn in *; [done|].
  subst k2. by destruct (decide (k1 = k)) as [->|].
Qed.

Lemma dict_rel_set {V} (R : string → V → V → Prop) (d d' : Dict.t V) k v v' :
  dict_rel R d d' → R k v v' → dict_rel R (Dict.set k v d) (Dict.set k v' d').
Proof.
  intros Hd Hv.
  induction Hd as [|[k1 v1] [k2 v2] d d' [Hk Hv1] Hd IH]; cbn in *.
  - by repeat constructor.
  - subst k2. destruct (decide (k1 = k)) as [->|]; by constructor.
Qed.

Lemma dict_rel_refl {V} (R : string → V → V → Prop) (d : Dict.t V) :
  (∀ k v, R k v v) → dict_rel R d d.
Proof. intros HR. unfold dict_rel. induction d; by constructor. Qed.

(** The first loop with another clock makes the same entries, times
    apart. *)
Lemma new_file_losses_rel clock clock' gt idx : ∀ fl fl',
  same_but_time fl fl' →
  except_rel same_but_time (new_file_losses clock gt idx fl)
    (new_file_losses clock' gt idx fl').
Proof.
  induction idx as [|i idx IH]; intros fl fl' Hfl; cbn [new_file_losses];
    [done|].
  destruct (py_index (audiopath gt) i) as [e|path]; [done|]. except_run.
  pose proof (dict_rel_get _ _ _ path Hfl) as Hget.
  destruct (Dict.get path fl), (Dict.get path fl'); try done.
  - except_run. by apply IH.
  - destruct (py_index (speaker_id_ext gt) i) as [e|speaker]; [done|].
    except_run. apply IH. apply dict_rel_set; [done|].
    repeat constructor; done.
Qed.

Lemma set_file_losses_rel gt losses idx : ∀ fl fl',
  same_but_time fl fl' →
  except_rel same_but_time (set_file_losses gt losses idx fl)
    (set_file_losses gt losses idx fl').
Proof.
  induction idx as [|i idx IH]; intros fl fl' Hfl; cbn [set_file_losses];
    [done|].
  destruct (py_index (audiopath gt) i) as [e|path]; [done|]. except_run.
  destruct (py_index losses i) as [e|loss]; [done|]. except_run.
  pose proof (dict_rel_get _ _ _ path Hfl) as Hget.
  destruct (Dict.get path fl), (Dict.get path fl'); try done.
  except_run. apply IH. apply dict_rel_set; [done|].
  by apply dict_rel_set.
Qed.

Ltac run_case :=
  lazymatch goal with
  | |- except_rel _ (fst (match ?m with inl _ => _ | inr _ => _ end)) _ =>
      destruct m; cbn beta iota; [exact eq_refl|]
  end.

(** The computation of the losses passes [file_losses] on: with
    diagnostics that differ in their times it computes the same losses
    and returns diagnostics that differ in their times. *)
Lemma losses_of_masked_rel self pred gt loss_scalars B n_mel mask fl fl' h :
  same_but_time fl fl' →
  except_rel same_result_but_time
    (losses_of_masked self pred gt loss_scalars B n_mel mask fl h).1
    (losses_of_masked self pred gt loss_scalars B n_mel mask fl' h).1.
Proof.
  intros Hfl. unfold losses_of_masked, mbind, run_bind, lift, load.
  cbn beta iota. do 4 run_case.
  match goal with
  | |- context [set_file_losses ?g ?l ?i fl] =>
      pose proof (set_file_losses_rel g l i fl fl' Hfl) as Hset;
      destruct (set_file_losses g l i fl) as [e|f],
               (set_file_losses g l i fl') as [e'|f']
  end; cbn in Hset; try done; cbn beta iota.
  do 8 run_case.
  destruct (colate_losses_tensor _ _ _ _) as [ld pr]. by split.
Qed.

(** X3: a second call of [forward] with the same arguments, at a later
    time, finds the predictions masked already and leaves every tensor
    as the first call left it.  It raises what the first call raised, or
    returns the same losses and printed lines and per-file diagnostics
    that differ from those of the first call at most in the ['time']
    entries. *)
Theorem forward_twice (self : FESV_AELoss) (clock clock' : nat → float)
    (pred : predictions) (gt : ground_truth)
    (loss_scalars : gmap string float) (h : heap) (B n_mel T : nat) :
  padded_batch pred gt h B n_mel T →
  ∃ out out' h',
    forward self clock pred gt loss_scalars h = (out, h') ∧
    forward self clock' pred gt loss_scalars h' = (out', h') ∧
    except_rel same_result_but_time out out'.
Proof.
  intros Hb.
  destruct (forward_on_padded_batch self clock pred gt loss_scalars h
              B n_mel T Hb) as (fl & Hfl & Hrun).
  destruct (forward_on_padded_batch self clock' pred gt loss_scalars
              (masked_heap pred gt h) B n_mel T
              (padded_batch_masked_heap _ _ _ _ _ _ Hb))
    as (fl' & Hfl' & Hrun').
  destruct (pb_pred_mel _ _ _ _ _ _ Hb) as (x & Hx & _).
  destruct (pb_pred_mel_postnet _ _ _ _ _ _ Hb) as (y & Hy & _).
  rewrite (masked_heap_idemp pred gt h x y Hx Hy) in Hrun'.
  set (mask := (λ row, replicate n_mel row) <$>
               get_mask_from_lengths (mel_lengths gt)) in *.
  pose proof (losses_of_masked_read_only self pred gt loss_scalars B n_mel
                mask fl (masked_heap pred gt h)) as Hro.
  pose proof (losses_of_masked_read_only self pred gt loss_scalars B n_mel
                mask fl' (masked_heap pred gt h)) as Hro'.
  assert (same_but_time fl fl') as Hrel.
  { pose proof (new_file_losses_rel clock clock' gt (seq 0 B) [] []) as Hr.
    rewrite Hfl, Hfl' in Hr. apply Hr. constructor. }
  pose proof (losses_of_masked_rel self pred gt loss_scalars B n_mel mask
                fl fl' (masked_heap pred gt h) Hrel) as Hres.
  destruct (losses_of_masked _ _ _ _ _ _ _ fl (masked_heap pred gt h))
    as [out h1].
  destruct (losses_of_masked _ _ _ _ _ _ _ fl' (masked_heap pred gt h))
    as [out' h2].
  cbn in Hro, Hro', Hres. subst h1 h2.
  exists out, out', (masked_heap pred gt h).
  by rewrite Hrun, Hrun'.
Qed.

End forward_again.

Section frame_scaled.
Import Loss.
Context {dtype : Dtype}.
Local Open Scope nat_scope.
Implicit Types (x y : tensor) (lengths : list nat).

Let ad (u v : float) : float := t_abs (t_sub u v).

Lemma absolute_error_same_shape B C T x y :
  has_shape B C T x → has_shape B C T y →
  absolute_error x y = inr (zip_with (zip_with (zip_with ad)) x y).
Proof.
  intros [HxB Hx] [HyB Hy]. unfold absolute_error.
  eapply broadcast_same_length; [|congruence|exact Hx|exact Hy].
  intros s1 s2 [Hs1 Hr1] [Hs2 Hr2].
  eapply broadcast_same_length; [|congruence|exact Hr1|exact Hr2].
  intros r1 r2 Hl1 Hl2. cbn beta in *.
  eapply (broadcast_same_length _ _ (λ _, True) (λ _, True));
    [done|congruence|by apply Forall_true..].
Qed.

(** A mask of one value along an axis is used for every position of the
    axis. *)
Lemma broadcast_singleton {U V W} (f : U → V → except W) (g : U → V → W)
    (a : list U) (v : V) :
  (∀ u, f u v = inr (g u v)) → a ≠ [] →
  broadcast f a [v] = inr ((λ u, g u v) <$> a).
Proof.
  intros Hf Ha. unfold broadcast. case_decide as Hl.
  - destruct a as [|u [|??]]; [done| |done]. cbn. rewrite Hf. by except_run.
  - destruct a as [|u [|u' a]]; [done|done|].
    apply forM_inr. apply Forall_true. intros u0. apply Hf.
Qed.

Lemma omap_total {U V} (f : U → option V) (g : U → V) (l : list U) :
  Forall (λ u, f u = Some (g u)) l → omap f l = g <$> l.
Proof.
  induction 1 as [|u l Hu _ IH]; [done|]. cbn. by rewrite Hu, IH.
Qed.

Lemma omap_replicate {U V} (f : U → option V) (u : U) (v : V) n :
  f u = Some v → omap f (replicate n u) = replicate n v.
Proof. intros Hf. induction n as [|n IH]; [done|]. cbn. by rewrite Hf, IH. Qed.

(** [transpose(1, 2)] on a tensor [[B, C, T]] with at least one channel. *)
Lemma transpose12_shape {U} B C T (X : list (list (list U))) :
  has_shape B C T X → 1 ≤ C →
  transpose12 X =
    fmap (M:=list)
      (λ s : list (list U),
         fmap (M:=list) (λ t, omap (M:=list) (λ r : list U, r !! t) s)
              (seq 0 T)) X.
Proof.
  intros [_ HX] HC. unfold transpose12. apply list_fmap_ext. intros i s Hs.
  eapply Forall_lookup_1 in HX as [Hl Hr]; [|exact Hs].
  destruct s as [|r s']; [cbn in Hl; lia|].
  apply Forall_cons in Hr as [-> _]. done.
Qed.

(** The mask of [forward] after [mask.transpose(1, 2)[:, :, :1]]. *)
Lemma mask_frames C T lengths :
  1 ≤ C →
  fmap (M:=list) (fmap (M:=list) (take 1))
    (transpose12 ((λ len, replicate C ((λ t, bool_decide (t < len)) <$>
                                       seq 0 T)) <$> lengths)) =
  (λ len, (λ t, [bool_decide (t < len)]) <$> seq 0 T) <$> lengths.
Proof.
  intros HC. unfold transpose12. rewrite <-!list_fmap_compose.
  apply list_fmap_ext. intros _ len _. cbn.
  destruct C as [|C]; [lia|]. cbn [replicate].
  rewrite length_fmap, length_seq, <-list_fmap_compose.
  apply list_fmap_ext. intros j t [-> Hj]%lookup_seq. cbn.
  rewrite (omap_replicate _ _ (bool_decide (j < len))).
  - by rewrite list_lookup_fmap, lookup_seq_lt.
  - by rewrite list_lookup_fmap, lookup_seq_lt.
Qed.

Lemma select_frame (row : list float) (b : bool) :
  concat ((λ u, if b then [u] else []) <$> row) = if b then row else [].
Proof.
  destruct b; induction row as [|u row IH]; cbn; by rewrite ?IH.
Qed.

Lemma select_frames (s : list (list float)) len : ∀ k,
  concat (concat (zip_with
    (λ row (m : list bool),
       (λ u, if default false (head m) then [u] else []) <$> row)
    s ((λ t, [bool_decide (t < len)]) <$> seq k (length s)))) =
  concat (take (len - k) s).
Proof.
  induction s as [|row s IH]; intros k; [by rewrite take_nil|].
  cbn [length seq fmap list_fmap zip_with concat head default].
  rewrite concat_app, IH, select_frame. case_bool_decide.
  - replace (len - k) with (S (len - S k)) by lia. done.
  - replace (len - k) with 0 by lia. replace (len - S k) with 0 by lia.
    by rewrite take_0.
Qed.

(** What [masked_select] picks of a tensor [[B, T, C]] with the mask
    [[B, T, 1]]: the rows of the frames of the utterances. *)
Lemma masked_select_rows B C T (Y : tensor) lengths :
  has_shape B T C Y → 1 ≤ C → length lengths = B →
  masked_select Y
    ((λ len, (λ t, [bool_decide (t < len)]) <$> seq 0 T) <$> lengths) =
  inr (concat (concat (zip_with (λ s len, take len s) Y lengths))).
Proof.
  intros [HB HY] HC Hlen. unfold masked_select.
  erewrite (broadcast_same_length _
    (zip_with (λ row (m : list bool),
       (λ u, if default false (head m) then [u] else []) <$> row))
    (λ s, length s = T ∧ Forall (λ r, length r = C) s)
    (λ m, length m = T ∧ Forall (λ v, length v = 1) m));
    [|clear -HC; intros s m [Hs Hr] [Hm Hv]|by rewrite length_fmap; lia
     |exact HY|].
  - except_run. f_equal. clear HB Hlen. revert lengths.
    induction HY as [|s Y [Hs Hr] _ IH]; intros [|len lengths]; [done..|].
    cbn [fmap list_fmap zip_with concat]. rewrite !concat_app, IH. f_equal.
    rewrite <-Hs, select_frames. by rewrite Nat.sub_0_r.
  - eapply broadcast_same_length; [|congruence|exact Hr|exact Hv].
    intros row v Hrow Hv1. cbn beta in *.
    destruct v as [|b [|??]]; [done| |done].
    apply (broadcast_singleton _ (λ u (b : bool), if b then [u] else [])).
    + done.
    + intros ->. cbn in Hrow. lia.
  - apply Forall_fmap, Forall_true. intros len. cbn.
    split; [by rewrite length_fmap, length_seq|].
    by apply Forall_fmap, Forall_true.
Qed.

(** The selected rows are the absolute errors of the frames. *)
Lemma frame_rows_errors B C T x y lengths :
  has_shape B C T x → has_shape B C T y → 1 ≤ C →
  length lengths = B → Forall (λ len, len ≤ T) lengths →
  concat (zip_with (λ s len, take len s)
            (transpose12 (zip_with (zip_with (zip_with ad)) x y)) lengths) =
  frame_errors C lengths x y.
Proof.
  intros Hx Hy HC Hlen Hle.
  assert (has_shape B C T (zip_with (zip_with (zip_with ad)) x y)) as HX.
  { destruct Hx as [HxB Hx], Hy as [HyB Hy]. split.
    - rewrite length_zip_with. lia.
    - eapply Forall_zip_with_fst; [exact Hx|].
      eapply Forall_impl; [exact Hy|]. intros s2 [Hs2 Hr2] s1 [Hs1 Hr1]. split.
      + rewrite length_zip_with. lia.
      + eapply Forall_zip_with_fst; [exact Hr1|].
        eapply Forall_impl; [exact Hr2|]. intros r2 Hl2 r1 Hl1.
        cbn beta in *. rewrite length_zip_with. lia. }
  rewrite (transpose12_shape B C T _ HX HC). unfold frame_errors. f_equal.
  apply list_eq. intros i.
  rewrite lookup_zip_with, list_lookup_imap, list_lookup_fmap, lookup_zip_with.
  destruct (lengths !! i) as [len|] eqn:Hi; cbn.
  2:{ by destruct (x !! i), (y !! i). }
  assert (i < B) as HiB by (apply lookup_lt_Some in Hi; lia).
  destruct Hx as [HxB Hx], Hy as [HyB Hy].
  destruct (lookup_lt_is_Some_2 x i) as [sx Hsx]; [lia|].
  destruct (lookup_lt_is_Some_2 y i) as [sy Hsy]; [lia|].
  rewrite Hsx, Hsy. cbn. f_equal.
  eapply Forall_lookup_1 in Hx as [Hsxl Hsxr]; [|exact Hsx].
  eapply Forall_lookup_1 in Hy as [Hsyl Hsyr]; [|exact Hsy].
  eapply Forall_lookup_1 in Hle; [|exact Hi]. cbn beta in Hle.
  rewrite <-fmap_take, take_seq, Nat.min_l by done.
  apply list_fmap_ext. intros j t [-> Hj]%lookup_seq. cbn.
  rewrite (omap_total _ (λ r, default 0%float (r !! j))).
  2:{ eapply Forall_zip_with_fst; [exact Hsxr|].
      eapply Forall_impl; [exact Hsyr|]. intros r2 Hl2 r1 Hl1. cbn beta in *.
      destruct (lookup_lt_is_Some_2 (zip_with ad r1 r2) j) as [v Hv].
      { rewrite length_zip_with. lia. }
      by rewrite Hv. }
  apply list_eq. intros c.
  rewrite !list_lookup_fmap, lookup_zip_with.
  destruct (decide (c < C)) as [Hc|Hc].
  - rewrite lookup_seq_lt by done. cbn.
    destruct (lookup_lt_is_Some_2 sx c) as [rx Hrx]; [lia|].
    destruct (lookup_lt_is_Some_2 sy c) as [ry Hry]; [lia|].
    rewrite Hrx, Hry. cbn. rewrite lookup_zip_with.
    eapply Forall_lookup_1 in Hsxr; [|exact Hrx].
    eapply Forall_lookup_1 in Hsyr; [|exact Hry]. cbn beta in *.
    destruct (lookup_lt_is_Some_2 rx j) as [u Hu]; [lia|].
    destruct (lookup_lt_is_Some_2 ry j) as [v Hv]; [lia|].
    rewrite Hu, Hv. cbn. unfold at3, get3.
    rewrite Hsx, Hsy. cbn. rewrite Hrx, Hry. cbn. by rewrite Hu, Hv.
  - rewrite (lookup_ge_None_2 (seq 0 C)) by (rewrite length_seq; lia).
    rewrite (lookup_ge_None_2 sx) by lia. done.
Qed.

Lemma frame_errors_shape C lengths x y :
  Forall (λ row, length row = C) (frame_errors C lengths x y) ∧
  length (frame_errors C lengths x y) = sum_list lengths.
Proof.
  unfold frame_errors.
  assert (∀ (g : nat → nat → list (list float)) l,
    (∀ i len, Forall (λ row, length row = C) (g i len) ∧
              length (g i len) = len) →
    Forall (λ row, length row = C) (concat (imap g l)) ∧
    length (concat (imap g l)) = sum_list l) as Hgen.
  { intros g l. revert g. induction l as [|len l IH]; intros g Hg; [done|].
    cbn [imap concat]. destruct (Hg 0 len) as [Hrows Hcount].
    destruct (IH (g ∘ S)) as [IH1 IH2]; [intros i len'; apply Hg|].
    split; [by apply Forall_app|].
    rewrite length_app, IH2, Hcount. done. }
  apply Hgen. intros i len. split.
  - apply Forall_fmap, Forall_true. intros t. cbn.
    by rewrite length_fmap, length_seq.
  - by rewrite length_fmap, length_seq.
Qed.

(** [view(rows, cols)] undoes the flattening of rows of [cols] values. *)
Lemma view_concat {U} (l : list (list U)) (rows cols : nat) :
  Forall (λ row, length row = cols) l → length l = rows →
  view (concat l) rows cols = inr l.
Proof.
  intros Hl <-.
  assert (length (concat l) = length l * cols) as Hlen.
  { induction Hl as [|row l Hrow _ IH]; [done|].
    cbn. rewrite length_app, IH. lia. }
  unfold view. rewrite decide_True by done. f_equal.
  induction Hl as [|row l Hrow _ IH]; [done|].
  cbn [length seq fmap list_fmap concat]. f_equal.
  - change (0 * cols) with 0. by rewrite drop_0, take_app_length'.
  - rewrite <-fmap_S_seq, <-list_fmap_compose.
    etrans; [|apply IH; cbn in Hlen; rewrite length_app in Hlen; lia].
    apply list_fmap_ext. intros _ r _. cbn [compose].
    replace (S r * cols) with (length row + r * cols) by lia.
    by rewrite drop_app_add.
Qed.

Lemma at3_masked lengths x i c t len :
  lengths !! i = Some len → t < len →
  at3 (masked lengths x) i c t = at3 x i c t.
Proof.
  intros Hi Ht. unfold at3, get3, masked. rewrite lookup_zip_with, Hi.
  destruct (x !! i) as [s|]; [|done]. cbn. rewrite list_lookup_fmap.
  destruct (s !! c) as [r|]; [|done]. cbn. rewrite lookup_zip_with.
  destruct (r !! t) as [v|] eqn:Hv; [|done]. cbn.
  rewrite lookup_seq_lt by (by eapply lookup_lt_Some). cbn.
  by rewrite bool_decide_true.
Qed.

(** The errors of the frames do not see what masking changes. *)
Lemma frame_errors_masked C lengths x y :
  frame_errors C lengths (masked lengths x) y = frame_errors C lengths x y.
Proof.
  unfold frame_errors. f_equal. apply list_eq. intros i.
  rewrite !list_lookup_imap. destruct (lengths !! i) as [len|] eqn:Hi; [|done].
  cbn. f_equal. apply list_fmap_ext. intros j t [-> Hj]%lookup_seq. cbn.
  apply list_fmap_ext. intros _ c _. cbn.
  by rewrite (at3_masked _ _ _ _ _ len).
Qed.

Lemma transpose12_has_shape {U} B C T (X : list (list (list U))) :
  has_shape B C T X → 1 ≤ C → has_shape B T C (transpose12 X).
Proof.
  intros HX HC. rewrite (transpose12_shape B C T X HX HC).
  destruct HX as [HB HX]. split; [by rewrite length_fmap|].
  apply Forall_fmap. eapply Forall_impl; [exact HX|]. intros s [Hs Hr]. cbn.
  split; [by rewrite length_fmap, length_seq|].
  apply Forall_fmap, Forall_forall. intros t [j [-> Hj]%lookup_seq]%list_elem_of_lookup.
  cbn. rewrite <-Hs. clear Hs.
  induction Hr as [|r s Hl _ IH]; [done|]. cbn.
  destruct (lookup_lt_is_Some_2 r j) as [v ->]; [lia|]. cbn. by rewrite IH.
Qed.

Lemma run_bind_load {A} (l : loc) (k : tensor → run A) (h : heap) :
  (load l ≫= k) h = k (h !!! l) h.
Proof. done. Qed.

Lemma run_bind_lift {A V} (m : except V) (v : V) (k : V → run A) (h : heap) :
  m = inr v → (lift m ≫= k) h = k v h.
Proof. by intros ->. Qed.

Lemma dict_set_new {V} (k : string) (v : V) (d : Dict.t V) :
  k ∉ Dict.keys d → Dict.set k v d = d ++ [(k, v)].
Proof.
  unfold Dict.keys. induction d as [|[k' v'] d IH]; [done|].
  cbn. intros [Hne Hnin]%not_elem_of_cons.
  rewrite decide_False by done. by rewrite IH.
Qed.

Lemma concat_same_lengths {U V} (la : list (list U)) (lb : list (list V)) :
  length <$> la = length <$> lb → length (concat la) = length (concat lb).
Proof.
  revert lb. induction la as [|a la IH]; intros [|b lb] Hl; [done..|].
  cbn in Hl. injection Hl as Hab Hl. cbn. rewrite !length_app.
  by rewrite Hab, (IH lb).
Qed.

(** The squared errors that [forward] computes for a prediction [x]
    against [y], and their split by utterance. *)
Lemma masked_squared_errors B C T x y lengths :
  has_shape B C T x → has_shape B C T y →
  length lengths = B → foldr Nat.max 0 lengths = T →
  let mask := (λ row, replicate C row) <$> get_mask_from_lengths lengths in
  masked_select x mask = inr (concat (utterance_frames lengths x)) ∧
  masked_select y mask = inr (concat (utterance_frames lengths y)) ∧
  squared_error (concat (utterance_frames lengths x))
                (concat (utterance_frames lengths y)) =
    inr (concat (utterance_errors lengths x y)) ∧
  split (concat (utterance_errors lengths x y))
        ((λ len, len * C) <$> lengths) = inr (utterance_errors lengths x y) ∧
  length (utterance_errors lengths x y) = B.
Proof.
  intros Hx Hy Hlen Hmax mask.
  assert (Forall (λ len, len ≤ T) lengths) as Hle
    by (rewrite <-Hmax; apply lengths_le_max).
  pose proof (utterance_frames_lengths _ _ _ _ _ Hx Hlen Hle) as Hlx.
  pose proof (utterance_frames_lengths _ _ _ _ _ Hy Hlen Hle) as Hly.
  destruct (utterance_errors_lengths _ _ _ _ _ _ Hx Hy Hlen Hle) as [Hl He].
  split_and!.
  - by apply (masked_select_frames B C T).
  - by apply (masked_select_frames B C T).
  - rewrite squared_error_same_length, He; [done|].
    apply concat_same_lengths. congruence.
  - by apply split_concat.
  - apply (f_equal length) in Hl. rewrite !length_fmap in Hl. lia.
Qed.

(** The rows that [forward] computes for the frame-scaled error of a
    prediction [x] against [y]. *)
Lemma masked_frame_errors B C T x y lengths :
  has_shape B C T x → has_shape B C T y → 1 ≤ C →
  length lengths = B → foldr Nat.max 0 lengths = T →
  let mask := (λ row, replicate C row) <$> get_mask_from_lengths lengths in
  let mask := fmap (M:=list) (fmap (M:=list) (take 1)) (transpose12 mask) in
  ∃ spec_AE,
    absolute_error x y = inr spec_AE ∧
    masked_select (transpose12 spec_AE) mask =
      inr (concat (frame_errors C lengths x y)) ∧
    view (concat (frame_errors C lengths x y)) (sum_list lengths) C =
      inr (frame_errors C lengths x y).
Proof.
  intros Hx Hy HC Hlen Hmax. cbv zeta.
  assert (Forall (λ len, len ≤ T) lengths) as Hle
    by (rewrite <-Hmax; apply lengths_le_max).
  eexists. split; [by apply (absolute_error_same_shape B C T)|].
  destruct (frame_errors_shape C lengths x y) as [Hrows Hcount]. split.
  - rewrite mask_rows, Hmax, mask_frames by done.
    rewrite (masked_select_rows B C T); [|apply transpose12_has_shape|..];
      try done.
    + by rewrite (frame_rows_errors B C T).
    + destruct Hx as [HxB Hx], Hy as [HyB Hy]. split.
      * rewrite length_zip_with. lia.
      * eapply Forall_zip_with_fst; [exact Hx|].
        eapply Forall_impl; [exact Hy|]. intros s2 [Hs2 Hr2] s1 [Hs1 Hr1].
        split; [rewrite length_zip_with; lia|].
        eapply Forall_zip_with_fst; [exact Hr1|].
        eapply Forall_impl; [exact Hr2|]. intros r2 Hl2 r1 Hl1.
        cbn beta in *. rewrite length_zip_with. lia.
  - by apply view_concat.
Qed.

End frame_scaled.

Section forward_result.
Import Loss.
Context {dtype : Dtype}.
Local Open Scope nat_scope.

Lemma colate_losses_tensor_keys (self : FESV_AELoss)
    (loss_dict : Dict.t float) (loss_scalars : gmap string float)
    (loss : option float) :
  Dict.keys (colate_losses_tensor self loss_dict loss_scalars loss).1 =
    if decide ("loss" ∈ Dict.keys loss_dict) then Dict.keys loss_dict
    else Dict.keys loss_dict ++ ["loss"].
Proof.
  unfold colate_losses_tensor. cbn [fst]. rewrite dict_keys_set.
  assert (Dict.keys (fmap (M:=list) (λ kv : string * float, (kv.1, Some kv.2))
                       loss_dict) = Dict.keys loss_dict) as ->; [|done].
  unfold Dict.keys. rewrite <-list_fmap_compose. by apply list_fmap_ext.
Qed.

(** The computation of the losses on a padded batch: it returns, and
    what it returns is made of the errors over the frames. *)
Lemma losses_of_masked_returns self pred gt loss_scalars h B C T fl :
  padded_batch pred gt h B C T →
  Forall (λ i, ∃ p, audiopath gt !! i = Some p ∧ is_Some (Dict.get p fl))
         (seq 0 B) →
  ∃ fl',
    set_file_losses gt
      (utterance_errors (mel_lengths gt) (h !!! pred_mel pred)
                        (h !!! gt_mel gt))
      (seq 0 B) fl = inr fl' ∧
    losses_of_masked self pred gt loss_scalars B C
      ((λ row, replicate C row) <$> get_mask_from_lengths (mel_lengths gt))
      fl h =
    (inr ((colate_losses_tensor self
             (loss_components C (mel_lengths gt) (h !!! pred_mel pred)
                (h !!! pred_mel_postnet pred) (h !!! gt_mel gt))
             loss_scalars None).1,
          (colate_losses_tensor self
             (loss_components C (mel_lengths gt) (h !!! pred_mel pred)
                (h !!! pred_mel_postnet pred) (h !!! gt_mel gt))
             loss_scalars None).2,
          fl'), h).
Proof.
  intros [(g & Hg & Hgs) (pm & Hpm & Hpms) (pp & Hpp & Hpps) HB HC Hlen Hmax
            Hpaths Hspeakers] Hfl.
  rewrite (lookup_total_correct _ _ _ Hg), (lookup_total_correct _ _ _ Hpm),
    (lookup_total_correct _ _ _ Hpp).
  set (lens := mel_lengths gt) in *.
  destruct (masked_squared_errors B C T pm g lens Hpms Hgs Hlen Hmax)
    as (Hs1 & Hs2 & Hs3 & Hs4 & Hs5).
  destruct (masked_squared_errors B C T pp g lens Hpps Hgs Hlen Hmax)
    as (Hp1 & _ & Hp3 & _ & _).
  destruct (masked_frame_errors B C T pm g lens Hpms Hgs HC Hlen Hmax)
    as (sAE & Ha1 & Ha2 & Ha3).
  destruct (masked_frame_errors B C T pp g lens Hpps Hgs HC Hlen Hmax)
    as (pAE & Hq1 & Hq2 & Hq3).
  destruct (set_file_losses_spec gt (utterance_errors lens pm g) (seq 0 B) fl)
    as (fl' & Hfl' & _).
  { apply Forall_forall. intros i Hi.
    destruct (proj1 (Forall_forall _ _) Hfl i Hi) as (p & Hp & He).
    apply elem_of_seq in Hi. exists p. split_and!; [done| |done].
    apply lookup_lt_is_Some_2. lia. }
  exists fl'. split; [done|]. unfold losses_of_masked.
  rewrite !run_bind_load.
  rewrite (lookup_total_correct _ _ _ Hg), (lookup_total_correct _ _ _ Hpm).
  rewrite (run_bind_lift _ _ _ _ Hs1), (run_bind_lift _ _ _ _ Hs2),
    (run_bind_lift _ _ _ _ Hs3), (run_bind_lift _ _ _ _ Hs4),
    (run_bind_lift _ _ _ _ Hfl').
  rewrite run_bind_load, (lookup_total_correct _ _ _ Hpp).
  rewrite (run_bind_lift _ _ _ _ Hp1), (run_bind_lift _ _ _ _ Hp3).
  rewrite (run_bind_lift _ _ _ _ Ha1), (run_bind_lift _ _ _ _ Ha2),
    (run_bind_lift _ _ _ _ Ha3).
  rewrite (run_bind_lift _ _ _ _ Hq1), (run_bind_lift _ _ _ _ Hq2),
    (run_bind_lift _ _ _ _ Hq3).
  change (Dict.set "postnet_MFSE" ?v4 (Dict.set "spec_MFSE" ?v3
            (Dict.set "postnet_MSE" ?v2 (Dict.set "spec_MSE" ?v1 []))))
    with [("spec_MSE", v1); ("postnet_MSE", v2); ("spec_MFSE", v3);
          ("postnet_MFSE", v4)].
  fold (loss_components C lens pm pp g).
  by destruct (colate_losses_tensor self (loss_components C lens pm pp g)
                 loss_scalars None).
Qed.

Lemma masked_heap_lookup pred gt h pm pp :
  h !! pred_mel pred = Some pm → h !! pred_mel_postnet pred = Some pp →
  masked_heap pred gt h !! pred_mel pred = Some (masked (mel_lengths gt) pm) ∧
  masked_heap pred gt h !! pred_mel_postnet pred =
    Some (masked (mel_lengths gt) pp) ∧
  ∀ l, l ≠ pred_mel pred → l ≠ pred_mel_postnet pred →
       masked_heap pred gt h !! l = h !! l.
Proof.
  intros Hpm Hpp. unfold masked_heap, mask_at.
  rewrite (lookup_total_correct _ _ _ Hpp).
  destruct (decide (pred_mel_postnet pred = pred_mel pred)) as [He|Hne].
  - rewrite He in *. assert (pp = pm) as -> by congruence.
    rewrite lookup_total_insert_eq, masked_idemp, lookup_insert_eq.
    split_and!; [done..|]. intros l Hl _. by rewrite !lookup_insert_ne.
  - rewrite lookup_total_insert_ne, (lookup_total_correct _ _ _ Hpm) by done.
    rewrite lookup_insert_eq, lookup_insert_ne, lookup_insert_eq by done.
    split_and!; [done..|]. intros l Hl1 Hl2. by rewrite !lookup_insert_ne.
Qed.

(** What [forward] returns on a padded batch whose ground truth is not
    one of the predicted tensors, with the intermediate facts about
    [file_losses]. *)
Lemma forward_result self clock pred gt loss_scalars h B C T pm pp g :
  padded_batch pred gt h B C T →
  h !! pred_mel pred = Some pm → h !! pred_mel_postnet pred = Some pp →
  h !! gt_mel gt = Some g →
  gt_mel gt ≠ pred_mel pred → gt_mel gt ≠ pred_mel_postnet pred →
  ∃ fl fl',
    new_file_losses clock gt (seq 0 B) [] = inr fl ∧
    set_file_losses gt (utterance_errors (mel_lengths gt) pm g) (seq 0 B) fl
      = inr fl' ∧
    forward self clock pred gt loss_scalars h =
      (inr ((colate_losses_tensor self (loss_components C (mel_lengths gt) pm pp g)
               loss_scalars None).1,
            (colate_losses_tensor self (loss_components C (mel_lengths gt) pm pp g)
               loss_scalars None).2,
            fl'),
       masked_heap pred gt h).
Proof.
  intros Hb Hpm Hpp Hg Hg1 Hg2.
  destruct (forward_on_padded_batch self clock pred gt loss_scalars h B C T Hb)
    as (fl & Hfl & ->).
  destruct (masked_heap_lookup pred gt h pm pp Hpm Hpp) as (Hm1 & Hm2 & Hm3).
  destruct (losses_of_masked_returns self pred gt loss_scalars
              (masked_heap pred gt h) B C T fl) as (fl' & Hfl' & ->).
  { by apply padded_batch_masked_heap. }
  { destruct (new_file_losses_spec clock gt (seq 0 B) [] fl Hfl) as [_ Hget].
    apply Forall_forall. intros i Hi%elem_of_seq.
    destruct (lookup_lt_is_Some_2 (audiopath gt) i) as [p Hp].
    { pose proof (pb_audiopath _ _ _ _ _ _ Hb). lia. }
    exists p. split; [done|]. rewrite Hget. cbn.
    destruct (first_round (audiopath gt) p (seq 0 B)) as [k|] eqn:Hk;
      [by eexists|].
    eapply first_round_None in Hk; [by destruct Hk|]. apply elem_of_seq. lia. }
  assert (masked_heap pred gt h !! gt_mel gt = Some g) as Hg'
    by (by rewrite Hm3).
  rewrite (lookup_total_correct _ _ _ Hm1), (lookup_total_correct _ _ _ Hm2),
    (lookup_total_correct _ _ _ Hg') in *.
  assert (utterance_errors (mel_lengths gt) (masked (mel_lengths gt) pm) g =
          utterance_errors (mel_lengths gt) pm g) as Hu1
    by (unfold utterance_errors; by rewrite utterance_frames_masked).
  assert (utterance_errors (mel_lengths gt) (masked (mel_lengths gt) pp) g =
          utterance_errors (mel_lengths gt) pp g) as Hu2
    by (unfold utterance_errors; by rewrite utterance_frames_masked).
  exists fl, fl'. rewrite Hu1 in Hfl'. split_and!; [done..|].
  unfold loss_components. by rewrite Hu1, Hu2, !frame_errors_masked.
Qed.

Lemma new_file_losses_entries clock gt B fl :
  new_file_losses clock gt (seq 0 B) [] = inr fl →
  NoDup (Dict.keys fl) ∧
  (∀ path, Dict.get path fl =
     new_entry clock gt <$> first_round (audiopath gt) path (seq 0 B)) ∧
  (∀ path, path ∈ Dict.keys fl ↔ path ∈ take B (audiopath gt)).
Proof.
  intros Hfl.
  destruct (new_file_losses_spec clock gt (seq 0 B) [] fl Hfl) as [Hnd Hget].
  split_and!; [apply Hnd, NoDup_nil_2|exact Hget|]. intros path. split.
  - intros Hin. destruct (Dict.get path fl) as [e|] eqn:He.
    2:{ by apply dict_get_keys in He. }
    rewrite Hget in He. cbn in He.
    destruct (first_round (audiopath gt) path (seq 0 B)) as [k|] eqn:Hk;
      [|done].
    apply first_round_Some in Hk as [Hk%elem_of_seq Hp].
    apply list_elem_of_lookup. exists k. by rewrite lookup_take_lt by lia.
  - intros [k Hk]%list_elem_of_lookup.
    assert (k < B) as HkB.
    { apply lookup_lt_Some in Hk. rewrite length_take in Hk. lia. }
    rewrite lookup_take_lt in Hk by done.
    destruct (decide (path ∈ Dict.keys fl)) as [|Hn]; [done|].
    apply dict_get_keys in Hn. rewrite Hget in Hn. cbn in Hn.
    destruct (first_round (audiopath gt) path (seq 0 B)) eqn:Hf; [done|].
    eapply first_round_None in Hf; [by destruct Hf|]. apply elem_of_seq. lia.
Qed.

End forward_result.

Section forward_extras.
Import Loss.
Context {dtype : Dtype}.
Local Open Scope nat_scope.

(** X4: on a padded batch whose ground truth is not one of the predicted
    tensors [forward] returns normally.  The components it collates are
    computed, in the arithmetic of the tensors' dtype, over the frames
    [t < mel_lengths[i]] of the utterances alone: the mean squared errors
    of the prediction and of its postnet version, and their frame-scaled
    mean absolute errors; the returned mapping holds them in this order,
    followed by ['loss']. *)
Theorem forward_losses (self : FESV_AELoss) (clock : nat → float)
    (pred : predictions) (gt : ground_truth)
    (loss_scalars : gmap string float) (h : heap) (B n_mel T : nat)
    (pred_mel_t pred_mel_postnet_t gt_mel_t : tensor) :
  padded_batch pred gt h B n_mel T →
  h !! pred_mel pred = Some pred_mel_t →
  h !! pred_mel_postnet pred = Some pred_mel_postnet_t →
  h !! gt_mel gt = Some gt_mel_t →
  gt_mel gt ≠ pred_mel pred → gt_mel gt ≠ pred_mel_postnet pred →
  ∃ loss_dict printed file_losses h',
    forward self clock pred gt loss_scalars h =
      (inr (loss_dict, printed, file_losses), h') ∧
    (loss_dict, printed) =
      colate_losses_tensor self
        (loss_components n_mel (mel_lengths gt) pred_mel_t pred_mel_postnet_t
           gt_mel_t)
        loss_scalars None ∧
    Dict.keys loss_dict =
      ["spec_MSE"; "postnet_MSE"; "spec_MFSE"; "postnet_MFSE"; "loss"].
Proof.
  intros Hb Hpm Hpp Hg Hg1 Hg2.
  destruct (forward_result self clock pred gt loss_scalars h B n_mel T
              pred_mel_t pred_mel_postnet_t gt_mel_t Hb Hpm Hpp Hg Hg1 Hg2)
    as (fl & fl' & _ & _ & Hrun).
  eexists _, _, fl', _. split; [exact Hrun|]. split.
  - by destruct (colate_losses_tensor _ _ _ _).
  - by rewrite colate_losses_tensor_keys.
Qed.

(** X5: on a padded batch whose ground truth is not one of the predicted
    tensors, the per-file diagnostics that [forward] returns have exactly
    one entry for each path among the first [B] of [audiopath].  The
    entry of a path keeps the speaker and the time of the first utterance
    of that path, and its ['spec_MSE'] is the mean (of the tensors' dtype)
    of the squared errors over the frames of the last utterance of that
    path. *)
Theorem forward_file_losses (self : FESV_AELoss) (clock : nat → float)
    (pred : predictions) (gt : ground_truth)
    (loss_scalars : gmap string float) (h : heap) (B n_mel T : nat)
    (pred_mel_t pred_mel_postnet_t gt_mel_t : tensor) :
  padded_batch pred gt h B n_mel T →
  h !! pred_mel pred = Some pred_mel_t →
  h !! pred_mel_postnet pred = Some pred_mel_postnet_t →
  h !! gt_mel gt = Some gt_mel_t →
  gt_mel gt ≠ pred_mel pred → gt_mel gt ≠ pred_mel_postnet pred →
  ∃ loss_dict printed file_losses h',
    forward self clock pred gt loss_scalars h =
      (inr (loss_dict, printed, file_losses), h') ∧
    NoDup (Dict.keys file_losses) ∧
    (∀ path, path ∈ Dict.keys file_losses ↔ path ∈ take B (audiopath gt)) ∧
    ∀ i j path speaker errors,
      i < B → audiopath gt !! i = Some path →
      (∀ k, k < i → audiopath gt !! k ≠ Some path) →
      j < B → audiopath gt !! j = Some path →
      (∀ k, j < k → k < B → audiopath gt !! k ≠ Some path) →
      speaker_id_ext gt !! i = Some speaker →
      utterance_errors (mel_lengths gt) pred_mel_t gt_mel_t !! j
        = Some errors →
      Dict.get path file_losses =
        Some [("speaker_id_ext", Int speaker); ("time", Float (clock i));
              ("spec_MSE", Float (t_mean errors))].
Proof.
  intros Hb Hpm Hpp Hg Hg1 Hg2.
  destruct (forward_result self clock pred gt loss_scalars h B n_mel T
              pred_mel_t pred_mel_postnet_t gt_mel_t Hb Hpm Hpp Hg Hg1 Hg2)
    as (fl & fl' & Hfl & Hfl' & Hrun).
  destruct (new_file_losses_entries clock gt B fl Hfl) as (Hnd & Hget & Hkeys).
  set (losses := utterance_errors (mel_lengths gt) pred_mel_t gt_mel_t) in *.
  destruct (set_file_losses_spec gt losses (seq 0 B) fl)
    as (fl'' & Hfl'' & Hkeys' & Hget').
  { apply Forall_forall. intros i Hi%elem_of_seq.
    destruct (lookup_lt_is_Some_2 (audiopath gt) i) as [p Hp].
    { pose proof (pb_audiopath _ _ _ _ _ _ Hb). lia. }
    exists p. split_and!; [done| |].
    - destruct (pb_pred_mel _ _ _ _ _ _ Hb) as (x & Hx & Hxs).
      destruct (pb_gt_mel _ _ _ _ _ _ Hb) as (y & Hy & Hys).
      assert (x = pred_mel_t) as -> by congruence.
      assert (y = gt_mel_t) as -> by congruence.
      destruct (masked_squared_errors B n_mel T pred_mel_t gt_mel_t
                  (mel_lengths gt) Hxs Hys (pb_mel_lengths _ _ _ _ _ _ Hb)
                  (pb_longest _ _ _ _ _ _ Hb)) as (_ & _ & _ & _ & Hlen).
      apply lookup_lt_is_Some_2. unfold losses. lia.
    - apply not_eq_None_Some. intros Hn%dict_get_keys. apply Hn, Hkeys.
      apply list_elem_of_lookup. exists i. by rewrite lookup_take_lt by lia. }
  assert (fl'' = fl') as -> by congruence.
  eexists _, _, fl', _. split; [exact Hrun|]. split_and!.
  - by rewrite Hkeys'.
  - intros path. by rewrite Hkeys'.
  - intros i j path speaker errors Hi Hpi Hfirst Hj Hpj Hlast Hsp Herr.
    rewrite Hget', Hget.
    rewrite (first_round_seq _ _ _ i), (last_round_seq _ _ _ j) by done.
    cbn. unfold new_entry. by rewrite Herr, Hsp.
Qed.

Lemma py_index_None {A} (l : list A) (i : nat) :
  l !! i = None → py_index l i = inl IndexError.
Proof. unfold py_index. by intros ->. Qed.

Lemma new_file_losses_raises clock gt idx : ∀ fl,
  (∃ i, i ∈ idx ∧ length (audiopath gt) ≤ i) →
  new_file_losses clock gt idx fl = inl IndexError.
Proof.
  induction idx as [|i idx IH]; intros fl (k & Hk & Hlen).
  { by apply elem_of_nil in Hk. }
  cbn [new_file_losses].
  destruct (audiopath gt !! i) as [p|] eqn:Hp;
    [|by rewrite (py_index_None _ _ Hp)].
  rewrite (py_index_lookup _ _ _ Hp). except_run.
  assert (∃ i, i ∈ idx ∧ length (audiopath gt) ≤ i) as Hrest.
  { apply elem_of_cons in Hk as [->|Hk]; [|by exists k].
    apply lookup_lt_Some in Hp. lia. }
  destruct (Dict.get p fl).
  - except_run. by apply IH.
  - destruct (speaker_id_ext gt !! i) as [sid|] eqn:Hs;
      [|by rewrite (py_index_None _ _ Hs)].
    rewrite (py_index_lookup _ _ _ Hs). except_run. by apply IH.
Qed.

(** X6: when [audiopath] has fewer entries than the batch has
    utterances, [forward] raises [IndexError] in its first loop, before
    it has written to any tensor. *)
Theorem forward_short_audiopath (self : FESV_AELoss) (clock : nat → float)
    (pred : predictions) (gt : ground_truth)
    (loss_scalars : gmap string float) (h : heap) (B n_mel T : nat)
    (gt_mel_t : tensor) :
  h !! gt_mel gt = Some gt_mel_t → has_shape B n_mel T gt_mel_t →
  1 ≤ B → 1 ≤ n_mel →
  length (audiopath gt) < B →
  forward self clock pred gt loss_scalars h = (inl IndexError, h).
Proof.
  intros Hg Hgs HB HC Hshort. unfold forward.
  rewrite run_bind_load, (lookup_total_correct _ _ _ Hg).
  rewrite (shape_has_shape _ _ _ _ Hgs HB HC).
  rewrite (new_file_losses_raises clock gt (seq 0 B) []); [done|].
  exists (length (audiopath gt)). split; [|done]. apply elem_of_seq. lia.
Qed.

End forward_extras.

Section forward_extras_witnesses.
Import Loss LossExample LossExample2.
Local Open Scope nat_scope.

Lemma example_padded_batch gt :
  gt_mel gt = 3%positive → mel_lengths gt = [3; 1] →
  2 ≤ length (audiopath gt) → 2 ≤ length (speaker_id_ext gt) →
  padded_batch example_pred gt example_heap 2 2 3.
Proof.
  intros Hg Hl Hp Hs. split; rewrite ?Hg, ?Hl; [..|done|done]; try lia.
  - eexists. split; [reflexivity|]. split; [reflexivity|]. repeat constructor.
  - eexists. split; [reflexivity|]. split; [reflexivity|]. repeat constructor.
  - eexists. split; [reflexivity|]. split; [reflexivity|]. repeat constructor.
  - reflexivity.
  - reflexivity.
Qed.

Lemma forward_twice_witness :
  ∃ out out' h',
    forward (dtype:=example_dtype) example_loss (λ _, 0%float) example_pred
      example_gt ∅
      example_heap = (out, h') ∧
    forward (dtype:=example_dtype) example_loss (λ _, 1%float) example_pred
      example_gt ∅ h'
      = (out', h') ∧
    except_rel same_result_but_time out out'.
Proof.
  apply (forward_twice (dtype:=example_dtype) example_loss
           (λ _, 0%float) (λ _, 1%float)
           example_pred example_gt ∅ example_heap 2 2 3).
  apply example_padded_batch; [reflexivity|reflexivity|cbn; lia|cbn; lia].
Defined.

Lemma forward_losses_witness :
  ∃ loss_dict printed file_losses h',
    forward (dtype:=example_dtype) example_loss (λ _, 0%float) example_pred
      example_gt ∅
      example_heap = (inr (loss_dict, printed, file_losses), h') ∧
    Dict.get "postnet_MSE" loss_dict = Some (Some 26%float) ∧
    Dict.keys loss_dict =
      ["spec_MSE"; "postnet_MSE"; "spec_MFSE"; "postnet_MFSE"; "loss"].
Proof.
  destruct (forward_losses (dtype:=example_dtype) example_loss
              (λ _, 0%float) example_pred
              example_gt ∅ example_heap 2 2 3
              [[[1; 1; 1]; [1; 1; 1]]; [[2; 2; 2]; [2; 2; 2]]]%float
              [[[1; 2; 3]; [4; 5; 6]]; [[7; 8; 9]; [10; 11; 12]]]%float
              [[[0; 0; 0]; [0; 0; 0]]; [[1; 1; 1]; [1; 1; 1]]]%float)
    as (loss_dict & printed & file_losses & h' & Hrun & Hcolate & Hkeys).
  - apply example_padded_batch; [reflexivity|reflexivity|cbn; lia|cbn; lia].
  - reflexivity.
  - reflexivity.
  - reflexivity.
  - discriminate.
  - discriminate.
  - exists loss_dict, printed, file_losses, h'.
    split; [exact Hrun|]. split; [|exact Hkeys].
    vm_compute in Hcolate. injection Hcolate as -> _. reflexivity.
Defined.

Lemma forward_file_losses_witness :
  ∃ loss_dict printed file_losses h',
    forward (dtype:=example_dtype) example_loss (λ _, 0%float) example_pred
      example_gt_repeated ∅
      example_heap = (inr (loss_dict, printed, file_losses), h') ∧
    Dict.keys file_losses = ["a.wav"] ∧
    Dict.get "a.wav" file_losses =
      Some [("speaker_id_ext", Int 5); ("time", Float 0%float);
            ("spec_MSE", Float 1%float)].
Proof.
  destruct (forward_file_losses (dtype:=example_dtype) example_loss
              (λ _, 0%float) example_pred
              example_gt_repeated ∅ example_heap 2 2 3
              [[[1; 1; 1]; [1; 1; 1]]; [[2; 2; 2]; [2; 2; 2]]]%float
              [[[1; 2; 3]; [4; 5; 6]]; [[7; 8; 9]; [10; 11; 12]]]%float
              [[[0; 0; 0]; [0; 0; 0]]; [[1; 1; 1]; [1; 1; 1]]]%float)
    as (loss_dict & printed & file_losses & h' & Hrun & Hnd & Hkeys & Hget).
  - apply example_padded_batch; [reflexivity|reflexivity|cbn; lia|cbn; lia].
  - reflexivity.
  - reflexivity.
  - reflexivity.
  - discriminate.
  - discriminate.
  - exists loss_dict, printed, file_losses, h'. split; [exact Hrun|].
    pose proof (f_equal fst Hrun) as Hout. cbn [fst] in Hout.
    vm_compute in Hout. injection Hout as _ _ <-. split; [reflexivity|].
    pose proof (Hget 0 1 "a.wav" 5%Z [1; 1]%float) as He.
    vm_compute in He. apply He; (lia || reflexivity || auto); intros; lia.
Defined.

Lemma forward_short_audiopath_witness :
  forward (dtype:=example_dtype) example_loss (λ _, 0%float) example_pred
    example_gt_short ∅
    example_heap = (inl IndexError, example_heap).
Proof.
  apply (forward_short_audiopath (dtype:=example_dtype) example_loss
           (λ _, 0%float) example_pred
           example_gt_short ∅ example_heap 2 2 3
           [[[0; 0; 0]; [0; 0; 0]]; [[1; 1; 1]; [1; 1; 1]]]%float).
  - reflexivity.
  - split; [reflexivity|]. repeat constructor.
  - lia.
  - lia.
  - cbn. lia.
Defined.

End forward_extras_witnesses.

(** * Further properties of [WN_2d] *)

Section wn2d_prefix.
Import WN_2d.
Context {Sl Cond Spk : Type} `{!Torch Sl Cond Spk}.
Variables (self : instance Sl Cond Spk) (c : Sl).




End wn2d_prefix.

Section wn2d_extras.
Import WN_2d.
Context {Sl Cond Spk : Type} `{!Torch Sl Cond Spk}.


(** An entry of [spect_queues] is read only when none is [None]. *)
Lemma no_none_lookup {X} (l : list (option X)) i q :
  existsb (λ x, if x is None then true else false) l = false →
  l !! i = Some q → is_Some q.
Proof.
  revert i. induction l as [|[x|] l IH]; intros [|i]; cbn; try done.
  - by intros _ [= <-].
  - apply IH.
Qed.

(** A layer never writes to [spect_queues], and it keeps the length of
    [audio_queues]. *)
Lemma layer_keeps_queues (self : instance Sl Cond Spk) sp i
    (st st' : locals Sl Cond) :
  layer self sp i st = inr st' →
  l_spect_queues st' = l_spect_queues st ∧
  match l_audio_queues st with
  | None => l_audio_queues st' = None
  | Some aq => ∃ aq', l_audio_queues st' = Some aq' ∧ length aq' = length aq
  end.
Proof.
  unfold layer. intros Hl.
  apply except_bind_inv in Hl as (st1 & Hsel & Hl).
  apply except_bind_inv in Hl as ([cpad aq] & Hci & Hl).
  do 5 (apply except_bind_inv in Hl as (? & _ & Hl)).
  apply except_bind_inv in Hl as ([audio' output'] & _ & Hl).
  injection Hl as <-. cbn [l_spect_queues l_audio_queues].
  assert (l_spect_queues st1 = l_spect_queues st ∧
          l_audio_queues st1 = l_audio_queues st) as [Hs Ha].
  { unfold select_spec in Hsel.
    destruct (process_spectrograms (l_spect_queues st)) eqn:Hps.
    - by injection Hsel as <-.
    - apply except_bind_inv in Hsel as (q & Hq%py_index_inv & Hsel).
      destruct (l_spect_queues st) as [sq|]; [|done]. cbn in Hps, Hq.
      destruct (no_none_lookup sq i q Hps Hq) as [s ->].
      by injection Hsel as <-. }
  split; [done|].
  unfold causal_input in Hci.
  apply except_bind_inv in Hci as (p & _ & Hci).
  rewrite Ha in Hci. destruct (l_audio_queues st) as [aq0|].
  - apply except_bind_inv in Hci as (q & _ & Hci).
    apply except_bind_inv in Hci as (? & _ & Hci).
    injection Hci as _ <-. eexists. split; [done|]. by rewrite length_insert.
  - by injection Hci as _ <-.
Qed.

Lemma layers_keep_queues (self : instance Sl Cond Spk) sp idx :
  ∀ st st' : locals Sl Cond,
  layers self sp idx st = inr st' →
  l_spect_queues st' = l_spect_queues st ∧
  match l_audio_queues st with
  | None => l_audio_queues st' = None
  | Some aq => ∃ aq', l_audio_queues st' = Some aq' ∧ length aq' = length aq
  end.
Proof.
  induction idx as [|i idx IH]; intros st st' Hl; cbn [layers] in Hl.
  - injection Hl as <-. split; [done|].
    destruct (l_audio_queues st); [by eexists|done].
  - apply except_bind_inv in Hl as (st1 & Hl1 & Hl).
    apply layer_keeps_queues in Hl1 as [Hs1 Ha1].
    apply IH in Hl as [Hs Ha]. split; [congruence|].
    destruct (l_audio_queues st) as [aq|].
    + destruct Ha1 as (aq1 & Haq1 & Hlen1). rewrite Haq1 in Ha.
      destruct Ha as (aq' & -> & Hlen). eexists. split; [done|]. congruence.
    + by rewrite Ha1 in Ha.
Qed.

(** X8: what [WN_2d.forward] returns, whatever the instance and the
    tensors.  When it returns, either no queues were passed and the
    result is the bare tensor, or [audio_queues] was passed and the
    result is the list [[func_out, audio_queues, spect_queues]] whose
    [audio_queues] has as many entries as the list passed and whose
    [spect_queues] is exactly what was passed: no call ever stores a
    conditioning slice in [spect_queues]. *)
Theorem forward_returns (self : instance Sl Cond Spk) (audio : list Sl)
    (spect : Cond) (speaker_id : option Spk)
    (audio_queues : queues (list Sl))
    (spect_queues : queues (tensor_val Sl Cond)) (r : result Sl Cond) :
  forward self audio spect speaker_id audio_queues spect_queues = inr r →
  (audio_queues = None ∧ spect_queues = None ∧
   ∃ func_out, r = Tensor func_out) ∨
  (∃ aq func_out aq',
     audio_queues = Some aq ∧ r = List func_out aq' spect_queues ∧
     length aq' = length aq).
Proof.
  unfold forward. intros Hf.
  apply except_bind_inv in Hf as (st & Hl & Hf).
  apply layers_keep_queues in Hl as [Hs Ha].
  cbn [l_spect_queues l_audio_queues] in Hs, Ha. rewrite Hs in Hf.
  destruct audio_queues as [aq|].
  - destruct Ha as (aq' & Haq' & Hlen). rewrite Haq' in Hf.
    injection Hf as <-. right. by eexists _, _, _.
  - rewrite Ha in Hf. destruct spect_queues; [done|].
    injection Hf as <-. left. by eauto.
Qed.

(** With every entry of [spect_queues] set, a layer does not read
    [spect]. *)
Lemma layers_cached (self : instance Sl Cond Spk) sp sp' idx :
  ∀ st : locals Sl Cond,
  process_spectrograms (l_spect_queues st) = false →
  layers self sp idx st = layers self sp' idx st.
Proof.
  induction idx as [|i idx IH]; intros st Hps; [done|]. cbn [layers].
  assert (layer self sp i st = layer self sp' i st) as Heq.
  { unfold layer, select_spec. by rewrite Hps. }
  rewrite <-Heq. destruct (layer self sp i st) as [e|st1] eqn:Hl; [done|].
  except_run. apply IH.
  apply layer_keeps_queues in Hl as [-> _]. done.
Qed.

(** X9: once every entry of [spect_queues] is set, [WN_2d.forward]
    takes the conditioning of each layer from [spect_queues] and ignores
    its arguments [spect] and [speaker_id]: two calls that differ only in
    these behave alike (same result or same exception). *)
Theorem forward_cached_conditioning (self : instance Sl Cond Spk)
    (audio : list Sl) (spect spect' : Cond) (speaker_id speaker_id' : option Spk)
    (audio_queues : queues (list Sl))
    (spect_queues : queues (tensor_val Sl Cond)) :
  process_spectrograms spect_queues = false →
  forward self audio spect speaker_id audio_queues spect_queues =
  forward self audio spect' speaker_id' audio_queues spect_queues.
Proof.
  intros Hps. unfold forward. rewrite Hps.
  by rewrite (layers_cached self (Rank3 spect) (Rank3 spect')).
Qed.

Lemma layers_app (self : instance Sl Cond Spk) sp idx idx' :
  ∀ st : locals Sl Cond,
  layers self sp (idx ++ idx') st =
    layers self sp idx st ≫= layers self sp idx'.
Proof.
  induction idx as [|i idx IH]; intros st; [done|]. cbn [layers app].
  destruct (layer self sp i st) as [e|st1]; [done|]. except_run. apply IH.
Qed.

(** X10: a [spect_queues] with every entry set but fewer entries than
    the network has layers makes [WN_2d.forward] raise, whatever the other
    arguments; for the empty list the exception is the [IndexError] of
    the first layer ([any([])] is false, so [spect_queues[0]] is read). *)
Theorem forward_short_spect_queues (self : instance Sl Cond Spk)
    (audio : list Sl) (spect : Cond) (speaker_id : option Spk)
    (audio_queues : queues (list Sl))
    (spect_queues : list (option (tensor_val Sl Cond))) :
  process_spectrograms (Some spect_queues) = false →
  length spect_queues < n_layers self →
  ∃ e,
    forward self audio spect speaker_id audio_queues (Some spect_queues)
      = inl e ∧
    (spect_queues = [] → e = IndexError).
Proof.
  intros Hps Hlen.
  destruct (decide (spect_queues = [])) as [->|Hne].
  { exists IndexError. split; [|done]. unfold forward.
    destruct (n_layers self) as [|n]; [cbn in Hlen; lia|]. done. }
  cut (∃ e, forward self audio spect speaker_id audio_queues
              (Some spect_queues) = inl e).
  { intros [e He]. by exists e. }
  unfold forward.
  replace (seq 0 (n_layers self)) with
    (seq 0 (length spect_queues) ++
     length spect_queues :: seq (S (length spect_queues))
                              (n_layers self - S (length spect_queues))).
  2:{ replace (n_layers self) with
        (length spect_queues + S (n_layers self - S (length spect_queues)))
        at 2 by lia.
      by rewrite seq_app. }
  rewrite layers_app.
  match goal with |- ∃ e, (?m ≫= _) ≫= _ = _ =>
    destruct m as [e|st] eqn:Hl end; [by exists e|].
  apply layers_keep_queues in Hl as [Hs _]. cbn [l_spect_queues] in Hs.
  except_run. cbn [layers]. unfold layer at 1, select_spec.
  rewrite Hs, Hps.
  change (default [] (Some spect_queues)) with spect_queues.
  rewrite (py_index_None spect_queues) by (apply lookup_ge_None_2; lia).
  by eexists.
Qed.

End wn2d_extras.

Section wn2d_extras_witnesses.
Import WN_2d.


Lemma forward_returns_witness :
  ∃ r,
    forward (Torch0:=RealSlices.torch 1 2 1) RealSlices.example_instance
      [ [[[1%R]]] ] RealSlices.example_spect None (Some [None; None]) None =
      inr r ∧
    (((Some [None; None] : queues (list Tensor.tensor3)) = None ∧
      (None : queues (tensor_val Tensor.tensor3 Tensor.tensor3)) = None ∧
      ∃ func_out, r = Tensor func_out) ∨
     (∃ aq func_out aq',
        (Some [None; None] : queues (list Tensor.tensor3)) = Some aq ∧
        r = List func_out aq' None ∧
        length aq' = length aq)).
Proof.
  eexists. split; [reflexivity|].
  apply (forward_returns (Torch0:=RealSlices.torch 1 2 1)
           RealSlices.example_instance [ [[[1%R]]] ] RealSlices.example_spect
           None (Some [None; None]) None).
  reflexivity.
Defined.

Lemma forward_cached_conditioning_witness :
  forward (Torch0:=RealSlices.torch 1 2 1) RealSlices.example_instance
    [ [[[1%R]]] ] RealSlices.example_spect None (Some [None; None])
    (Some RealSlices2.example_spect_queues) =
  forward (Torch0:=RealSlices.torch 1 2 1) RealSlices.example_instance
    [ [[[1%R]]] ] RealSlices2.example_other_spect (Some [7]) (Some [None; None])
    (Some RealSlices2.example_spect_queues).
Proof.
  apply (forward_cached_conditioning (Torch0:=RealSlices.torch 1 2 1)).
  reflexivity.
Defined.

Lemma forward_short_spect_queues_witness :
  ∃ e,
    forward (Torch0:=RealSlices.torch 1 2 1) RealSlices.example_instance
      RealSlices.example_audio RealSlices.example_spect None None (Some [])
      = inl e ∧
    (([] : list (option (tensor_val Tensor.tensor3 Tensor.tensor3))) = [] →
     e = IndexError).
Proof.
  apply (forward_short_spect_queues (Torch0:=RealSlices.torch 1 2 1)
           RealSlices.example_instance RealSlices.example_audio
           RealSlices.example_spect None None []);
    [reflexivity|apply le_S, le_n].
Defined.

End wn2d_extras_witnesses.

(** * Further properties of the gate and of [WN] *)

Section gate_extras.
Import Tensor.

Lemma zipM_flip {U V W} (f : U → V → except W) (g : V → U → except W) :
  (∀ x y, f x y = g y x) → ∀ a b, zipM f a b = zipM g b a.
Proof.
  intros Hfg. induction a as [|x a IH]; intros [|y b]; cbn; try done.
  by rewrite Hfg, IH.
Qed.

Lemma forM_ext {U V} (f g : U → except V) :
  (∀ x, f x = g x) → ∀ a, forM f a = forM g a.
Proof. intros Hfg. induction a as [|x a IH]; cbn; [done|]. by rewrite Hfg, IH. Qed.

(** Broadcasting treats its two sides alike. *)
Lemma broadcast_flip {U V W} (f : U → V → except W) (g : V → U → except W) :
  (∀ x y, f x y = g y x) → ∀ a b, broadcast f a b = broadcast g b a.
Proof.
  intros Hfg a b. unfold broadcast.
  destruct (decide (length a = length b)) as [Hl|Hl].
  - rewrite decide_True by done. by apply zipM_flip.
  - rewrite decide_False by done.
    destruct a as [|x [|x' a]], b as [|y [|y' b]]; cbn in Hl; try done;
      apply forM_ext; intros z; by rewrite Hfg.
Qed.

Lemma pointwise_comm (f : R → R → R) (a b : tensor3) :
  (∀ x y, f x y = f y x) → pointwise f a b = pointwise f b a.
Proof.
  intros Hf. unfold pointwise.
  apply broadcast_flip. intros s s'.
  apply broadcast_flip. intros r r'.
  apply broadcast_flip. intros x y. by rewrite Hf.
Qed.

(** X11: [fused_add_tanh_sigmoid_multiply] is symmetric in its two
    tensors: with [input_a] and [input_b] exchanged it returns the same
    tensor, or raises the same exception, whatever their shapes (which
    may differ where broadcasting allows it). *)
Theorem fused_gate_symmetric (input_a input_b : tensor3) (n_channels : nat) :
  fused_add_tanh_sigmoid_multiply input_a input_b n_channels =
  fused_add_tanh_sigmoid_multiply input_b input_a n_channels.
Proof.
  unfold fused_add_tanh_sigmoid_multiply.
  by rewrite (pointwise_comm Rplus input_a input_b Rplus_comm).
Qed.

End gate_extras.

Section wn_extras.
Import Tensor WN.

Lemma forM_error {U V} (f : U → except V) (E : exn) :
  (∀ x e, f x = inl e → e = E) → ∀ l e, forM f l = inl e → e = E.
Proof.
  intros Hf. induction l as [|x l IH]; intros e; cbn; [done|].
  destruct (f x) as [e'|y] eqn:Hx; [intros [= <-]; by eapply Hf|].
  except_run. destruct (forM f l) as [e'|ys]; [|done].
  intros [= <-]. by apply IH.
Qed.

(** A convolution raises nothing but [RuntimeError]. *)
Lemma conv1d_error m x e : conv1d m x = inl e → e = RuntimeError.
Proof.
  apply forM_error. clear. intros s e. unfold conv1d_sample.
  repeat case_decide; try by intros [= <-].
  destruct (forM _ s) as [e'|xp] eqn:Hp.
  - intros [= <-]. eapply forM_error; [|exact Hp].
    intros r e0. unfold pad_channel.
    destruct (pad_mode m); [done|]. destruct r; [by intros [= <-]|done].
  - except_run. by case_decide; intros [= <-].
Qed.

(** A sample with the wrong number of channels is refused. *)
Lemma conv1d_channels m s x :
  length s ≠ in_channels m → conv1d m (s :: x) = inl RuntimeError.
Proof.
  intros Hs. unfold conv1d. cbn [forM]. unfold conv1d_sample.
  case_decide; [done|]. by rewrite decide_True.
Qed.

(** The first convolution of the conditioning stack reads the channels
    of the conditioning and of the speaker embedding. *)
Lemma build_cond_head cfg w w_end b_end self :
  build cfg w w_end b_end = inr self →
  cfg_cond_layers cfg ≠ 0 →
  ∃ m rest, cond_layers self = m :: rest ∧
    in_channels m = cfg_cond_in_channels cfg + cfg_speaker_embed_dim cfg.
Proof.
  intros Hb HL. unfold build in Hb.
  apply except_bind_inv in Hb as (K & HK & Hb).
  do 4 (apply except_bind_inv in Hb as ([] & _ & Hb)).
  apply except_bind_inv in Hb as (m_start & Hstart & Hb).
  apply except_bind_inv in Hb as (m_end & Hend & Hb).
  apply except_bind_inv in Hb as ([conds act] & Hcond & Hb).
  apply except_bind_inv in Hb as ([ins rss] & Hlayers & Hb).
  injection Hb as <-. cbn [cond_layers].
  rewrite bool_decide_true in Hcond by done.
  apply except_bind_inv in Hcond as (ms & Hms & Hcond).
  apply except_bind_inv in Hcond as (f & _ & [= <- <-]).
  unfold init_cond_layers in Hms.
  apply init_cond_convs_fits in Hms.
  destruct (cfg_cond_layers cfg) as [|L]; [done|].
  rewrite !length_app, length_replicate in Hms. cbn [length] in Hms.
  replace (1 + (S L - 1 + 1) - 1) with (S L) in Hms by lia.
  cbn [app take drop] in Hms.
  destruct (replicate (S L - 1) (cfg_cond_hidden_channels cfg) ++
            [2 * cfg_n_channels cfg * cfg_n_layers cfg]) as [|d ds] eqn:Hds.
  { by destruct (replicate _ _). }
  cbn [zip_with] in Hms.
  apply Forall2_cons_inv_r in Hms as (m & rest & (Hin & _) & _ & ->).
  by exists m, rest.
Qed.

(** X12: a [WN] built with a speaker embedding and a conditioning stack
    cannot be called without [speaker_id]: the first convolution of the
    stack expects [cond_in_channels + speaker_embed_dim] channels, so for
    a conditioning tensor of [cond_in_channels] channels [forward] raises
    [RuntimeError], whatever the audio. *)
Theorem forward_needs_speaker_id (cfg : config) (w : initial_weights)
    (w_end : nat → nat → nat → R) (b_end : nat → R) (self : instance)
    (B T_cond : nat) (audio spect : tensor3) :
  build cfg w w_end b_end = inr self →
  cfg_speaker_embed_dim cfg ≠ 0 →
  cfg_cond_layers cfg ≠ 0 →
  1 ≤ B →
  has_shape B (cfg_cond_in_channels cfg) T_cond spect →
  forward self audio spect None = inl RuntimeError.
Proof.
  intros Hb HE HL HB [Hlen Hspect].
  destruct (build_cond_head _ _ _ _ _ Hb HL) as (m & rest & Hm & Hin).
  unfold forward.
  destruct (conv1d (start self) audio) as [e|audio'] eqn:Hstart.
  { by apply conv1d_error in Hstart as ->. }
  except_run. cbn [add_speaker_embeddings]. except_run.
  rewrite Hm. cbn [apply_cond_layers].
  destruct spect as [|s spect]; [cbn in Hlen; lia|].
  apply Forall_cons in Hspect as [[Hs _] _].
  rewrite conv1d_channels by lia. done.
Qed.

(** X13: a [WN] without layers cannot be run: [__init__] accepts
    [n_layers = 0], but [forward] then reaches [self.end(output)] with
    [output] never assigned, so every call raises. *)
Theorem forward_without_layers (self : instance) (audio spect : tensor3)
    (speaker_id : option (list nat)) :
  n_layers self = 0 →
  ∃ e, forward self audio spect speaker_id = inl e.
Proof.
  intros Hn. unfold forward. rewrite Hn.
  destruct (conv1d (start self) audio) as [e|audio']; [by exists e|].
  except_run.
  destruct (add_speaker_embeddings self spect speaker_id) as [e|spect'];
    [by exists e|].
  except_run.
  destruct (apply_cond_layers self 0 (cond_layers self) spect') as [e|spect''];
    [by exists e|].
  except_run.
  match goal with |- ∃ e, ?m ≫= _ = _ => destruct m as [e|sp] end;
    [by exists e|].
  by exists UnboundLocalError.
Qed.

End wn_extras.

Section wn_extras_witnesses.
Import Tensor WN WNExample.

Lemma forward_needs_speaker_id_witness :
  ∃ self,
    init example_config_speakers example_weights = inr self ∧
    forward self example_audio example_spect None = inl RuntimeError.
Proof.
  assert (∃ self, init example_config_speakers example_weights = inr self)
    as [self Hself] by (eexists; reflexivity).
  exists self. split; [exact Hself|].
  apply (forward_needs_speaker_id example_config_speakers example_weights
           (λ _ _ _, 0%R) (λ _, 0%R) self 1 2 example_audio example_spect).
  - exact Hself.
  - discriminate.
  - discriminate.
  - apply le_n.
  - split; [reflexivity|repeat constructor].
Defined.

Lemma forward_without_layers_witness :
  ∃ self,
    init example_config_no_layers example_weights = inr self ∧
    ∃ e, forward self example_audio example_spect None = inl e.
Proof.
  assert (∃ self, init example_config_no_layers example_weights = inr self)
    as [self Hself] by (eexists; reflexivity).
  exists self. split; [exact Hself|].
  apply (forward_without_layers self example_audio example_spect None).
  unfold init, build in Hself. cbn in Hself. by injection Hself as <-.
Defined.

End wn_extras_witnesses.
